(** * txt_maker: a paginated web-novel crawler

    Shallow embedding of [txt_maker.py] and proofs of the properties its
    specification states about it.

    Python [str] values are sequences of Unicode code points; they are
    modelled as [list N].  The document tree built by BeautifulSoup is an
    inductive type, the crawl loop is a step function on an explicit state
    that carries the file store and the trace of effects. *)

From Stdlib Require Import List NArith ZArith Lia Bool String Ascii.
From stdpp Require Import base option list gmap.
Import ListNotations.

Open Scope N_scope.
Open Scope list_scope.

(** ** Python strings *)

Abbreviation str := (list N).

(** An ASCII literal, as the code points of its characters. *)
Definition lit (s : string) : str :=
  List.map N_of_ascii (list_ascii_of_string s).

Definition str_eqb (a b : str) : bool := bool_decide (a = b).

(** [not s] of Python, for a string *)
Definition is_empty (s : str) : bool :=
  match s with [] => true | _ => false end.

(** [Py_UNICODE_ISSPACE]: the characters [str.strip()] removes and the
    regular expression class [\s] matches on [str] patterns. *)
Definition isspace (c : N) : bool :=
  ((9 <=? c) && (c <=? 13)) || ((28 <=? c) && (c <=? 32))
  || (c =? 133) || (c =? 160) || (c =? 5760)
  || ((8192 <=? c) && (c <=? 8202))
  || (c =? 8232) || (c =? 8233) || (c =? 8239) || (c =? 8287)
  || (c =? 12288).

Fixpoint drop_while (p : N -> bool) (s : str) : str :=
  match s with
  | [] => []
  | c :: t => if p c then drop_while p t else s
  end.

Definition lstrip_by (p : N -> bool) (s : str) : str := drop_while p s.
Definition rstrip_by (p : N -> bool) (s : str) : str :=
  rev (drop_while p (rev s)).
Definition strip_by (p : N -> bool) (s : str) : str :=
  rstrip_by p (lstrip_by p s).

(** [s.strip()] *)
Definition strip (s : str) : str := strip_by isspace s.

(** [s.strip(chars)] *)
Definition strip_chars (chars : str) (s : str) : str :=
  strip_by (fun c => bool_decide (c ∈ chars)) s.

(** [re.sub(r'\s+', '_', s)]: every maximal run of whitespace becomes one
    underscore.  [in_run] tells that the previous character was whitespace. *)
Fixpoint re_sub_spaces_from (in_run : bool) (s : str) : str :=
  match s with
  | [] => []
  | c :: t =>
      if isspace c
      then (if in_run then re_sub_spaces_from true t
            else 95 :: re_sub_spaces_from true t)
      else c :: re_sub_spaces_from false t
  end.
Definition re_sub_spaces (s : str) : str := re_sub_spaces_from false s.

(** The characters that line 18 removes: backslash, slash, star, question
    mark, colon, double quote, the two angle brackets and the bar. *)
Definition forbidden_chars : str := [92; 47; 42; 63; 58; 34; 60; 62; 124].
Definition is_forbidden (c : N) : bool := bool_decide (c ∈ forbidden_chars).

(** [re.sub] of line 18: the characters of that class are deleted. *)
Definition re_sub_forbidden (s : str) : str :=
  List.filter (fun c => negb (is_forbidden c)) s.

Definition ascii_lower (c : N) : N :=
  if (65 <=? c) && (c <=? 90) then c + 32 else c.

(** [prefix in s] at the head of [s] *)
Fixpoint starts_with (prefix s : str) : bool :=
  match prefix, s with
  | [], _ => true
  | _ :: _, [] => false
  | a :: p, c :: t => (a =? c) && starts_with p t
  end.

(** [sep in s] *)
Fixpoint str_contains (sep s : str) : bool :=
  starts_with sep s ||
  match s with
  | [] => false
  | _ :: t => str_contains sep t
  end.

(** [s.split(sep, 1)] for a non-empty [sep]: the text before the first
    occurrence of [sep] and the text after it, or [s] alone. *)
Fixpoint split_once (sep s : str) : list str :=
  if starts_with sep s then [[]; drop (length sep) s]
  else match s with
       | [] => [[]]
       | c :: t =>
           match split_once sep t with
           | before :: rest => (c :: before) :: rest
           | [] => [[c]]
           end
       end.

Definition untitled : str := lit "untitled".
Definition dot : str := lit ".".
Definition nbsp : N := 160.
Definition newlines : str := [10; 10].

(** [sep.join(l)] *)
Fixpoint join (sep : str) (l : list str) : str :=
  match l with
  | [] => []
  | [x] => x
  | x :: rest => x ++ sep ++ join sep rest
  end.

(** ** The document tree

    What [BeautifulSoup(markup, 'html.parser')] builds.  A tag has a name,
    its [class] attribute as the list of tokens the tree builder splits it
    into ([None] when the tag has no such attribute), its single-valued
    attributes ([id], [href], ...) as a dictionary, and its children.
    [NavigableString] is a text node; [OtherString] stands for the string
    nodes that [get_text] leaves out (comments, declarations and the like). *)
Inductive node :=
| Tag (name : str) (cls : option (list str)) (attrs : gmap str str)
      (children : list node)
| NavigableString (s : str)
| OtherString (s : str).

(** A tag as met during a traversal, with the names of its ancestors, the
    nearest first ([tag.parents]). *)
Record element := Element {
  e_name : str;
  e_class : option (list str);
  e_attrs : gmap str str;
  e_children : list node;
  e_parents : list str
}.

(** The name of the BeautifulSoup object itself, the last of all parents. *)
Definition document_name : str := lit "[document]".

(** The tags at and below a node, in document order. *)
Fixpoint tags_under (parents : list str) (n : node) : list element :=
  match n with
  | Tag name cls attrs children =>
      Element name cls attrs children parents
      :: flat_map (tags_under (name :: parents)) children
  | NavigableString _ => []
  | OtherString _ => []
  end.

Definition soup_tags (soup : list node) : list element :=
  flat_map (tags_under [document_name]) soup.

(** The strings below a node that [get_text] collects, in document order. *)
Fixpoint all_strings (n : node) : list str :=
  match n with
  | Tag _ _ _ children => flat_map all_strings children
  | NavigableString s => [s]
  | OtherString _ => []
  end.

(** [tag.get_text()] *)
Definition get_text (e : element) : str :=
  concat (flat_map all_strings (e_children e)).

(** [tag.get_text(strip=True)]: every string is stripped, the empty ones
    are dropped, the rest is concatenated. *)
Definition get_text_strip (e : element) : str :=
  concat (List.filter (fun s => negb (is_empty s))
            (List.map strip (flat_map all_strings (e_children e)))).

(** [tag.has_attr('class')] *)
Definition has_class (e : element) : bool :=
  match e_class e with Some _ => true | None => false end.

(** How [find] matches [class_=target]: one of the tokens is the target,
    or the tokens joined by a space are. *)
Definition class_matches (target : str) (cls : option (list str)) : bool :=
  match cls with
  | None => false
  | Some tokens =>
      existsb (fun t => str_eqb t target) tokens
      || str_eqb (join (lit " ") tokens) target
  end.

(** [soup.find_all(name)] *)
Definition find_all (name : str) (soup : list node) : list element :=
  List.filter (fun e => str_eqb (e_name e) name) (soup_tags soup).

(** [soup.find('span', class_='title')] *)
Definition find_title_span (soup : list node) : option element :=
  List.find (fun e => str_eqb (e_name e) (lit "span")
                      && class_matches (lit "title") (e_class e))
            (soup_tags soup).

(** [soup.find('a', id='pt_next', class_='Readpage_up')] *)
Definition find_next_link (soup : list node) : option element :=
  List.find (fun e => str_eqb (e_name e) (lit "a")
                      && bool_decide (e_attrs e !! lit "id" = Some (lit "pt_next"))
                      && class_matches (lit "Readpage_up") (e_class e))
            (soup_tags soup).

(** ** extract_relevant_paragraphs *)

Definition excluded_sections : list str :=
  [lit "header"; lit "footer"; lit "nav"; lit "aside"].

(** The loop of lines 66 to 69 over [p_tag.parents], with its [break]. *)
Fixpoint is_in_excluded_section (parents : list str) : bool :=
  match parents with
  | [] => false
  | name :: rest =>
      if bool_decide (name ∈ excluded_sections) then true
      else is_in_excluded_section rest
  end.

(** The body of the loop of line 61, on the list built so far. *)
Definition paragraph_step (paragraphs_text : list str) (p_tag : element)
  : list str :=
  if has_class p_tag then paragraphs_text
  else if is_in_excluded_section (e_parents p_tag) then paragraphs_text
  else
    let text := get_text_strip p_tag in
    if negb (is_empty text) then paragraphs_text ++ [text]
    else paragraphs_text.

Definition extract_relevant_paragraphs (soup : list node) : list str :=
  fold_left paragraph_step (find_all (lit "p") soup) [].

(** ** The world of a crawl *)

(** Why a fetch did not give a document: the request timed out, another
    [RequestException] was raised (no connection, a bad status reported by
    [raise_for_status], or another one), or any other exception was. *)
Inductive failure :=
| TimedOut
| ConnectionFailed
| BadStatus (code : N)
| OtherRequestError
| OtherError.

Inductive response :=
| Failed (f : failure)
| Parsed (soup : list node).

(** The exceptions that [requests.get] and the two lines after
    [raise_for_status] can raise, by the handler that catches them:
    [requests.exceptions.Timeout], [ConnectionError], any other
    [RequestException], any other [Exception]. *)
Inductive raised :=
| RaisedTimeout
| RaisedConnectionError
| RaisedRequestException
| RaisedException.

(** What the network gives for a request: an exception, or a response with
    its status code and the document that its text parses to. *)
Inductive http_reply :=
| NoReply (r : raised)
| Reply (status : N) (soup : list node).

(** An exception that no handler of the program catches, by the call that
    raises it: [open] called without a file name ([TypeError]), [open]
    raising something else than an [IOError] ([ValueError] for a name that
    holds a NUL character), [f.write] raising [UnicodeEncodeError] (a lone
    surrogate in the text), [urljoin] raising [ValueError]. *)
Inductive crash :=
| OpenWithoutName
| OpenRaised
| WriteRaised
| UrljoinRaised.

(** What the file system and the codec do to the [with open] block of a
    page.  [OpenFails]: [open] raises an [IOError].  [OpenRaises]: [open]
    raises an exception that is not an [IOError].  [WriteFails calls bytes]:
    an [IOError] comes while the buffered file is written out, in the call
    to [f.write] after [calls] good ones or, when the block has no such
    call, when the file is closed; [bytes] bytes of what was handed to
    [f.write] until then have reached the file.  [WriteRaises calls]: the
    call to [f.write] after [calls] good ones raises an exception that is
    not an [IOError]; what the calls before it wrote reaches the file when
    the [with] statement closes it. *)
Inductive io_fault :=
| NoFault
| OpenFails
| OpenRaises
| WriteFails (calls bytes : nat)
| WriteRaises (calls : nat).

(** The replies and faults are indexed by the number of the iteration.
    The console is taken to accept every message. *)
Record world := World {
  reply : nat -> str -> http_reply;
  fault : nat -> io_fault
}.

Definition failure_of (r : raised) : failure :=
  match r with
  | RaisedTimeout => TimedOut
  | RaisedConnectionError => ConnectionFailed
  | RaisedRequestException => OtherRequestError
  | RaisedException => OtherError
  end.

(** [response.raise_for_status()] raises an [HTTPError], which is a
    [RequestException], for the statuses 400 to 599 and for no other. *)
Definition raises_for_status (status : N) : bool :=
  (400 <=? status) && (status <? 600).

(** Lines 92 to 95 with their handlers: the failure that ends the crawl, or
    the document. *)
Definition fetch (w : world) (n : nat) (url : str) : response :=
  match reply w n url with
  | NoReply r => Failed (failure_of r)
  | Reply status soup =>
      if raises_for_status status then Failed (BadStatus status)
      else Parsed soup
  end.

Inductive file_mode := ModeW | ModeA.

(** One constructor for each [print] of the program. *)
Inductive message :=
| MsgProcessing (url : str)
| MsgTimeout (url : str)
| MsgRequestError (url : str) (f : failure)
| MsgPageError (url : str) (f : failure)
| MsgFilename (name : str)
| MsgAdded (count : nat) (name : str)
| MsgCreatedEmpty (name : str)
| MsgWriteError (name : str)
| MsgNothingToAdd (url : str)
| MsgNoLink
| MsgNoHref
| MsgFoundHref (href : str)
| MsgLastPage
| MsgSameUrl (new_url href : str)
| MsgWaiting
| MsgDone (name : str)
| MsgNoFile
| MsgNotStarted.

(** The calls the program makes to the outside, in the order it makes them.
    [Uncaught] is an exception that no handler of the program catches: it
    ends the function there and then. *)
Inductive event :=
| Print (m : message)
| Get (url : str)
| Open (name : str) (mode : file_mode)
| Write (name : str) (chunk : str)
| Sleep
| Uncaught (c : crash).

(** The variables of [crawl_and_save_all_pages], the files, the number of
    iterations begun and the trace. *)
Record state := State {
  current_url : option str;
  output_filename : option str;
  first_page_processed : bool;
  files : gmap str str;
  iteration : nat;
  trace : list event
}.

Definition emit (es : list event) (st : state) : state :=
  State (current_url st) (output_filename st) (first_page_processed st)
        (files st) (iteration st) (trace st ++ es).

Definition set_current_url (u : option str) (st : state) : state :=
  State u (output_filename st) (first_page_processed st)
        (files st) (iteration st) (trace st).

Definition set_files (fs : gmap str str) (st : state) : state :=
  State (current_url st) (output_filename st) (first_page_processed st)
        fs (iteration st) (trace st).

(** Truth value of a variable that holds [None] or a string. *)
Definition truthy (v : option str) : bool :=
  match v with
  | Some (_ :: _) => true
  | _ => false
  end.

(** [open(name, mode)]: mode w empties or creates the file, mode a creates
    it when it is missing. *)
Definition open_file (name : str) (mode : file_mode) (fs : gmap str str)
  : gmap str str :=
  match mode with
  | ModeW => <[name := []]> fs
  | ModeA => match fs !! name with
             | Some _ => fs
             | None => <[name := []]> fs
             end
  end.

(** [f.write(chunk)] *)
Definition write_file (name : str) (fs : gmap str str) (chunk : str)
  : gmap str str :=
  <[name := default [] (fs !! name) ++ chunk]> fs.

(** The calls of the loop of lines 127 to 130: [i] is the index of the
    first paragraph of [paragraphs], [len] the length of the whole list. *)
Fixpoint paragraph_writes (len : Z) (i : Z) (paragraphs : list str)
  : list str :=
  match paragraphs with
  | [] => []
  | text_content :: rest =>
      text_content
      :: (if (i <? len - 1)%Z then [newlines] else [])
      ++ paragraph_writes len (i + 1)%Z rest
  end.

(** The strings given to [f.write] inside the [with] block, lines 124 to
    130. *)
Definition page_writes (mode : file_mode) (paragraphs : list str)
  : list str :=
  (match mode, paragraphs with
   | ModeA, _ :: _ => [newlines]
   | _, _ => []
   end)
  ++ paragraph_writes (Z.of_nat (length paragraphs)) 0%Z paragraphs.

(** The UTF-8 encoding of a character. *)
Definition utf8_bytes (c : N) : list N :=
  if c <? 128 then [c]
  else if c <? 2048 then [192 + c / 64; 128 + c mod 64]
  else if c <? 65536
       then [224 + c / 4096; 128 + (c / 64) mod 64; 128 + c mod 64]
       else [240 + c / 262144; 128 + (c / 4096) mod 64;
             128 + (c / 64) mod 64; 128 + c mod 64].

(** The files of the model hold text: what reading the file back as UTF-8
    gives.  A byte that is not part of a whole character, at the place
    where a write was cut, is shown as the error handler [surrogateescape]
    of Python shows it. *)
Definition escaped_byte (b : N) : N := 56320 + b.

(** The text of a file that holds the first [bytes] bytes of the encoding
    of [text]. *)
Fixpoint cut (bytes : nat) (text : str) : str :=
  match text with
  | [] => []
  | c :: rest =>
      let encoded := utf8_bytes c in
      if (length encoded <=? bytes)%nat
      then c :: cut (bytes - length encoded) rest
      else List.map escaped_byte (take bytes encoded)
  end.

(** How a [with open] block ends: at its end, in the handler of
    [IOError], or by an exception that the handler does not catch. *)
Inductive block_result :=
| BlockDone
| BlockIOError
| BlockEscapes (c : crash).

(** The [with open] block under a fault: the calls made, the files after
    them, and how the block ends. *)
Definition run_with_open (flt : io_fault) (name : str) (mode : file_mode)
    (chunks : list str) (fs : gmap str str)
  : list event * gmap str str * block_result :=
  match flt with
  | NoFault =>
      (Open name mode :: List.map (Write name) chunks,
       fold_left (write_file name) chunks (open_file name mode fs),
       BlockDone)
  | OpenFails => ([Open name mode], fs, BlockIOError)
  | OpenRaises => ([Open name mode], fs, BlockEscapes OpenRaised)
  | WriteFails calls bytes =>
      (Open name mode :: List.map (Write name) (take (S calls) chunks),
       write_file name (open_file name mode fs)
                  (cut bytes (concat (take (S calls) chunks))),
       BlockIOError)
  | WriteRaises calls =>
      if (calls <? length chunks)%nat
      then (Open name mode :: List.map (Write name) (take (S calls) chunks),
            fold_left (write_file name) (take calls chunks)
                      (open_file name mode fs),
            BlockEscapes WriteRaised)
      else (Open name mode :: List.map (Write name) chunks,
            fold_left (write_file name) chunks (open_file name mode fs),
            BlockDone)
  end.

Definition is_empty_list (l : list str) : bool :=
  match l with [] => true | _ => false end.

Definition mode_is_w (mode : file_mode) : bool :=
  match mode with ModeW => true | ModeA => false end.

(** An exception that is not caught: the trace records it and the cursor
    is cleared, so that the loop makes no further turn. *)
Definition escape (c : crash) (st : state) : state :=
  set_current_url None (emit [Uncaught c] st).

(** Lines 121 to 142.  The result tells whether the iteration goes on to
    the next page link ([false] after the [continue] of line 140 and after
    an exception that is not caught). *)
Definition write_page (flt : io_fault) (url : str) (mode : file_mode)
    (paragraphs : list str) (st : state) : state * bool :=
  if negb (is_empty_list paragraphs) || mode_is_w mode then
    match output_filename st with
    | None => (escape OpenWithoutName st, false)
    | Some name =>
        let '(calls, fs, result) :=
          run_with_open flt name mode (page_writes mode paragraphs) (files st) in
        let st := set_files fs (emit calls st) in
        match result with
        | BlockDone =>
            (match paragraphs with
             | _ :: _ => emit [Print (MsgAdded (length paragraphs) name)] st
             | [] => match mode with
                     | ModeW => emit [Print (MsgCreatedEmpty name)] st
                     | ModeA => st
                     end
             end, true)
        | BlockIOError =>
            (set_current_url None (emit [Print (MsgWriteError name)] st),
             false)
        | BlockEscapes c => (escape c st, false)
        end
    end
  else
    match mode with
    | ModeA => (emit [Print (MsgNothingToAdd url)] st, true)
    | ModeW => (st, true)
    end.

(** The handlers of lines 97 to 108. *)
Definition failure_message (url : str) (f : failure) : message :=
  match f with
  | TimedOut => MsgTimeout url
  | ConnectionFailed | BadStatus _ | OtherRequestError => MsgRequestError url f
  | OtherError => MsgPageError url f
  end.

Definition sentinel_href : str := lit "javascript:void(0);".

(** What lines 144 to 164 find out about the next page. *)
Inductive pagination :=
| NoLink
| NoHref
| LastPage (href : str)
| NextHref (href : str).

(** What lines 144 to 166 give: no next page, the URL of line 166, or the
    exception that [urljoin] raises there. *)
Inductive resolution :=
| NoNext
| Next (new_url : str)
| ResolutionRaises.

(** An exception has escaped. *)
Definition has_crashed (tr : list event) : bool :=
  existsb (fun e => match e with Uncaught _ => true | _ => false end) tr.

(** ** Sample documents and worlds *)

Definition url_one : str := lit "http://site/1".
Definition url_two : str := lit "http://site/2".

(** Stand-ins for the two functions of the runtime, good for the samples:
    characters above ASCII are kept as they are; a reference that opens the
    bracket of an IPv6 host without closing it raises, as [urljoin] does on
    it, an absolute reference is kept and any other is appended to the
    base. *)
Definition sample_lower (s : str) (i : nat) : str :=
  match s !! i with Some c => [c] | None => [] end.

Definition sample_urljoin (base href : str) : option str :=
  if starts_with (lit "//[") href && negb (str_contains (lit "]") href)
  then None
  else if starts_with (lit "http") href then Some href
       else Some (base ++ href).

Definition sample_link_attrs (href : str) : gmap str str :=
  {[ lit "id" := lit "pt_next"; lit "href" := href ]}.

Definition link_to (href : str) : node :=
  Tag (lit "a") (Some [lit "Readpage_up"]) (sample_link_attrs href) [].

Definition sample_title : str :=
  lit "Chapter" ++ [nbsp; nbsp] ++ lit "My Title".

Definition page_one : list node :=
  [Tag (lit "div") None ∅
     [Tag (lit "span") (Some [lit "title"]) ∅ [NavigableString sample_title];
      Tag (lit "nav") None ∅
        [Tag (lit "p") None ∅ [NavigableString (lit "menu")]];
      Tag (lit "p") None ∅ [NavigableString (lit " first ")];
      Tag (lit "p") (Some []) ∅ [NavigableString (lit "note")];
      Tag (lit "p") None ∅ [NavigableString (lit "second")];
      link_to (lit " http://site/2 ")]].

Definition page_two : list node :=
  [Tag (lit "p") None ∅ [NavigableString (lit "third")];
   link_to (lit "JavaScript:Void(0);")].

(** A first page without any paragraph that counts. *)
Definition page_blank : list node :=
  [Tag (lit "p") None ∅ [NavigableString (lit "  ")];
   link_to (lit "http://site/2")].

(** A page whose next link is its own address. *)
Definition page_self : list node := [link_to url_one].

Definition sample_title_span : element :=
  Element (lit "span") (Some [lit "title"]) ∅ [NavigableString sample_title]
          [lit "div"; document_name].

Definition sample_next_link : element :=
  Element (lit "a") (Some [lit "Readpage_up"])
          (sample_link_attrs (lit " http://site/2 ")) []
          [lit "div"; document_name].

Definition serve (first : list node) : nat -> str -> http_reply :=
  fun _ url =>
    if str_eqb url url_one then Reply 200 first
    else if str_eqb url url_two then Reply 200 page_two
    else Reply 404 [].

Definition sample_world : world := World (serve page_one) (fun _ => NoFault).
Definition blank_world : world := World (serve page_blank) (fun _ => NoFault).
Definition self_world : world := World (serve page_self) (fun _ => NoFault).
Definition down_world : world :=
  World (fun _ _ => NoReply RaisedTimeout) (fun _ => NoFault).

(** A page that links back to the first address. *)
Definition page_back : list node :=
  [Tag (lit "p") None ∅ [NavigableString (lit "again")]; link_to url_one].

(** Two pages that link to each other, and a world in which no file can
    be opened. *)
Definition cycle_world : world :=
  World (fun _ url => if str_eqb url url_one then Reply 200 page_one
                      else Reply 200 page_back)
        (fun _ => NoFault).

Definition locked_world : world := World (serve page_one) (fun _ => OpenFails).

(** A world in which [open] raises an exception that is not an [IOError],
    and one in which the disk is full after three bytes of the first call
    to [f.write]. *)
Definition jammed_world : world := World (serve page_one) (fun _ => OpenRaises).
Definition full_world : world :=
  World (serve page_one) (fun _ => WriteFails 0 3).

(** A page whose next link [urljoin] cannot parse. *)
Definition page_broken : list node :=
  [Tag (lit "p") None ∅ [NavigableString (lit "only")]; link_to (lit "//[")].

Definition broken_world : world :=
  World (serve page_broken) (fun _ => NoFault).

(** A world that answers the first address with the status 300 and a
    document. *)
Definition choice_world : world :=
  World (fun _ url => if str_eqb url url_one then Reply 300 page_one
                      else if str_eqb url url_two then Reply 200 page_two
                      else Reply 404 [])
        (fun _ => NoFault).

Definition sample_nav_paragraph : element :=
  Element (lit "p") None ∅ [NavigableString (lit "menu")]
          [lit "nav"; lit "div"; document_name].

Definition sample_files : gmap str str := {[ lit "notes.txt" := lit "kept" ]}.

Section Runtime.

(** The case mapping of the code points above ASCII comes from the Unicode
    tables of the Python runtime: [unicode_lower s i] is what [str.lower]
    puts for the character at index [i] of [s] (one code point or several,
    and dependent on the context for the Greek sigma). *)
Variable unicode_lower : str -> nat -> str.

(** [urllib.parse.urljoin]: the URL, or [None] when it raises
    [ValueError], as it does on a reference that it cannot split. *)
Variable urljoin : str -> str -> option str.

(** [s.lower()] *)
Definition lower (s : str) : str :=
  concat (imap (fun i c => if c <? 128 then [ascii_lower c]
                           else unicode_lower s i) s).

(** ** sanitize_filename *)

(** The transforms of lines 16 to 19, before the final test. *)
Definition sanitize_transform (filename : str) : str :=
  let filename := strip filename in
  let filename := re_sub_spaces filename in
  let filename := re_sub_forbidden filename in
  take 200 filename.

Definition sanitize_filename (filename : str) : str :=
  if is_empty filename then untitled
  else
    let filename := sanitize_transform filename in
    if is_empty filename
       || str_eqb (strip_chars dot filename) []
       || str_eqb (lower filename) untitled
    then untitled
    else filename.

(** ** extract_title_for_filename *)

Definition separator : str := [nbsp; nbsp].

Definition extract_title_for_filename (soup : list node) : str :=
  let output_filename_base :=
    match find_title_span soup with
    | Some title_span =>
        let raw_title_text := get_text title_span in
        if str_contains separator raw_title_text then
          match split_once separator raw_title_text !! 1%nat with
          | Some filename_candidate =>
              let cleaned_candidate := strip filename_candidate in
              if negb (is_empty cleaned_candidate) then cleaned_candidate
              else untitled
          | None => untitled (* except IndexError: pass *)
          end
        else untitled
    | None => untitled
    end in
  sanitize_filename output_filename_base.

(** ** The next page link *)

Definition find_next_href (soup : list node) : pagination :=
  match find_next_link soup with
  | None => NoLink
  | Some next_page_link_tag =>
      match e_attrs next_page_link_tag !! lit "href" with
      | None => NoHref
      | Some next_href =>
          if is_empty next_href || is_empty (strip next_href) then NoHref
          else
            let next_href := strip next_href in
            if str_eqb (lower next_href) sentinel_href then LastPage next_href
            else NextHref next_href
      end
  end.

(** Lines 144 to 166: the URL of line 166, when the iteration gets there
    and [urljoin] gives one. *)
Definition resolve_next (current : str) (soup : list node) : resolution :=
  match find_next_href soup with
  | NextHref next_href =>
      match urljoin current next_href with
      | Some new_url => Next new_url
      | None => ResolutionRaises
      end
  | _ => NoNext
  end.

(** Lines 144 to 176. *)
Definition follow_next_link (url : str) (soup : list node) (st : state)
  : state :=
  match find_next_href soup with
  | NoLink => set_current_url None (emit [Print MsgNoLink] st)
  | NoHref => set_current_url None (emit [Print MsgNoHref] st)
  | LastPage next_href =>
      set_current_url None
        (emit [Print (MsgFoundHref next_href); Print MsgLastPage] st)
  | NextHref next_href =>
      let st := emit [Print (MsgFoundHref next_href)] st in
      match urljoin url next_href with
      | None => escape UrljoinRaised st
      | Some new_url =>
          let st :=
            if str_eqb new_url url
            then set_current_url None
                   (emit [Print (MsgSameUrl new_url next_href)] st)
            else set_current_url (Some new_url) st in
          if truthy (current_url st) then emit [Print MsgWaiting; Sleep] st
          else st
      end
  end.

(** Lines 110 to 117: the file name and the mode of this page. *)
Definition choose_file (soup : list node) (st : state) : state * file_mode :=
  if negb (first_page_processed st) then
    let filename_base := extract_title_for_filename soup in
    let name := filename_base ++ lit ".txt" in
    (emit [Print (MsgFilename name)]
       (State (current_url st) (Some name) true
              (files st) (iteration st) (trace st)),
     ModeW)
  else (st, ModeA).

(** ** crawl_and_save_all_pages *)

(** Lines 87 to 92: the turn is announced and the page requested. *)
Definition fetched (url : str) (st : state) : state :=
  State (current_url st) (output_filename st) (first_page_processed st)
        (files st) (S (iteration st))
        (trace st ++ [Print (MsgProcessing url); Get url]).

(** One turn of the [while] loop, lines 87 to 176. *)
Definition step (w : world) (st : state) : state :=
  match current_url st with
  | None => st
  | Some url =>
      let n := iteration st in
      let st := fetched url st in
      match fetch w n url with
      | Failed f =>
          set_current_url None (emit [Print (failure_message url f)] st)
      | Parsed soup =>
          let '(st, mode) := choose_file soup st in
          let paragraphs := extract_relevant_paragraphs soup in
          let '(st, goes_on) := write_page (fault w n) url mode paragraphs st in
          if goes_on then follow_next_link url soup st else st
      end
  end.

(** The [while current_url] loop, for at most [fuel] turns. *)
Fixpoint crawl_loop (fuel : nat) (w : world) (st : state) : state :=
  match fuel with
  | O => st
  | S fuel' =>
      if truthy (current_url st) then crawl_loop fuel' w (step w st)
      else st
  end.

Definition initial_state (fs : gmap str str) (initial_url : str) : state :=
  State (Some initial_url) None false fs 0%nat [].

(** Lines 178 to 183. *)
Definition summary (initial_url : str) (st : state) : message :=
  match output_filename st with
  | Some (c :: name) => MsgDone (c :: name)
  | _ => if negb (is_empty initial_url) then MsgNoFile else MsgNotStarted
  end.

(** The whole function: the state it ends in, or [None] when the loop has
    not ended within [fuel] turns.  After an exception that is not caught
    the closing message is not printed. *)
Definition crawl_and_save_all_pages (fuel : nat) (w : world)
    (fs : gmap str str) (initial_url : str) : option state :=
  let st := crawl_loop fuel w (initial_state fs initial_url) in
  if truthy (current_url st) then None
  else if has_crashed (trace st) then Some st
  else Some (emit [Print (summary initial_url st)] st).

(** ** The vocabulary of the specification *)

(** Equality of two strings up to the case of their letters. *)
Definition same_ignoring_case (a b : str) : Prop := lower a = lower b.

(** A paragraph that counts: no [class] attribute, no ancestor among the
    excluded sections, and a text that is not empty. *)
Definition relevant (e : element) : Prop :=
  e_class e = None /\
  Forall (fun name => name ∉ excluded_sections) (e_parents e) /\
  get_text_strip e <> [].

#[local] Instance relevant_dec (e : element) : Decision (relevant e).
Proof. unfold relevant. apply _. Defined.

Definition is_paragraph (e : element) : Prop := e_name e = lit "p".

(** The strings of [l] with [sep] between each two of them. *)
Fixpoint intersperse (sep : str) (l : list str) : list str :=
  match l with
  | [] => []
  | [x] => [x]
  | x :: rest => x :: sep :: intersperse sep rest
  end.

(** [e] is the first element of [l] that satisfies [P]. *)
Definition first_such (P : element -> Prop) (l : list element) (e : element)
  : Prop :=
  exists before after,
    l = before ++ e :: after /\ P e /\ Forall (fun x => ~ P x) before.

(** An element whose class includes [token]. *)
Definition class_includes (token : str) (e : element) : Prop :=
  exists tokens, e_class e = Some tokens /\ token ∈ tokens.

(** The anchor the site uses for the next page. *)
Definition is_next_link (e : element) : Prop :=
  e_name e = lit "a" /\
  e_attrs e !! lit "id" = Some (lit "pt_next") /\
  class_includes (lit "Readpage_up") e.

(** The span that holds the title. *)
Definition is_title_span (e : element) : Prop :=
  e_name e = lit "span" /\ class_includes (lit "title") e.

(** [sep] occurs in [text]. *)
Definition occurs (sep text : str) : Prop :=
  exists before after, text = before ++ sep ++ after.

(** [text] is [before], then the first occurrence of [sep], then [after]. *)
Definition first_occurrence (sep text before after : str) : Prop :=
  text = before ++ sep ++ after /\
  forall b a, text = b ++ sep ++ a -> (length before <= length b)%nat.

(** The URLs fetched and the files opened, in order. *)
Definition gets (tr : list event) : list str :=
  omap (fun e => match e with Get url => Some url | _ => None end) tr.

Definition opens (tr : list event) : list (str * file_mode) :=
  omap (fun e => match e with Open name mode => Some (name, mode) | _ => None end)
       tr.


(** No two neighbours of [l] are equal. *)
Definition no_consecutive_repeat (l : list str) : Prop :=
  forall (i : nat) u v, l !! i = Some u -> l !! S i = Some v -> u <> v.

(** The file name and the mode of the page of a turn. *)
Definition page_name (soup : list node) (st : state) : option str :=
  if first_page_processed st then output_filename st
  else Some (extract_title_for_filename soup ++ lit ".txt").

Definition page_mode (st : state) : file_mode :=
  if first_page_processed st then ModeA else ModeW.

(** The state of the output file during a crawl whose first page gave the
    name [name]: the name is fixed, the first call to [open] is in mode w,
    all later ones are in mode a, all on that name, and the file exists
    when [created] holds. *)
Definition file_fixed (name : str) (created : Prop) (st : state) : Prop :=
  output_filename st = Some name /\
  first_page_processed st = true /\
  (exists n, opens (trace st) = (name, ModeW) :: repeat (name, ModeA) n) /\
  (created -> is_Some (files st !! name)).

(** The output file named [name] exists and its content satisfies [P]. *)
Definition content_is (name : str) (P : str -> Prop) (st : state) : Prop :=
  output_filename st = Some name /\
  first_page_processed st = true /\
  exists c, files st !! name = Some c /\ P c.

Definition empty_or_separated (c : str) : Prop :=
  c = [] \/ starts_with newlines c = true.

Definition separated (c : str) : Prop := starts_with newlines c = true.

(** ** Further vocabulary *)

(** A string that [sanitize_filename] has nothing to do on. *)
Definition clean (s : str) : Prop :=
  s <> [] /\
  Forall (fun c => isspace c = false) s /\
  Forall (fun c => is_forbidden c = false) s /\
  (length s <= 200)%nat /\
  ~ Forall (fun c => c = 46) s /\
  ~ same_ignoring_case s untitled.

(** A string that is not empty and neither begins nor ends with
    whitespace. *)
Definition trimmed (s : str) : Prop :=
  (exists c t, s = c :: t /\ isspace c = false) /\
  (exists t c, s = t ++ [c] /\ isspace c = false).

(** The pauses of a trace. *)
Definition sleeps (tr : list event) : list unit :=
  omap (fun e => match e with Sleep => Some tt | _ => None end) tr.

(** What a page after the first adds to the output file. *)
Definition later_page_text (paragraphs : list str) : str :=
  match paragraphs with
  | [] => []
  | _ :: _ => newlines ++ join newlines paragraphs
  end.

(** ** The script, lines 186 to 191 *)

(** What the script does with the line typed at the prompt: the message
    that no valid URL was entered, or a crawl. *)
Inductive main_outcome :=
| InvalidUrl
| Crawled (result : option state).

Definition main (fuel : nat) (w : world) (fs : gmap str str)
    (initial_target_url : str) : main_outcome :=
  if negb (is_empty initial_target_url)
     && negb (is_empty (strip initial_target_url))
  then Crawled (crawl_and_save_all_pages fuel w fs (strip initial_target_url))
  else InvalidUrl.

(** The text that the page of a turn adds to what [open] left in the file:
    the first page writes its paragraphs joined, a later one puts the
    separator before them. *)
Definition page_text (mode : file_mode) (paragraphs : list str) : str :=
  match mode with
  | ModeW => join newlines paragraphs
  | ModeA => later_page_text paragraphs
  end.

(** The link of a page ends the crawl: there is none, or it resolves to
    the address of the page itself or to the empty string. *)
Definition stops (url : str) (soup : list node) : Prop :=
  match resolve_next url soup with
  | NoNext => True
  | Next next => next = url \/ next = []
  | ResolutionRaises => False
  end.

(** The pages of a series as the world serves them from turn [n] on,
    without any fault: each page links to the next and the last one ends
    the crawl. *)
Fixpoint chain (w : world) (n : nat) (pages : list (str * list node))
  : Prop :=
  match pages with
  | [] => True
  | (url, soup) :: rest =>
      url <> [] /\
      fetch w n url = Parsed soup /\
      fault w n = NoFault /\
      match rest with
      | [] => stops url soup
      | (next, _) :: _ => resolve_next url soup = Next next /\ next <> url
      end /\
      chain w (S n) rest
  end.

(** The text of the later pages of a series, one after the other. *)
Definition later_pages_text (pages : list (str * list node)) : str :=
  concat (List.map (fun page => later_page_text
                                  (extract_relevant_paragraphs page.2))
                   pages).

(** The text of a series. *)
Definition book_text (pages : list (str * list node)) : str :=
  match pages with
  | [] => []
  | (_, soup) :: rest =>
      join newlines (extract_relevant_paragraphs soup)
      ++ later_pages_text rest
  end.

(** The two variables agree: a file name is set exactly when the first
    page has been processed. *)
Definition flags_agree (st : state) : Prop :=
  (first_page_processed st = true -> is_Some (output_filename st)) /\
  (first_page_processed st = false -> output_filename st = None).

(** The files that are not the output file stay as they were. *)
Definition others_kept (fs : gmap str str) (st : state) : Prop :=
  flags_agree st /\
  (output_filename st = None -> files st = fs) /\
  (forall name other,
      output_filename st = Some name -> other <> name ->
      files st !! other = fs !! other).

(** The file name comes from the title of some document. *)
Definition named_by_title (st : state) : Prop :=
  flags_agree st /\
  forall name,
    output_filename st = Some name ->
    exists soup, name = extract_title_for_filename soup ++ lit ".txt".

(** Fetches, pauses and turns so far. *)
Definition paced (initial_url : str) (st : state) : Prop :=
  length (gets (trace st)) = iteration st /\
  if truthy (current_url st)
  then length (sleeps (trace st)) = length (gets (trace st))
  else S (length (sleeps (trace st))) = length (gets (trace st))
       \/ (current_url st = Some initial_url /\ iteration st = 0%nat).

(** ** Projections of the trace *)

(** A projection that sees neither the messages, nor the calls to
    [f.write], nor the exceptions. *)
Definition quiet {A : Type} (f : event -> option A) : Prop :=
  (forall m, f (Print m) = None) /\
  (forall name chunk, f (Write name chunk) = None) /\
  (forall c, f (Uncaught c) = None).

(** The requests and the pauses of a trace, in order: [Some url] for a
    request, [None] for a pause. *)
Definition rhythm (tr : list event) : list (option str) :=
  omap (fun e => match e with
                 | Get url => Some (Some url)
                 | Sleep => Some None
                 | _ => None
                 end) tr.

(** The requests of a list with one pause between each two of them. *)
Fixpoint with_pauses (urls : list str) : list (option str) :=
  match urls with
  | [] => []
  | [url] => [Some url]
  | url :: rest => Some url :: None :: with_pauses rest
  end.

(** The file of a page is written: the page is the first or has
    paragraphs (line 121). *)
Definition is_written (mode : file_mode) (paragraphs : list str) : bool :=
  negb (is_empty_list paragraphs) || mode_is_w mode.

(** The state of a turn after lines 110 to 117, and after lines 119 to
    142 with the sign that the turn goes on. *)
Definition chosen (url : str) (soup : list node) (st : state)
  : state * file_mode :=
  choose_file soup (fetched url st).

Definition written (w : world) (url : str) (soup : list node) (st : state)
  : state * bool :=
  write_page (fault w (iteration st)) url (chosen url soup st).2
             (extract_relevant_paragraphs soup) (chosen url soup st).1.

(** The exception of [open] called without a file name. *)
Definition is_open_without_name (e : event) : bool :=
  match e with
  | Uncaught OpenWithoutName => true
  | _ => false
  end.

(** A crawl that has met an exception stopped on it. *)
Definition stopped_on_crash (st : state) : Prop :=
  has_crashed (trace st) = true ->
  (exists c, last (trace st) = Some (Uncaught c)) /\ current_url st = None.

(** Each request of the list followed by a pause. *)
Definition all_paused (urls : list str) : list (option str) :=
  flat_map (fun url => [Some url; None]) urls.

(** * Properties *)

(** ** Strings *)

Lemma str_eqb_eq (a b : str) : str_eqb a b = true <-> a = b.
Proof. unfold str_eqb. apply bool_decide_eq_true. Qed.

Lemma str_eqb_neq (a b : str) : str_eqb a b = false <-> a <> b.
Proof. unfold str_eqb. apply bool_decide_eq_false. Qed.

Lemma is_empty_true (s : str) : is_empty s = true <-> s = [].
Proof. destruct s; simpl; split; congruence. Qed.

Lemma is_empty_false (s : str) : is_empty s = false <-> s <> [].
Proof. destruct s; simpl; split; congruence. Qed.

Lemma drop_while_Forall (P : N -> Prop) p (s : str) :
  Forall P s -> Forall P (drop_while p s).
Proof.
  induction 1 as [|c t Hc Ht IH]; simpl; [constructor|].
  destruct (p c); [exact IH | constructor; assumption].
Qed.

Lemma drop_while_nil p (s : str) :
  drop_while p s = [] <-> Forall (fun c => p c = true) s.
Proof.
  induction s as [|c t IH]; simpl.
  - split; [constructor | reflexivity].
  - destruct (p c) eqn:E.
    + rewrite IH. split; [now constructor | now inversion 1].
    + split; [discriminate | inversion 1; congruence].
Qed.

Lemma drop_while_id p (s : str) :
  Forall (fun c => p c = false) s -> drop_while p s = s.
Proof. destruct 1 as [|c t Hc Ht]; simpl; [reflexivity | now rewrite Hc]. Qed.

(** What is left of a non-empty result of [drop_while] starts with a
    character outside [p]. *)
Lemma drop_while_head p (s : str) c t :
  drop_while p s = c :: t -> p c = false.
Proof.
  induction s as [|a s IH]; simpl; [discriminate|].
  destruct (p a) eqn:E; [exact IH | congruence].
Qed.

Lemma strip_by_Forall (P : N -> Prop) p (s : str) :
  Forall P s -> Forall P (strip_by p s).
Proof.
  intros H. unfold strip_by, rstrip_by, lstrip_by.
  apply Forall_rev, drop_while_Forall, Forall_rev, drop_while_Forall, H.
Qed.

Lemma strip_by_id p (s : str) :
  Forall (fun c => p c = false) s -> strip_by p s = s.
Proof.
  intros H. unfold strip_by, rstrip_by, lstrip_by.
  rewrite (drop_while_id p s H), drop_while_id, rev_involutive;
    [reflexivity | now apply Forall_rev].
Qed.

Lemma strip_by_nil p (s : str) :
  strip_by p s = [] <-> Forall (fun c => p c = true) s.
Proof.
  unfold strip_by, rstrip_by, lstrip_by. split.
  - intros H. apply drop_while_nil.
    destruct (drop_while p s) as [|c t] eqn:E; [reflexivity|].
    apply (f_equal (@rev N)) in H. rewrite rev_involutive in H.
    change (rev []) with (@nil N) in H.
    apply drop_while_nil, Forall_rev in H. rewrite rev_involutive in H.
    inversion H; subst. apply drop_while_head in E. congruence.
  - intros H. apply drop_while_nil in H. rewrite H. reflexivity.
Qed.

Lemma strip_twice (s : str) : strip (strip s) = strip s.
Proof.
  unfold strip, strip_by, rstrip_by, lstrip_by.
  destruct (drop_while isspace (rev (drop_while isspace s))) as [|c t] eqn:E;
    [reflexivity|].
  assert (Hc : isspace c = false) by (eapply drop_while_head; eauto).
  destruct (rev (c :: t)) as [|a r] eqn:Er.
  { apply (f_equal (@rev N)) in Er. rewrite rev_involutive in Er. discriminate. }
  assert (Ha : isspace a = false).
  { destruct (drop_while isspace s) as [|a' r'] eqn:Es; [discriminate|].
    pose proof (drop_while_head _ _ _ _ Es) as Ha'.
    assert (Hsuf : exists pre, rev (a' :: r') = pre ++ c :: t).
    { clear -E. generalize dependent (rev (a' :: r')). intros l.
      induction l as [|x l IH]; simpl; [discriminate|].
      destruct (isspace x).
      - intros H. destruct (IH H) as [pre ->]. now exists (x :: pre).
      - intros <-. now exists []. }
    destruct Hsuf as [pre Hpre].
    apply (f_equal (@rev N)) in Hpre. rewrite rev_involutive in Hpre.
    rewrite rev_app_distr, Er in Hpre. simpl in Hpre. congruence. }
  simpl drop_while at 2. rewrite Ha.
  rewrite <- Er, rev_involutive. simpl. rewrite Hc. reflexivity.
Qed.

Lemma forbidden_not_space c : is_forbidden c = true -> isspace c = false.
Proof.
  unfold is_forbidden, forbidden_chars. rewrite bool_decide_eq_true.
  rewrite !elem_of_cons, elem_of_nil.
  intros H; repeat (destruct H as [-> | H]; [reflexivity|]); contradiction.
Qed.

Lemma re_sub_spaces_from_no_space b (s : str) :
  Forall (fun c => isspace c = false) (re_sub_spaces_from b s).
Proof.
  revert b. induction s as [|c t IH]; intros b; simpl; [constructor|].
  destruct (isspace c) eqn:E.
  - destruct b; [apply IH | constructor; [reflexivity | apply IH]].
  - constructor; [exact E | apply IH].
Qed.

Lemma re_sub_spaces_from_id b (s : str) :
  Forall (fun c => isspace c = false) s -> re_sub_spaces_from b s = s.
Proof.
  intros H. revert b. induction H as [|c t Hc Ht IH]; intros b; simpl;
    [reflexivity|].
  rewrite Hc, IH. reflexivity.
Qed.

Lemma re_sub_forbidden_clean (s : str) :
  Forall (fun c => is_forbidden c = false) (re_sub_forbidden s).
Proof.
  unfold re_sub_forbidden. apply List.Forall_forall. intros c Hc.
  apply filter_In in Hc. destruct Hc as [_ Hc].
  now apply negb_true_iff in Hc.
Qed.

Lemma re_sub_forbidden_Forall (P : N -> Prop) (s : str) :
  Forall P s -> Forall P (re_sub_forbidden s).
Proof.
  unfold re_sub_forbidden. rewrite !List.Forall_forall. intros H c Hc.
  apply filter_In in Hc. now apply H.
Qed.

Lemma re_sub_forbidden_id (s : str) :
  Forall (fun c => is_forbidden c = false) s -> re_sub_forbidden s = s.
Proof.
  unfold re_sub_forbidden. induction 1 as [|c t Hc Ht IH]; simpl;
    [reflexivity|].
  rewrite Hc. simpl. now rewrite IH.
Qed.

Lemma re_sub_forbidden_all (s : str) :
  Forall (fun c => is_forbidden c = true) s -> re_sub_forbidden s = [].
Proof.
  unfold re_sub_forbidden. induction 1 as [|c t Hc Ht IH]; simpl;
    [reflexivity|].
  rewrite Hc. simpl. exact IH.
Qed.

(** ** sanitize_filename *)

Lemma sanitize_transform_length (s : str) :
  (length (sanitize_transform s) <= 200)%nat.
Proof. unfold sanitize_transform. rewrite length_take. lia. Qed.

Lemma sanitize_transform_clean (s : str) :
  Forall (fun c => is_forbidden c = false) (sanitize_transform s).
Proof. unfold sanitize_transform. apply Forall_take, re_sub_forbidden_clean. Qed.

Lemma sanitize_transform_no_space (s : str) :
  Forall (fun c => isspace c = false) (sanitize_transform s).
Proof.
  unfold sanitize_transform.
  apply Forall_take, re_sub_forbidden_Forall, re_sub_spaces_from_no_space.
Qed.

(** The transforms leave alone a string that they have produced. *)
Lemma sanitize_transform_fixed (s : str) :
  sanitize_transform (sanitize_transform s) = sanitize_transform s.
Proof.
  pose proof (sanitize_transform_length s) as Hlen.
  pose proof (sanitize_transform_clean s) as Hclean.
  pose proof (sanitize_transform_no_space s) as Hsp.
  set (t := sanitize_transform s) in *.
  unfold sanitize_transform at 1.
  unfold strip. rewrite strip_by_id by exact Hsp.
  unfold re_sub_spaces. rewrite re_sub_spaces_from_id by exact Hsp.
  rewrite re_sub_forbidden_id by exact Hclean.
  apply take_ge. exact Hlen.
Qed.

Lemma sanitize_untitled : sanitize_filename untitled = untitled.
Proof. reflexivity. Qed.

Lemma untitled_safe :
  (length untitled <= 200)%nat /\ Forall (fun c => c ∉ forbidden_chars) untitled.
Proof.
  split; [vm_compute; lia|].
  apply (bool_decide_unpack _). vm_compute. exact I.
Qed.

Lemma sanitize_cases (s : str) :
  sanitize_filename s = untitled \/
  (sanitize_filename s = sanitize_transform s /\
   sanitize_transform s <> [] /\
   strip_chars dot (sanitize_transform s) <> [] /\
   lower (sanitize_transform s) <> untitled).
Proof.
  unfold sanitize_filename.
  destruct (is_empty s); [now left|]. cbv zeta.
  destruct (is_empty (sanitize_transform s)) eqn:E1; [now left|].
  destruct (str_eqb (strip_chars dot (sanitize_transform s)) []) eqn:E2;
    [now left|].
  destruct (str_eqb (lower (sanitize_transform s)) untitled) eqn:E3;
    [now left|].
  right. simpl. repeat split.
  - now apply is_empty_false.
  - now apply str_eqb_neq.
  - now apply str_eqb_neq.
Qed.

(** C8.  The result of [sanitize_filename] has at most 200 characters and
    none of the characters that line 18 removes.  The empty string, a string
    of such characters only, and every string whose transformed form is
    empty, made of dots only, or equal to [untitled] up to case, give
    [untitled].  The function is total. *)
Theorem sanitize_filename_safe :
  (forall s : str,
      (length (sanitize_filename s) <= 200)%nat /\
      Forall (fun c => c ∉ forbidden_chars) (sanitize_filename s)) /\
  sanitize_filename [] = untitled /\
  (forall s : str,
      Forall (fun c => c ∈ forbidden_chars) s -> sanitize_filename s = untitled) /\
  (forall s : str,
      sanitize_transform s = [] \/
      Forall (fun c => c = 46) (sanitize_transform s) \/
      same_ignoring_case (sanitize_transform s) untitled ->
      sanitize_filename s = untitled).
Proof.
  split; [|split; [reflexivity | split]].
  - intros s. destruct (sanitize_cases s) as [-> | (-> & _)].
    + apply untitled_safe.
    + split; [apply sanitize_transform_length|].
      eapply Forall_impl; [apply sanitize_transform_clean|].
      intros c Hc. unfold is_forbidden in Hc.
      now apply bool_decide_eq_false in Hc.
  - intros s Hs.
    assert (Hf : Forall (fun c => is_forbidden c = true) s).
    { eapply Forall_impl; [exact Hs|]. intros c Hc.
      unfold is_forbidden. now apply bool_decide_eq_true. }
    assert (Hsp : Forall (fun c => isspace c = false) s).
    { eapply Forall_impl; [exact Hf|]. apply forbidden_not_space. }
    assert (Ht : sanitize_transform s = []).
    { unfold sanitize_transform, strip, re_sub_spaces.
      rewrite strip_by_id, re_sub_spaces_from_id by exact Hsp.
      now rewrite re_sub_forbidden_all. }
    unfold sanitize_filename. rewrite Ht. now destruct (is_empty s).
  - intros s H. unfold sanitize_filename.
    destruct (is_empty s); [reflexivity|]. cbv zeta.
    destruct H as [H | [H | H]].
    + rewrite H. reflexivity.
    + assert (E : str_eqb (strip_chars dot (sanitize_transform s)) [] = true).
      { apply str_eqb_eq. unfold strip_chars. apply strip_by_nil.
        eapply Forall_impl; [exact H|]. intros c ->. reflexivity. }
      rewrite E, orb_true_r. reflexivity.
    + assert (E : str_eqb (lower (sanitize_transform s)) untitled = true)
        by (apply str_eqb_eq; exact H).
      rewrite E, orb_true_r. reflexivity.
Qed.

(** C9.  [sanitize_filename] is idempotent. *)
Theorem sanitize_filename_idempotent (s : str) :
  sanitize_filename (sanitize_filename s) = sanitize_filename s.
Proof.
  destruct (sanitize_cases s) as [-> | (-> & Hne & Hdots & Hlow)].
  - apply sanitize_untitled.
  - unfold sanitize_filename.
    rewrite sanitize_transform_fixed.
    apply is_empty_false in Hne. apply str_eqb_neq in Hdots, Hlow.
    now rewrite Hne, Hdots, Hlow.
Qed.

(** ** extract_relevant_paragraphs *)

Lemma is_in_excluded_section_false (parents : list str) :
  is_in_excluded_section parents = false <->
  Forall (fun name => name ∉ excluded_sections) parents.
Proof.
  induction parents as [|name rest IH]; simpl.
  - split; [constructor | reflexivity].
  - destruct (bool_decide (name ∈ excluded_sections)) eqn:E.
    + apply bool_decide_eq_true in E. split; [discriminate|].
      inversion 1; contradiction.
    + apply bool_decide_eq_false in E. rewrite IH.
      split; [now constructor | now inversion 1].
Qed.

Lemma paragraph_step_spec (acc : list str) (e : element) :
  paragraph_step acc e =
  acc ++ (if decide (relevant e) then [get_text_strip e] else []).
Proof.
  unfold paragraph_step, has_class.
  destruct (decide (relevant e)) as [(Hc & Hp & Ht) | Hn].
  - rewrite Hc. apply is_in_excluded_section_false in Hp. rewrite Hp.
    apply is_empty_false in Ht. now rewrite Ht.
  - rewrite app_nil_r.
    destruct (e_class e) eqn:Hc; [reflexivity|].
    destruct (is_in_excluded_section (e_parents e)) eqn:Hp; [reflexivity|].
    destruct (is_empty (get_text_strip e)) eqn:Ht; [reflexivity|].
    exfalso. apply Hn. repeat split.
    + exact Hc.
    + now apply is_in_excluded_section_false.
    + now apply is_empty_false.
Qed.

Lemma paragraph_loop_spec (l : list element) (acc : list str) :
  fold_left paragraph_step l acc =
  acc ++ List.map get_text_strip (filter relevant l).
Proof.
  revert acc. induction l as [|e l IH]; intros acc; simpl.
  - now rewrite app_nil_r.
  - rewrite IH, paragraph_step_spec, filter_cons.
    destruct (decide (relevant e)); simpl.
    + now rewrite <- app_assoc.
    + now rewrite app_nil_r.
Qed.

Lemma find_all_filter (name : str) (soup : list node) :
  find_all name soup = filter (fun e => e_name e = name) (soup_tags soup).
Proof.
  unfold find_all. induction (soup_tags soup) as [|e l IH]; simpl;
    [reflexivity|].
  rewrite filter_cons, IH. unfold str_eqb.
  destruct (decide (e_name e = name)) as [H | H].
  - now rewrite bool_decide_eq_true_2.
  - now rewrite bool_decide_eq_false_2.
Qed.

(** C1.  The paragraph extractor returns, in document order, the texts of
    exactly those [p] elements of the document that have no [class]
    attribute, no ancestor named header, footer, nav or aside, and a text
    that is not empty once stripped. *)
Theorem extract_relevant_paragraphs_spec (soup : list node) :
  extract_relevant_paragraphs soup =
  List.map get_text_strip
    (filter (fun e => is_paragraph e /\ relevant e) (soup_tags soup)).
Proof.
  unfold extract_relevant_paragraphs.
  rewrite paragraph_loop_spec, find_all_filter. simpl. f_equal.
  unfold is_paragraph.
  induction (soup_tags soup) as [|e l IH]; [reflexivity|].
  rewrite !filter_cons.
  destruct (decide (e_name e = lit "p")) as [Hp | Hp].
  - rewrite filter_cons, IH.
    destruct (decide (relevant e)) as [Hr | Hr].
    + rewrite decide_True by tauto. reflexivity.
    + rewrite decide_False by tauto. reflexivity.
  - rewrite IH, decide_False by tauto. reflexivity.
Qed.

(** ** The writer *)

Lemma concat_intersperse (sep : str) (l : list str) :
  concat (intersperse sep l) = join sep l.
Proof.
  induction l as [|x [|y rest] IH]; simpl.
  - reflexivity.
  - apply app_nil_r.
  - simpl in IH. now rewrite IH.
Qed.

Lemma paragraph_writes_intersperse (paragraphs : list str) (i : Z) :
  paragraph_writes (i + Z.of_nat (length paragraphs)) i paragraphs =
  intersperse newlines paragraphs.
Proof.
  revert i. induction paragraphs as [|x rest IH]; intros i; [reflexivity|].
  cbn [paragraph_writes].
  replace (i + Z.of_nat (length (x :: rest)))%Z
    with ((i + 1) + Z.of_nat (length rest))%Z by (cbn [length]; lia).
  rewrite IH. destruct rest as [|y rest].
  - cbn [length]. rewrite (proj2 (Z.ltb_ge _ _)) by (simpl; lia). reflexivity.
  - rewrite (proj2 (Z.ltb_lt _ _)) by (cbn [length]; lia). reflexivity.
Qed.

Lemma page_writes_spec (mode : file_mode) (paragraphs : list str) :
  page_writes mode paragraphs =
  match mode, paragraphs with
  | ModeA, _ :: _ => newlines :: intersperse newlines paragraphs
  | _, _ => intersperse newlines paragraphs
  end.
Proof.
  unfold page_writes.
  pose proof (paragraph_writes_intersperse paragraphs 0) as H.
  rewrite Z.add_0_l in H. rewrite H.
  destruct mode, paragraphs; reflexivity.
Qed.

Lemma write_file_lookup (name : str) (fs : gmap str str) (chunks : list str)
    (old : str) :
  fs !! name = Some old ->
  fold_left (write_file name) chunks fs !! name = Some (old ++ concat chunks).
Proof.
  revert fs old. induction chunks as [|c rest IH]; intros fs old H; simpl.
  - now rewrite app_nil_r.
  - erewrite IH.
    + now rewrite <- app_assoc.
    + unfold write_file. rewrite H. simpl. apply lookup_insert_eq.
Qed.

Lemma write_file_other (name other : str) (fs : gmap str str)
    (chunks : list str) :
  other <> name ->
  fold_left (write_file name) chunks fs !! other = fs !! other.
Proof.
  intros Hne. revert fs. induction chunks as [|c rest IH]; intros fs; simpl;
    [reflexivity|].
  rewrite IH. unfold write_file. now apply lookup_insert_ne.
Qed.

Lemma open_file_lookup (name : str) (mode : file_mode) (fs : gmap str str) :
  open_file name mode fs !! name =
  Some (match mode with
        | ModeW => []
        | ModeA => default [] (fs !! name)
        end).
Proof.
  unfold open_file. destruct mode.
  - apply lookup_insert_eq.
  - destruct (fs !! name) eqn:E; simpl; [exact E | apply lookup_insert_eq].
Qed.




(** ** Searching the tree *)

Lemma find_none_such (f : element -> bool) (P : element -> Prop)
    (l : list element) :
  (forall e, f e = true <-> P e) ->
  List.find f l = None <-> Forall (fun x => ~ P x) l.
Proof.
  intros Hf. induction l as [|x l IH]; simpl.
  - split; [constructor | reflexivity].
  - destruct (f x) eqn:E.
    + split; [discriminate|]. inversion 1; subst.
      exfalso. now apply H2, Hf.
    + rewrite IH. split.
      * constructor; [|assumption]. rewrite <- Hf. congruence.
      * now inversion 1.
Qed.

Lemma find_first_such (f : element -> bool) (P : element -> Prop)
    (l : list element) (e : element) :
  (forall e, f e = true <-> P e) ->
  List.find f l = Some e <-> first_such P l e.
Proof.
  intros Hf. split.
  - induction l as [|x l IH]; simpl; [discriminate|].
    destruct (f x) eqn:E.
    + intros [= ->]. exists [], l. repeat split; [now apply Hf | constructor].
    + intros H. destruct (IH H) as (before & after & -> & HP & Hb).
      exists (x :: before), after. repeat split; [assumption|].
      constructor; [|assumption]. rewrite <- Hf. congruence.
  - intros (before & after & -> & HP & Hb).
    induction Hb as [|x before Hx Hb IH]; simpl.
    + apply Hf in HP. now rewrite HP.
    + destruct (f x) eqn:E; [|exact IH]. exfalso. now apply Hx, Hf.
Qed.

Lemma join_cons (sep x y : str) (rest : list str) :
  join sep (x :: y :: rest) = x ++ sep ++ join sep (y :: rest).
Proof. reflexivity. Qed.

Lemma join_space_elem (tokens : list str) :
  (2 <= length tokens)%nat -> 32 ∈ join (lit " ") tokens.
Proof.
  destruct tokens as [|x [|y rest]]; cbn [length]; try lia. intros _.
  rewrite join_cons. change (lit " ") with [32].
  apply elem_of_app. right. apply list_elem_of_here.
Qed.

Lemma class_matches_includes (target : str) (e : element) :
  target <> [] -> 32 ∉ target ->
  class_matches target (e_class e) = true <-> class_includes target e.
Proof.
  intros Hne Hsp. unfold class_matches, class_includes.
  destruct (e_class e) as [tokens|].
  - rewrite orb_true_iff, existsb_exists. split.
    + intros [(t & Hin & Ht) | Hj].
      * apply str_eqb_eq in Ht. subst t. exists tokens.
        split; [reflexivity | now apply list_elem_of_In].
      * apply str_eqb_eq in Hj. exists tokens. split; [reflexivity|].
        destruct tokens as [|x [|y rest]].
        -- simpl in Hj. congruence.
        -- simpl in Hj. subst x. apply list_elem_of_here.
        -- exfalso. apply Hsp. rewrite <- Hj.
           apply join_space_elem. simpl. lia.
    + intros (tokens' & [= <-] & Hin). left. exists target.
      split; [now apply list_elem_of_In | now apply str_eqb_eq].
  - split; [discriminate | intros (? & ? & _); discriminate].
Qed.

Lemma find_title_span_test (e : element) :
  str_eqb (e_name e) (lit "span") && class_matches (lit "title") (e_class e)
  = true <-> is_title_span e.
Proof.
  unfold is_title_span.
  rewrite andb_true_iff, str_eqb_eq, class_matches_includes;
    [reflexivity | discriminate |].
  apply (bool_decide_unpack _). vm_compute. exact I.
Qed.

Lemma find_next_link_test (e : element) :
  str_eqb (e_name e) (lit "a")
  && bool_decide (e_attrs e !! lit "id" = Some (lit "pt_next"))
  && class_matches (lit "Readpage_up") (e_class e) = true <-> is_next_link e.
Proof.
  unfold is_next_link.
  rewrite !andb_true_iff, str_eqb_eq, bool_decide_eq_true,
    class_matches_includes; [tauto | discriminate |].
  apply (bool_decide_unpack _). vm_compute. exact I.
Qed.

(** ** Occurrences of a separator *)

Lemma starts_with_spec (prefix s : str) :
  starts_with prefix s = true <-> exists rest, s = prefix ++ rest.
Proof.
  revert s. induction prefix as [|a p IH]; intros s; simpl.
  - split; [now exists s | reflexivity].
  - destruct s as [|c t].
    + split; [discriminate | intros (? & ?); discriminate].
    + rewrite andb_true_iff, N.eqb_eq, IH. split.
      * intros (-> & rest & ->). now exists rest.
      * intros (rest & [= -> ->]). split; [reflexivity | now exists rest].
Qed.

Lemma str_contains_spec (sep s : str) :
  str_contains sep s = true <-> occurs sep s.
Proof.
  unfold occurs. induction s as [|c t IH].
  - cbn [str_contains]. rewrite orb_false_r, starts_with_spec. split.
    + intros (rest & H). now exists [], rest.
    + intros (before & after & H). destruct before; [now exists after|].
      discriminate.
  - cbn [str_contains]. rewrite orb_true_iff, starts_with_spec, IH. split.
    + intros [(rest & H) | (before & after & ->)].
      * now exists [], rest.
      * now exists (c :: before), after.
    + intros (before & after & H). destruct before as [|b before].
      * left. now exists after.
      * right. injection H as -> ->. now exists before, after.
Qed.

Lemma split_once_first (sep text before after : str) :
  first_occurrence sep text before after ->
  split_once sep text = [before; after].
Proof.
  revert text. induction before as [|c before IH]; intros text [Heq Hmin].
  - subst text. simpl app.
    assert (Hs : starts_with sep (sep ++ after) = true)
      by (apply starts_with_spec; now exists after).
    destruct (sep ++ after) as [|x r] eqn:E; simpl; rewrite Hs; rewrite <- E;
      now rewrite drop_app_length.
  - subst text. cbn [app split_once].
    destruct (starts_with sep (c :: before ++ sep ++ after)) eqn:Hs.
    + apply starts_with_spec in Hs. destruct Hs as (rest & Hs).
      specialize (Hmin [] rest Hs). simpl in Hmin. lia.
    + rewrite (IH (before ++ sep ++ after)); [reflexivity|].
      split; [reflexivity|]. intros b a Hba.
      specialize (Hmin (c :: b) a). simpl in Hmin.
      rewrite Hba in Hmin. specialize (Hmin eq_refl). lia.
Qed.

(** A separator that occurs has a first occurrence. *)
Lemma occurs_first (sep text : str) :
  occurs sep text ->
  exists before after, first_occurrence sep text before after.
Proof.
  induction text as [|c t IH]; intros Hocc.
  - destruct Hocc as (b & a & H). destruct b; [|discriminate].
    exists [], a. split; [exact H | intros; simpl; lia].
  - destruct (starts_with sep (c :: t)) eqn:Hs.
    + apply starts_with_spec in Hs. destruct Hs as (rest & Hs).
      exists [], rest. split; [exact Hs | intros; simpl; lia].
    + assert (Ht : occurs sep t).
      { destruct Hocc as (b & a & H). destruct b as [|x b].
        - exfalso. assert (starts_with sep (c :: t) = true)
            by (apply starts_with_spec; now exists a). congruence.
        - injection H as -> ->. now exists b, a. }
      destruct (IH Ht) as (before & after & Heq & Hmin).
      exists (c :: before), after. split; [now rewrite Heq|].
      intros b a H. destruct b as [|x b].
      * exfalso. assert (starts_with sep (c :: t) = true)
          by (apply starts_with_spec; now exists a). congruence.
      * injection H as -> H. specialize (Hmin b a H). simpl. lia.
Qed.

(** ** extract_title_for_filename *)

Lemma sanitize_strip (s : str) :
  sanitize_filename (strip s) = sanitize_filename s.
Proof.
  unfold sanitize_filename, sanitize_transform. rewrite strip_twice.
  destruct s as [|c t]; [reflexivity|].
  destruct (strip (c :: t)) eqn:E; reflexivity.
Qed.

Lemma find_title_span_none (soup : list node) :
  find_title_span soup = None <->
  Forall (fun e => ~ is_title_span e) (soup_tags soup).
Proof. apply find_none_such, find_title_span_test. Qed.

Lemma find_title_span_some (soup : list node) (span : element) :
  find_title_span soup = Some span <->
  first_such is_title_span (soup_tags soup) span.
Proof. apply find_first_such, find_title_span_test. Qed.

(** C7.  The title extractor returns [untitled] when the document has no
    span of class title, when the separator of two non-breaking spaces does
    not occur in the text of the first such span, and when what follows the
    first occurrence of the separator is empty once stripped; in every other
    case it returns that text sanitized.  The text Chapter, separator,
    My Title gives My_Title.  The function is total. *)
Theorem extract_title_for_filename_spec (soup : list node) :
  (Forall (fun e => ~ is_title_span e) (soup_tags soup) ->
   extract_title_for_filename soup = untitled) /\
  (forall span,
      first_such is_title_span (soup_tags soup) span ->
      (~ occurs separator (get_text span) ->
       extract_title_for_filename soup = untitled) /\
      (forall before after,
          first_occurrence separator (get_text span) before after ->
          (strip after = [] -> extract_title_for_filename soup = untitled) /\
          (strip after <> [] ->
           extract_title_for_filename soup = sanitize_filename after)) /\
      (get_text span = lit "Chapter" ++ [nbsp; nbsp] ++ lit "My Title" ->
       extract_title_for_filename soup = lit "My_Title")).
Proof.
  split.
  - intros H. apply find_title_span_none in H.
    unfold extract_title_for_filename. rewrite H. apply sanitize_untitled.
  - intros span Hspan. apply find_title_span_some in Hspan.
    unfold extract_title_for_filename. rewrite Hspan. cbv zeta.
    split; [|split].
    + intros Hno.
      destruct (str_contains separator (get_text span)) eqn:E.
      * exfalso. now apply Hno, str_contains_spec.
      * apply sanitize_untitled.
    + intros before after Hfirst.
      assert (E : str_contains separator (get_text span) = true).
      { apply str_contains_spec. exists before, after. apply Hfirst. }
      rewrite E, (split_once_first _ _ _ _ Hfirst). cbn [lookup list_lookup].
      split; intros Hs.
      * rewrite Hs. apply sanitize_untitled.
      * apply is_empty_false in Hs. rewrite Hs. cbn [negb].
        apply sanitize_strip.
    + intros ->. reflexivity.
Qed.

(** ** The next page link *)

Lemma find_next_link_none (soup : list node) :
  find_next_link soup = None <->
  Forall (fun e => ~ is_next_link e) (soup_tags soup).
Proof. apply find_none_such, find_next_link_test. Qed.

Lemma find_next_link_some (soup : list node) (a : element) :
  find_next_link soup = Some a <->
  first_such is_next_link (soup_tags soup) a.
Proof. apply find_first_such, find_next_link_test. Qed.

Lemma lower_sentinel : lower sentinel_href = sentinel_href.
Proof. reflexivity. Qed.

(** The answer of [find_next_href] in terms of the link and its [href]. *)
Lemma find_next_href_cases (soup : list node) :
  (find_next_href soup = NoLink /\
   Forall (fun e => ~ is_next_link e) (soup_tags soup)) \/
  (exists a, first_such is_next_link (soup_tags soup) a /\
     ((find_next_href soup = NoHref /\ e_attrs a !! lit "href" = None) \/
      (exists href, e_attrs a !! lit "href" = Some href /\
         ((find_next_href soup = NoHref /\ strip href = []) \/
          (find_next_href soup = LastPage (strip href) /\ strip href <> [] /\
           same_ignoring_case (strip href) sentinel_href) \/
          (find_next_href soup = NextHref (strip href) /\ strip href <> [] /\
           ~ same_ignoring_case (strip href) sentinel_href))))).
Proof.
  unfold find_next_href, same_ignoring_case. rewrite lower_sentinel.
  destruct (find_next_link soup) as [a|] eqn:Hfind.
  - right. exists a. split; [now apply find_next_link_some|].
    destruct (e_attrs a !! lit "href") as [href|]; [|now left].
    right. exists href. split; [reflexivity|].
    destruct (is_empty href) eqn:E1.
    { apply is_empty_true in E1. subst href. now left. }
    destruct (is_empty (strip href)) eqn:E2; cbn [orb].
    { apply is_empty_true in E2. now left. }
    apply is_empty_false in E2. right.
    destruct (str_eqb (lower (strip href)) sentinel_href) eqn:E3.
    + left. apply str_eqb_eq in E3. auto.
    + right. apply str_eqb_neq in E3. auto.
  - left. split; [reflexivity | now apply find_next_link_none].
Qed.

(** ** The effects of one turn of the loop *)

Lemma gets_app (a b : list event) : gets (a ++ b) = gets a ++ gets b.
Proof. apply omap_app. Qed.

Lemma opens_app (a b : list event) : opens (a ++ b) = opens a ++ opens b.
Proof. apply omap_app. Qed.

Lemma has_crashed_app (a b : list event) :
  has_crashed (a ++ b) = has_crashed a || has_crashed b.
Proof. apply existsb_app. Qed.

Lemma quiet_gets : quiet (fun e => match e with Get url => Some url | _ => None end).
Proof. repeat split. Qed.

Lemma quiet_opens :
  quiet (fun e => match e with
                  | Open name mode => Some (name, mode)
                  | _ => None
                  end).
Proof. repeat split. Qed.

Lemma quiet_writes {A : Type} (f : event -> option A) name
    (chunks : list str) :
  quiet f -> omap f (List.map (Write name) chunks) = [].
Proof.
  intros (_ & Hw & _). induction chunks as [|c rest IH]; [reflexivity|].
  cbn [List.map omap list_omap]. now rewrite Hw.
Qed.

Lemma has_crashed_writes name (chunks : list str) :
  has_crashed (List.map (Write name) chunks) = false.
Proof. induction chunks; [reflexivity | assumption]. Qed.

(** The [with] block makes one call to [open] and calls to [f.write]. *)
Lemma run_with_open_quiet {A : Type} (f : event -> option A) flt name mode
    (chunks : list str) fs :
  quiet f ->
  omap f (run_with_open flt name mode chunks fs).1.1 =
  omap f [Open name mode].
Proof.
  intros Hq. unfold run_with_open.
  destruct flt as [| | |calls bytes|calls]; cbn [fst];
    try reflexivity;
    try destruct (calls <? length chunks)%nat; cbn [fst];
    change (Open name mode :: ?l) with ([Open name mode] ++ l);
    rewrite omap_app, quiet_writes by assumption; apply app_nil_r.
Qed.

Lemma run_with_open_calm flt name mode (chunks : list str) fs :
  has_crashed (run_with_open flt name mode chunks fs).1.1 = false.
Proof.
  unfold run_with_open.
  destruct flt as [| | |calls bytes|calls]; cbn [fst];
    try reflexivity;
    try destruct (calls <? length chunks)%nat; cbn [fst];
    apply (has_crashed_writes name).
Qed.

(** The file of the [with] block is untouched when [open] raises;
    otherwise it holds what [open] left in it and then something, which is
    all the strings to write when there is no fault. *)
Lemma run_with_open_files flt name mode (chunks : list str) fs :
  ((flt = OpenFails \/ flt = OpenRaises) /\
   (run_with_open flt name mode chunks fs).1.2 = fs) \/
  (flt <> OpenFails /\ flt <> OpenRaises /\
   exists extra : str,
     (run_with_open flt name mode chunks fs).1.2 !! name =
       Some (match mode with
             | ModeW => []
             | ModeA => default [] (fs !! name)
             end ++ extra) /\
     (flt = NoFault -> extra = concat chunks)).
Proof.
  unfold run_with_open.
  destruct flt as [| | |calls bytes|calls]; cbn [fst snd].
  - right. split; [discriminate|]. split; [discriminate|].
    exists (concat chunks). split; [|reflexivity].
    erewrite write_file_lookup by apply open_file_lookup. reflexivity.
  - left. auto.
  - left. auto.
  - right. split; [discriminate|]. split; [discriminate|].
    eexists. split; [|discriminate].
    unfold write_file. rewrite open_file_lookup. cbn [default].
    apply lookup_insert_eq.
  - right. split; [discriminate|]. split; [discriminate|].
    destruct (calls <? length chunks)%nat; cbn [fst snd];
      (eexists; split; [|discriminate]);
      erewrite write_file_lookup by apply open_file_lookup; reflexivity.
Qed.

Lemma run_with_open_other flt name mode (chunks : list str) fs other :
  other <> name ->
  (run_with_open flt name mode chunks fs).1.2 !! other = fs !! other.
Proof.
  intros Hne.
  assert (Hopen : open_file name mode fs !! other = fs !! other).
  { unfold open_file. destruct mode.
    - now apply lookup_insert_ne.
    - destruct (fs !! name); [reflexivity | now apply lookup_insert_ne]. }
  unfold run_with_open.
  destruct flt as [| | |calls bytes|calls]; cbn [fst snd].
  - now rewrite write_file_other.
  - reflexivity.
  - reflexivity.
  - unfold write_file. now rewrite lookup_insert_ne.
  - destruct (calls <? length chunks)%nat; cbn [fst snd];
      now rewrite write_file_other.
Qed.

Lemma run_with_open_is_Some flt name mode (chunks : list str) fs other :
  is_Some (fs !! other) ->
  is_Some ((run_with_open flt name mode chunks fs).1.2 !! other).
Proof.
  intros Hsome. destruct (decide (other = name)) as [-> | Hne].
  - destruct (run_with_open_files flt name mode chunks fs)
      as [[_ ->] | (_ & _ & extra & -> & _)]; [assumption | eauto].
  - now rewrite run_with_open_other.
Qed.

(** What [write_page] leaves alone, and what it does to the cursor. *)
Lemma write_page_frame flt url mode (paragraphs : list str) st :
  let r := write_page flt url mode paragraphs st in
  output_filename r.1 = output_filename st /\
  first_page_processed r.1 = first_page_processed st /\
  iteration r.1 = iteration st /\
  current_url r.1 = (if r.2 then current_url st else None).
Proof.
  unfold write_page.
  destruct (negb (is_empty_list paragraphs) || mode_is_w mode).
  - destruct (output_filename st) as [name|] eqn:Hname; [|cbn; auto].
    destruct (run_with_open flt name mode (page_writes mode paragraphs)
                (files st)) as [[calls fs] [| |c]];
      [destruct paragraphs; [destruct mode|]| |]; cbn; auto.
  - destruct mode; cbn; auto.
Qed.

(** What a quiet projection sees of [write_page]: the call to [open], when
    the file of the page is written. *)
Lemma write_page_quiet {A : Type} (f : event -> option A) flt url mode
    (paragraphs : list str) st name :
  quiet f ->
  output_filename st = Some name ->
  omap f (trace (write_page flt url mode paragraphs st).1) =
  omap f (trace st) ++
  (if is_written mode paragraphs then omap f [Open name mode] else []).
Proof.
  intros Hq Hname. pose proof Hq as (Hp & _ & Hu).
  unfold write_page, is_written.
  destruct (negb (is_empty_list paragraphs) || mode_is_w mode).
  - rewrite Hname.
    pose proof (run_with_open_quiet f flt name mode
                  (page_writes mode paragraphs) (files st) Hq) as Hcalls.
    destruct (run_with_open flt name mode (page_writes mode paragraphs)
                (files st)) as [[calls fs] [| |c]];
      cbn [fst snd] in Hcalls;
      [destruct paragraphs; [destruct mode|]| |];
      cbn [fst escape set_current_url set_files emit trace];
      rewrite ?omap_app, ?Hcalls; cbn [omap list_omap];
      rewrite ?Hp, ?Hu, ?app_nil_r; reflexivity.
  - destruct mode; cbn [fst emit trace]; rewrite ?omap_app;
      cbn [omap list_omap]; rewrite ?Hp, ?app_nil_r; reflexivity.
Qed.

(** Without a file name no call is made. *)
Lemma write_page_quiet_unnamed {A : Type} (f : event -> option A) flt url
    mode (paragraphs : list str) st :
  quiet f ->
  output_filename st = None ->
  omap f (trace (write_page flt url mode paragraphs st).1) =
  omap f (trace st).
Proof.
  intros (Hp & _ & Hu) Hname. unfold write_page.
  destruct (negb (is_empty_list paragraphs) || mode_is_w mode).
  - rewrite Hname. cbn. rewrite omap_app. cbn. rewrite Hu. apply app_nil_r.
  - destruct mode; cbn [fst emit trace]; rewrite ?omap_app;
      cbn [omap list_omap]; rewrite ?Hp, ?app_nil_r; reflexivity.
Qed.

Lemma write_page_files flt url mode (paragraphs : list str) st name :
  output_filename st = Some name ->
  files (write_page flt url mode paragraphs st).1 =
  if negb (is_empty_list paragraphs) || mode_is_w mode
  then (run_with_open flt name mode (page_writes mode paragraphs)
          (files st)).1.2
  else files st.
Proof.
  intros Hname. unfold write_page.
  destruct (negb (is_empty_list paragraphs) || mode_is_w mode).
  - rewrite Hname.
    destruct (run_with_open flt name mode (page_writes mode paragraphs)
                (files st)) as [[calls fs] [| |c]];
      [destruct paragraphs; [destruct mode|]| |]; reflexivity.
  - destruct mode; reflexivity.
Qed.

(** The turn goes on after [write_page] exactly when the block, if there
    is one, ends at its end. *)
Lemma write_page_ok flt url mode (paragraphs : list str) st name :
  output_filename st = Some name ->
  (write_page flt url mode paragraphs st).2 =
  if negb (is_empty_list paragraphs) || mode_is_w mode
  then match (run_with_open flt name mode (page_writes mode paragraphs)
                (files st)).2 with
       | BlockDone => true
       | _ => false
       end
  else true.
Proof.
  intros Hname. unfold write_page.
  destruct (negb (is_empty_list paragraphs) || mode_is_w mode).
  - rewrite Hname.
    destruct (run_with_open flt name mode (page_writes mode paragraphs)
                (files st)) as [[calls fs] [| |c]];
      [destruct paragraphs; [destruct mode|]| |]; reflexivity.
  - destruct mode; reflexivity.
Qed.

(** The last event of [write_page] when the block does not end at its
    end: the message of the handler, or the exception that escapes. *)
Lemma write_page_last flt url mode (paragraphs : list str) st name :
  output_filename st = Some name ->
  negb (is_empty_list paragraphs) || mode_is_w mode = true ->
  last (trace (write_page flt url mode paragraphs st).1) =
  match (run_with_open flt name mode (page_writes mode paragraphs)
           (files st)).2 with
  | BlockDone => last (trace (write_page flt url mode paragraphs st).1)
  | BlockIOError => Some (Print (MsgWriteError name))
  | BlockEscapes c => Some (Uncaught c)
  end.
Proof.
  intros Hname Hopened. unfold write_page. rewrite Hopened, Hname.
  destruct (run_with_open flt name mode (page_writes mode paragraphs)
              (files st)) as [[calls fs] [| |c]]; cbn [snd];
    [reflexivity | |]; cbn; now rewrite !last_snoc.
Qed.

(** [write_page] and the exceptions: none is added, or the turn stops on
    one. *)
Lemma write_page_crash flt url mode (paragraphs : list str) st :
  let r := write_page flt url mode paragraphs st in
  has_crashed (trace r.1) = has_crashed (trace st) \/
  (r.2 = false /\ exists c, last (trace r.1) = Some (Uncaught c)).
Proof.
  unfold write_page.
  destruct (negb (is_empty_list paragraphs) || mode_is_w mode).
  - destruct (output_filename st) as [name|].
    + pose proof (run_with_open_calm flt name mode
                    (page_writes mode paragraphs) (files st)) as Hcalm.
      destruct (run_with_open flt name mode (page_writes mode paragraphs)
                  (files st)) as [[calls fs] [| |c]];
        cbn [fst snd] in Hcalm.
      * left. destruct paragraphs; [destruct mode|];
          cbn [fst set_files emit trace];
          rewrite ?has_crashed_app, Hcalm; cbn; now rewrite ?orb_false_r.
      * left. cbn [fst set_current_url set_files emit trace].
        rewrite !has_crashed_app, Hcalm. cbn. now rewrite !orb_false_r.
      * right. split; [reflexivity|]. exists c. cbn. now rewrite last_snoc.
    + right. split; [reflexivity|]. exists OpenWithoutName. cbn.
      now rewrite last_snoc.
  - left. destruct mode; cbn [fst emit trace];
      rewrite ?has_crashed_app; cbn; now rewrite ?orb_false_r.
Qed.

Lemma write_page_calm url mode (paragraphs : list str) st name :
  output_filename st = Some name ->
  has_crashed (trace (write_page NoFault url mode paragraphs st).1)
  = has_crashed (trace st).
Proof.
  intros Hname. unfold write_page.
  destruct (negb (is_empty_list paragraphs) || mode_is_w mode).
  - rewrite Hname.
    pose proof (run_with_open_calm NoFault name mode
                  (page_writes mode paragraphs) (files st)) as Hcalm.
    cbn [run_with_open fst snd] in *.
    destruct paragraphs; [destruct mode|];
      cbn [fst set_files emit trace];
      rewrite ?has_crashed_app, Hcalm; cbn; now rewrite ?orb_false_r.
  - destruct mode; cbn [fst emit trace];
      rewrite ?has_crashed_app; cbn; now rewrite ?orb_false_r.
Qed.

(** What [follow_next_link] leaves alone, and the cursor it sets: none, or
    the resolved URL when it differs from the current one. *)
Lemma follow_next_link_frame url soup st :
  let st' := follow_next_link url soup st in
  output_filename st' = output_filename st /\
  first_page_processed st' = first_page_processed st /\
  iteration st' = iteration st /\
  files st' = files st /\
  current_url st' =
    match resolve_next url soup with
    | Next new_url => if str_eqb new_url url then None else Some new_url
    | _ => None
    end.
Proof.
  unfold follow_next_link, resolve_next.
  destruct (find_next_href soup) as [| |href|href]; try (cbn; now auto).
  cbv zeta. destruct (urljoin url href) as [new_url|]; [|cbn; now auto].
  destruct (str_eqb new_url url); [|destruct new_url]; cbn; auto 10.
Qed.

(** What a quiet projection sees of [follow_next_link]: the pause, when the
    loop goes on to another page. *)
Lemma follow_next_link_quiet {A : Type} (f : event -> option A) url soup st :
  quiet f ->
  omap f (trace (follow_next_link url soup st)) =
  omap f (trace st) ++
  (if truthy (current_url (follow_next_link url soup st))
   then omap f [Sleep] else []).
Proof.
  intros (Hp & _ & Hu). unfold follow_next_link.
  destruct (find_next_href soup) as [| |href|href];
    try (cbn; rewrite ?omap_app; cbn; now rewrite ?Hp, ?app_nil_r).
  cbv zeta. destruct (urljoin url href) as [new_url|].
  - destruct (str_eqb new_url url); [|destruct new_url];
      cbn; rewrite ?omap_app; cbn; rewrite ?Hp, ?app_nil_r;
      reflexivity.
  - cbn. rewrite !omap_app. cbn. now rewrite Hp, Hu, !app_nil_r.
Qed.

(** [follow_next_link] and the exceptions: none is added unless [urljoin]
    raises, and then the turn stops on it. *)
Lemma follow_next_link_crash url soup st :
  let st' := follow_next_link url soup st in
  (resolve_next url soup <> ResolutionRaises /\
   has_crashed (trace st') = has_crashed (trace st)) \/
  (resolve_next url soup = ResolutionRaises /\
   last (trace st') = Some (Uncaught UrljoinRaised) /\
   current_url st' = None).
Proof.
  unfold follow_next_link, resolve_next.
  destruct (find_next_href soup) as [| |href|href];
    try (left; split; [discriminate|]; cbn; rewrite ?has_crashed_app; cbn;
         now rewrite ?orb_false_r).
  cbv zeta. destruct (urljoin url href) as [new_url|].
  - left. split; [discriminate|].
    destruct (str_eqb new_url url); [|destruct new_url];
      cbn; rewrite ?has_crashed_app; cbn; now rewrite ?orb_false_r.
  - right. split; [reflexivity|]. cbn. now rewrite last_snoc.
Qed.

Lemma step_failed w st url f :
  current_url st = Some url ->
  fetch w (iteration st) url = Failed f ->
  step w st =
  State None (output_filename st) (first_page_processed st) (files st)
        (S (iteration st))
        (trace st ++ [Print (MsgProcessing url); Get url;
                      Print (failure_message url f)]).
Proof.
  intros Hcur Hfetch. unfold step. rewrite Hcur, Hfetch.
  unfold set_current_url, emit, fetched. cbn [current_url output_filename
    first_page_processed files iteration trace].
  now rewrite <- app_assoc.
Qed.

Lemma step_parsed w st url soup :
  current_url st = Some url ->
  fetch w (iteration st) url = Parsed soup ->
  step w st =
  if (written w url soup st).2
  then follow_next_link url soup (written w url soup st).1
  else (written w url soup st).1.
Proof.
  intros Hcur Hfetch. unfold step, written, chosen. rewrite Hcur, Hfetch.
  destruct (choose_file soup (fetched url st)) as [st2 mode]. cbn [fst snd].
  destruct (write_page _ _ _ _ _) as [st3 ok]. reflexivity.
Qed.

(** The state after the file and the mode of the page are chosen. *)
Lemma chosen_frame url soup st :
  current_url (chosen url soup st).1 = current_url st /\
  files (chosen url soup st).1 = files st /\
  iteration (chosen url soup st).1 = S (iteration st) /\
  first_page_processed (chosen url soup st).1 = true /\
  output_filename (chosen url soup st).1 = page_name soup st /\
  (chosen url soup st).2 = page_mode st /\
  has_crashed (trace (chosen url soup st).1) = has_crashed (trace st).
Proof.
  unfold chosen, choose_file, page_name, page_mode.
  cbn [fetched first_page_processed].
  destruct (first_page_processed st) eqn:E;
    unfold fetched;
    cbn [negb fst snd emit trace current_url files iteration
         first_page_processed output_filename];
    rewrite ?has_crashed_app; cbn [has_crashed existsb];
    rewrite ?orb_false_r; auto 10.
Qed.

Lemma chosen_quiet {A : Type} (f : event -> option A) url soup st :
  quiet f ->
  omap f (trace (chosen url soup st).1) = omap f (trace st) ++ omap f [Get url].
Proof.
  intros (Hp & _). unfold chosen, choose_file. cbn [fetched first_page_processed].
  destruct (first_page_processed st); unfold fetched;
    cbn [negb fst emit trace];
    rewrite ?omap_app; cbn [omap list_omap]; rewrite ?Hp;
    cbn; now rewrite ?app_nil_r.
Qed.

(** The state after the file of the page is written, when the page has a
    file name. *)
Lemma written_frame w url soup st name :
  page_name soup st = Some name ->
  let paragraphs := extract_relevant_paragraphs soup in
  let r := written w url soup st in
  output_filename r.1 = Some name /\
  first_page_processed r.1 = true /\
  iteration r.1 = S (iteration st) /\
  current_url r.1 = (if r.2 then current_url st else None) /\
  files r.1 =
    (if is_written (page_mode st) paragraphs
     then (run_with_open (fault w (iteration st)) name (page_mode st)
             (page_writes (page_mode st) paragraphs) (files st)).1.2
     else files st) /\
  r.2 =
    (if is_written (page_mode st) paragraphs
     then match (run_with_open (fault w (iteration st)) name (page_mode st)
                   (page_writes (page_mode st) paragraphs) (files st)).2 with
          | BlockDone => true
          | _ => false
          end
     else true).
Proof.
  intros Hname paragraphs r.
  destruct (chosen_frame url soup st) as (Hc & Hf & Hi & Hp & Ho & Hm & _).
  rewrite Hname in Ho.
  pose proof (write_page_frame (fault w (iteration st)) url
                (chosen url soup st).2 paragraphs (chosen url soup st).1)
    as (Ho2 & Hp2 & Hi2 & Hc2).
  pose proof (write_page_files (fault w (iteration st)) url
                (chosen url soup st).2 paragraphs (chosen url soup st).1
                name Ho) as Hf2.
  pose proof (write_page_ok (fault w (iteration st)) url
                (chosen url soup st).2 paragraphs (chosen url soup st).1
                name Ho) as Hok.
  cbv zeta in Ho2, Hp2, Hi2, Hc2.
  fold paragraphs in Ho2, Hp2, Hi2, Hc2, Hf2, Hok.
  change (write_page (fault w (iteration st)) url (chosen url soup st).2
            paragraphs (chosen url soup st).1) with r in *.
  rewrite Hm, Hf in *. unfold is_written.
  rewrite Ho2, Hp2, Hi2, Hc2, Hf2, Hok, Ho, Hp, Hi, Hc. auto 10.
Qed.

(** A turn on a page that was fetched: the file name, the calls to [open]
    and the files after it. *)
Lemma step_page w st url soup name :
  current_url st = Some url ->
  fetch w (iteration st) url = Parsed soup ->
  page_name soup st = Some name ->
  let paragraphs := extract_relevant_paragraphs soup in
  let opened := negb (is_empty_list paragraphs) || mode_is_w (page_mode st) in
  output_filename (step w st) = Some name /\
  first_page_processed (step w st) = true /\
  iteration (step w st) = S (iteration st) /\
  opens (trace (step w st)) =
    opens (trace st) ++ (if opened then [(name, page_mode st)] else []) /\
  files (step w st) =
    if opened
    then (run_with_open (fault w (iteration st)) name (page_mode st)
            (page_writes (page_mode st) paragraphs) (files st)).1.2
    else files st.
Proof.
  intros Hcur Hfetch Hname paragraphs opened.
  destruct (written_frame w url soup st name Hname)
    as (Ho & Hp & Hi & _ & Hf & _).
  fold paragraphs in Hf. change (is_written (page_mode st) paragraphs)
    with opened in Hf.
  assert (Hopens : opens (trace (written w url soup st).1) =
                   opens (trace st) ++
                   (if opened then [(name, page_mode st)] else [])).
  { destruct (chosen_frame url soup st) as (_ & _ & _ & _ & Hout & Hm & _).
    rewrite Hname in Hout. unfold written, opens.
    rewrite (write_page_quiet _ _ _ _ _ _ name quiet_opens Hout).
    rewrite (chosen_quiet _ url soup st quiet_opens), Hm.
    cbn [omap list_omap]. rewrite app_nil_r. fold paragraphs.
    change (is_written (page_mode st) paragraphs) with opened.
    now destruct opened. }
  rewrite (step_parsed w st url soup Hcur Hfetch).
  destruct (written w url soup st).2; [|auto 10].
  destruct (follow_next_link_frame url soup (written w url soup st).1)
    as (Ho3 & Hp3 & Hi3 & Hf3 & _).
  rewrite Ho3, Hp3, Hi3, Hf3.
  unfold opens at 1.
  rewrite (follow_next_link_quiet _ url soup _ quiet_opens).
  fold (opens (trace (written w url soup st).1)).
  rewrite Hopens. repeat split; try assumption.
  destruct (truthy _); cbn; now rewrite app_nil_r.
Qed.

(** What a quiet projection sees of a turn: the request, the call to
    [open] when the file of the page is written, and the pause when the
    loop goes on to another page. *)
Lemma step_quiet {A : Type} (f : event -> option A) w st url :
  quiet f ->
  current_url st = Some url ->
  omap f (trace (step w st)) =
  omap f (trace st) ++ omap f [Get url] ++
  match fetch w (iteration st) url with
  | Failed _ => []
  | Parsed soup =>
      match page_name soup st with
      | Some name =>
          if is_written (page_mode st) (extract_relevant_paragraphs soup)
          then omap f [Open name (page_mode st)] else []
      | None => []
      end
  end ++
  (if truthy (current_url (step w st)) then omap f [Sleep] else []).
Proof.
  intros Hq Hcur. pose proof Hq as (Hp & _).
  destruct (fetch w (iteration st) url) as [fl|soup] eqn:Hfetch.
  - rewrite (step_failed w st url fl Hcur Hfetch).
    cbn [trace current_url truthy]. rewrite omap_app.
    cbn [omap list_omap]. rewrite !Hp. cbn. now rewrite !app_nil_r.
  - rewrite (step_parsed w st url soup Hcur Hfetch).
    destruct (chosen_frame url soup st) as (Hc & _ & _ & _ & Hout & Hm & _).
    assert (Hw : omap f (trace (written w url soup st).1) =
                 omap f (trace st) ++ omap f [Get url] ++
                 match page_name soup st with
                 | Some name =>
                     if is_written (page_mode st)
                          (extract_relevant_paragraphs soup)
                     then omap f [Open name (page_mode st)] else []
                 | None => []
                 end).
    { unfold written. destruct (page_name soup st) as [name|].
      - rewrite (write_page_quiet _ _ _ _ _ _ name Hq Hout).
        rewrite (chosen_quiet _ url soup st Hq), Hm.
        now rewrite <- app_assoc.
      - rewrite (write_page_quiet_unnamed _ _ _ _ _ _ Hq Hout).
        rewrite (chosen_quiet _ url soup st Hq). now rewrite app_nil_r. }
    pose proof (write_page_frame (fault w (iteration st)) url
                  (chosen url soup st).2 (extract_relevant_paragraphs soup)
                  (chosen url soup st).1) as (_ & _ & _ & Hc2).
    cbv zeta in Hc2. fold (written w url soup st) in Hc2.
    destruct (written w url soup st).2.
    + rewrite (follow_next_link_quiet _ url soup _ Hq), Hw.
      now rewrite <- !app_assoc.
    + rewrite Hw, Hc2. cbn [truthy]. now rewrite !app_nil_r.
Qed.

Lemma step_gets w st url :
  current_url st = Some url ->
  gets (trace (step w st)) = gets (trace st) ++ [url].
Proof.
  intros Hcur. unfold gets. rewrite (step_quiet _ w st url quiet_gets Hcur).
  f_equal. cbn [omap list_omap].
  destruct (fetch w (iteration st) url) as [fl|soup].
  - now destruct (truthy _).
  - destruct (page_name soup st); [destruct (is_written _ _)|];
      now destruct (truthy _).
Qed.

Lemma step_iteration w st url :
  current_url st = Some url -> iteration (step w st) = S (iteration st).
Proof.
  intros Hcur. destruct (fetch w (iteration st) url) as [f|soup] eqn:Hfetch.
  - now rewrite (step_failed w st url f Hcur Hfetch).
  - rewrite (step_parsed w st url soup Hcur Hfetch).
    destruct (chosen_frame url soup st) as (_ & _ & Hi & _).
    pose proof (write_page_frame (fault w (iteration st)) url
                  (chosen url soup st).2 (extract_relevant_paragraphs soup)
                  (chosen url soup st).1) as (_ & _ & Hi2 & _).
    cbv zeta in Hi2. fold (written w url soup st) in Hi2.
    destruct (written w url soup st).2; [|congruence].
    destruct (follow_next_link_frame url soup (written w url soup st).1)
      as (_ & _ & Hi3 & _).
    congruence.
Qed.

(** The cursor after a turn: none, or the URL that [resolve_next] gives,
    which then differs from the URL of the turn. *)
Lemma step_cursor w st url soup :
  current_url st = Some url ->
  fetch w (iteration st) url = Parsed soup ->
  current_url (step w st) = None \/
  exists next, current_url (step w st) = Some next /\
               resolve_next url soup = Next next /\ next <> url.
Proof.
  intros Hcur Hfetch. rewrite (step_parsed w st url soup Hcur Hfetch).
  pose proof (write_page_frame (fault w (iteration st)) url
                (chosen url soup st).2 (extract_relevant_paragraphs soup)
                (chosen url soup st).1) as (_ & _ & _ & Hc).
  cbv zeta in Hc. fold (written w url soup st) in Hc.
  destruct (written w url soup st).2; [|now left].
  destruct (follow_next_link_frame url soup (written w url soup st).1)
    as (_ & _ & _ & _ & Hn).
  rewrite Hn. destruct (resolve_next url soup) as [|next|]; try now left.
  destruct (str_eqb next url) eqn:E; [now left|].
  right. exists next. apply str_eqb_neq in E. auto.
Qed.

(** A turn and the exceptions: none is added, or the turn stops on one and
    clears the cursor. *)
Lemma step_crash w st url :
  current_url st = Some url ->
  has_crashed (trace (step w st)) = has_crashed (trace st) \/
  (exists c, last (trace (step w st)) = Some (Uncaught c)) /\
  current_url (step w st) = None.
Proof.
  intros Hcur. destruct (fetch w (iteration st) url) as [f|soup] eqn:Hfetch.
  - left. rewrite (step_failed w st url f Hcur Hfetch). cbn [trace].
    rewrite has_crashed_app. cbn. apply orb_false_r.
  - rewrite (step_parsed w st url soup Hcur Hfetch).
    destruct (chosen_frame url soup st) as (_ & _ & _ & _ & _ & _ & Hk).
    pose proof (write_page_crash (fault w (iteration st)) url
                  (chosen url soup st).2 (extract_relevant_paragraphs soup)
                  (chosen url soup st).1) as Hw.
    pose proof (write_page_frame (fault w (iteration st)) url
                  (chosen url soup st).2 (extract_relevant_paragraphs soup)
                  (chosen url soup st).1) as (_ & _ & _ & Hc).
    cbv zeta in Hw, Hc. fold (written w url soup st) in Hw, Hc.
    destruct Hw as [Hw | (Hfalse & c & Hlast)].
    + destruct (written w url soup st).2; [|left; congruence].
      destruct (follow_next_link_crash url soup (written w url soup st).1)
        as [(_ & Hf) | (_ & Hl & Hn)].
      * left. congruence.
      * right. eauto.
    + rewrite Hfalse in *. right. eauto.
Qed.

Lemma crawl_loop_stopped fuel w st :
  truthy (current_url st) = false -> crawl_loop fuel w st = st.
Proof. intros H. destruct fuel; simpl; [reflexivity | now rewrite H]. Qed.

Lemma crawl_loop_invariant w (I : state -> Prop) :
  (forall st, I st -> truthy (current_url st) = true -> I (step w st)) ->
  forall fuel st, I st -> I (crawl_loop fuel w st).
Proof.
  intros Hstep. induction fuel as [|fuel IH]; intros st Hst; simpl;
    [assumption|].
  destruct (truthy (current_url st)) eqn:E; [|assumption].
  apply IH, Hstep; assumption.
Qed.

Lemma crawl_loop_app a b w st :
  crawl_loop (a + b) w st = crawl_loop b w (crawl_loop a w st).
Proof.
  revert st. induction a as [|a IH]; intros st; simpl; [reflexivity|].
  destruct (truthy (current_url st)) eqn:E; [apply IH|].
  now rewrite crawl_loop_stopped.
Qed.

Lemma crawl_loop_first fuel w fs (initial_url : str) :
  initial_url <> [] ->
  crawl_loop (S fuel) w (initial_state fs initial_url) =
  crawl_loop fuel w (step w (initial_state fs initial_url)).
Proof. destruct initial_url; [contradiction | reflexivity]. Qed.

Lemma truthy_some (v : option str) :
  truthy v = true -> exists url, v = Some url /\ url <> [].
Proof.
  destruct v as [[|c t]|]; simpl; try discriminate.
  intros _. now exists (c :: t).
Qed.

Lemma truthy_of_some (url : str) : url <> [] -> truthy (Some url) = true.
Proof. destruct url; [contradiction | reflexivity]. Qed.

(** A crawl that has met an exception stopped on it. *)
Lemma stopped_on_crash_crawl fuel w fs (initial_url : str) :
  stopped_on_crash (crawl_loop fuel w (initial_state fs initial_url)).
Proof.
  apply crawl_loop_invariant; [|discriminate].
  intros st Hst Htruthy Hcrashed.
  pose proof Htruthy as Htruthy'.
  apply truthy_some in Htruthy'. destruct Htruthy' as (url & Hcur & _).
  destruct (step_crash w st url Hcur) as [Hsame | H]; [|exact H].
  rewrite Hsame in Hcrashed. destruct (Hst Hcrashed) as [_ Hnone].
  rewrite Hnone in Htruthy. discriminate.
Qed.

(** ** The next URL and the failures of a fetch *)

Lemma no_consecutive_repeat_snoc (l : list str) (url : str) :
  no_consecutive_repeat l -> last l <> Some url ->
  no_consecutive_repeat (l ++ [url]).
Proof.
  intros Hl Hlast i u v Hu Hv.
  destruct (decide (S i < length l)%nat) as [Hlt | Hge].
  - rewrite lookup_app_l in Hu, Hv by lia. eapply Hl; eassumption.
  - assert (Hi : S i = length l).
    { apply lookup_lt_Some in Hv. rewrite length_app in Hv. simpl in Hv. lia. }
    rewrite lookup_app_l in Hu by lia.
    rewrite lookup_app_r, Hi, Nat.sub_diag in Hv by lia.
    injection Hv as <-. intros ->. apply Hlast.
    rewrite last_lookup, <- Hi. exact Hu.
Qed.

(** The first next-page link of a document is the only one there is to
    speak of. *)
Lemma first_next_link_unique (soup : list node) (a b : element) :
  first_such is_next_link (soup_tags soup) a ->
  first_such is_next_link (soup_tags soup) b -> a = b.
Proof.
  intros Ha Hb. apply find_next_link_some in Ha, Hb. congruence.
Qed.

(** The href that goes to [urljoin]: the stripped href of the first
    next-page link, when it is neither blank nor the sentinel. *)
Lemma find_next_href_link (soup : list node) (a : element) (href : str) :
  first_such is_next_link (soup_tags soup) a ->
  e_attrs a !! lit "href" = Some href ->
  strip href <> [] ->
  ~ same_ignoring_case (strip href) sentinel_href ->
  find_next_href soup = NextHref (strip href).
Proof.
  intros Ha Hh Hs Hc.
  destruct (find_next_href_cases soup)
    as [[_ Hnone]
       | (b & Hb & [[_ Hh']
                   | (href' & Hh' & [[_ Hs'] | [(_ & _ & Hc') | (E & _)]])])].
  - apply find_next_link_none in Hnone. apply find_next_link_some in Ha.
    congruence.
  - rewrite (first_next_link_unique soup a b Ha Hb) in Hh. congruence.
  - rewrite (first_next_link_unique soup a b Ha Hb) in Hh.
    assert (href' = href) by congruence. subst. contradiction.
  - rewrite (first_next_link_unique soup a b Ha Hb) in Hh.
    assert (href' = href) by congruence. subst. contradiction.
  - rewrite (first_next_link_unique soup a b Ha Hb) in Hh.
    assert (href' = href) by congruence. now subst.
Qed.

(** Where the href that goes to [urljoin] comes from. *)
Lemma find_next_href_origin (soup : list node) (next_href : str) :
  find_next_href soup = NextHref next_href ->
  exists a href,
    first_such is_next_link (soup_tags soup) a /\
    e_attrs a !! lit "href" = Some href /\
    strip href <> [] /\
    ~ same_ignoring_case (strip href) sentinel_href /\
    next_href = strip href.
Proof.
  destruct (find_next_href_cases soup)
    as [[-> _]
       | (a & Ha & [[-> _]
                   | (href & Hh & [[-> _] | [(-> & _) | (-> & Hs & Hc)]])])];
    try discriminate.
  intros [= <-]. exists a, href. auto.
Qed.

Lemma resolve_next_origin url soup next :
  resolve_next url soup = Next next ->
  exists a href,
    first_such is_next_link (soup_tags soup) a /\
    e_attrs a !! lit "href" = Some href /\
    urljoin url (strip href) = Some next.
Proof.
  unfold resolve_next.
  destruct (find_next_href soup) as [| |h|h] eqn:E; try discriminate.
  destruct (urljoin url h) as [new_url|] eqn:Hj; [|discriminate].
  intros [= <-].
  destruct (find_next_href_origin soup h E) as (a & href & Ha & Hh & _ & _ & ->).
  exists a, href. auto.
Qed.

(** With no fault, the file of a page that has a name is written to the
    end of the block. *)
Lemma written_no_fault w url soup st name :
  page_name soup st = Some name ->
  fault w (iteration st) = NoFault ->
  (written w url soup st).2 = true.
Proof.
  intros Hname Hfault.
  destruct (written_frame w url soup st name Hname) as (_ & _ & _ & _ & _ & ->).
  rewrite Hfault. now destruct (is_written _ _).
Qed.

(** The cursor after a turn on a page whose file is written to the end of
    the block. *)
Lemma step_cursor_written w st url soup :
  current_url st = Some url ->
  fetch w (iteration st) url = Parsed soup ->
  (written w url soup st).2 = true ->
  current_url (step w st) =
    match resolve_next url soup with
    | Next new_url => if str_eqb new_url url then None else Some new_url
    | _ => None
    end.
Proof.
  intros Hcur Hfetch Hok. rewrite (step_parsed w st url soup Hcur Hfetch), Hok.
  apply follow_next_link_frame.
Qed.

(** C3.  The next URL of a crawl is the stripped href of the next-page
    link resolved against the URL of the page by [urljoin]: after a page
    that is written without fault, whose link has an href that is neither
    blank nor the sentinel and that [urljoin] resolves, the cursor is the
    resolved URL when it differs from the URL of the page, and none when it
    is that URL, and then the loop ends.  After any page the cursor is none
    or such a resolved URL, different from the URL of the page.  So the
    URLs fetched by a crawl never hold the same URL twice in a row. *)
Theorem no_immediate_refetch :
  (forall w st url soup name a href new_url,
      current_url st = Some url ->
      fetch w (iteration st) url = Parsed soup ->
      page_name soup st = Some name ->
      fault w (iteration st) = NoFault ->
      first_such is_next_link (soup_tags soup) a ->
      e_attrs a !! lit "href" = Some href ->
      strip href <> [] ->
      ~ same_ignoring_case (strip href) sentinel_href ->
      urljoin url (strip href) = Some new_url ->
      (new_url <> url -> current_url (step w st) = Some new_url) /\
      (new_url = url ->
       current_url (step w st) = None /\
       forall fuel, crawl_loop fuel w (step w st) = step w st)) /\
  (forall w st url soup,
      current_url st = Some url ->
      fetch w (iteration st) url = Parsed soup ->
      (current_url (step w st) = None \/
       exists a href next,
         first_such is_next_link (soup_tags soup) a /\
         e_attrs a !! lit "href" = Some href /\
         urljoin url (strip href) = Some next /\
         current_url (step w st) = Some next /\
         next <> url) /\
      (resolve_next url soup = Next url ->
       current_url (step w st) = None /\
       forall fuel, crawl_loop fuel w (step w st) = step w st)) /\
  (forall fuel w fs initial_url,
      no_consecutive_repeat
        (gets (trace (crawl_loop fuel w (initial_state fs initial_url))))).
Proof.
  split; [|split].
  - intros w st url soup name a href new_url Hcur Hfetch Hname Hfault
      Ha Hh Hs Hc Hj.
    pose proof (step_cursor_written w st url soup Hcur Hfetch
                  (written_no_fault w url soup st name Hname Hfault)) as Hstep.
    unfold resolve_next in Hstep.
    rewrite (find_next_href_link soup a href Ha Hh Hs Hc), Hj in Hstep.
    split.
    + intros Hne. rewrite Hstep.
      destruct (str_eqb new_url url) eqn:E; [|reflexivity].
      apply str_eqb_eq in E. contradiction.
    + intros ->. assert (Hnone : current_url (step w st) = None).
      { rewrite Hstep. destruct (str_eqb url url) eqn:E; [reflexivity|].
        apply str_eqb_neq in E. contradiction. }
      split; [exact Hnone|]. intros fuel. apply crawl_loop_stopped.
      now rewrite Hnone.
  - intros w st url soup Hcur Hfetch.
    pose proof (step_cursor w st url soup Hcur Hfetch) as Hstep.
    split.
    { destruct Hstep as [H | (next & Hnext & Hr & Hne)]; [now left|].
      right. destruct (resolve_next_origin url soup next Hr)
        as (a & href & Ha & Hh & Hj).
      exists a, href, next. auto. }
    intros Hsame.
    assert (Hnone : current_url (step w st) = None).
    { destruct Hstep as [H | (next & _ & Hr & Hne)]; [exact H | congruence]. }
    split; [exact Hnone|]. intros fuel. apply crawl_loop_stopped.
    now rewrite Hnone.
  - intros fuel w fs initial_url.
    set (I := fun st =>
           no_consecutive_repeat (gets (trace st)) /\
           forall u, current_url st = Some u -> last (gets (trace st)) <> Some u).
    enough (HI : I (crawl_loop fuel w (initial_state fs initial_url)))
      by apply HI.
    apply crawl_loop_invariant.
    + intros st [Hrep Hlast] Htruthy.
      apply truthy_some in Htruthy. destruct Htruthy as (url & Hcur & _).
      unfold I. rewrite (step_gets w st url Hcur). split.
      * apply no_consecutive_repeat_snoc; auto.
      * intros u Hu. rewrite last_snoc. intros [= <-].
        destruct (fetch w (iteration st) url) as [f|soup] eqn:Hfetch.
        -- rewrite (step_failed w st url f Hcur Hfetch) in Hu. discriminate.
        -- destruct (step_cursor w st url soup Hcur Hfetch)
             as [H | (next & H & _ & Hne)]; congruence.
    + split; [|discriminate]. intros i u v Hu. discriminate.
Qed.

(** C6.  A fetch fails when the request raises, by timeout, connection
    failure or otherwise, and when the reply has a status from 400 to 599;
    a reply with any other status is parsed.  A fetch that fails, whatever
    the failure, ends the crawl: the cursor is none, no file and no file
    name changes, the only calls are the one request and the diagnostic
    that names the URL, and the loop makes no further turn.  When it is the
    fetch of the initial URL, the crawl ends with the files as they were, no
    output file name, and the message that no file was created. *)
Theorem fetch_failure_stops :
  (forall w n url,
      match reply w n url with
      | NoReply r => fetch w n url = Failed (failure_of r)
      | Reply status soup =>
          (400 <= status < 600 -> fetch w n url = Failed (BadStatus status)) /\
          (status < 400 \/ 600 <= status -> fetch w n url = Parsed soup)
      end) /\
  (forall w st url f,
      current_url st = Some url ->
      fetch w (iteration st) url = Failed f ->
      current_url (step w st) = None /\
      files (step w st) = files st /\
      output_filename (step w st) = output_filename st /\
      trace (step w st) =
        trace st ++ [Print (MsgProcessing url); Get url;
                     Print (failure_message url f)] /\
      forall fuel, crawl_loop fuel w (step w st) = step w st) /\
  (forall fuel w fs initial_url f,
      initial_url <> [] ->
      fetch w 0%nat initial_url = Failed f ->
      crawl_and_save_all_pages (S fuel) w fs initial_url =
      Some (State None None false fs 1%nat
              [Print (MsgProcessing initial_url); Get initial_url;
               Print (failure_message initial_url f); Print MsgNoFile])).
Proof.
  split; [|split].
  - intros w n url. unfold fetch, raises_for_status.
    destruct (reply w n url) as [r|status soup]; [reflexivity|].
    split.
    + intros [Hlo Hhi]. apply N.leb_le in Hlo. apply N.ltb_lt in Hhi.
      now rewrite Hlo, Hhi.
    + intros [Hlo | Hhi].
      * apply N.leb_gt in Hlo. now rewrite Hlo.
      * apply N.ltb_ge in Hhi. rewrite Hhi. now rewrite andb_false_r.
  - intros w st url f Hcur Hfetch.
    rewrite (step_failed w st url f Hcur Hfetch). cbn [current_url files
      output_filename trace]. repeat split.
    intros fuel. now apply crawl_loop_stopped.
  - intros fuel w fs initial_url f Hne Hfetch.
    unfold crawl_and_save_all_pages. cbn [crawl_loop].
    destruct initial_url as [|c t]; [contradiction|].
    cbn [initial_state current_url truthy].
    rewrite (step_failed w (initial_state fs (c :: t)) (c :: t) f eq_refl Hfetch).
    rewrite crawl_loop_stopped by reflexivity. reflexivity.
Qed.

(** ** The output file *)

(** A block that ends at its end has written all its strings. *)
Lemma run_with_open_done flt name mode (chunks : list str) fs :
  (run_with_open flt name mode chunks fs).2 = BlockDone ->
  (run_with_open flt name mode chunks fs).1.2 !! name =
    Some (match mode with
          | ModeW => []
          | ModeA => default [] (fs !! name)
          end ++ concat chunks).
Proof.
  unfold run_with_open.
  destruct flt as [| | |calls bytes|calls]; cbn [fst snd]; try discriminate.
  - intros _. erewrite write_file_lookup by apply open_file_lookup.
    reflexivity.
  - destruct (calls <? length chunks)%nat; cbn [fst snd]; [discriminate|].
    intros _. erewrite write_file_lookup by apply open_file_lookup.
    reflexivity.
Qed.

Lemma file_fixed_step w name created st :
  file_fixed name created st ->
  truthy (current_url st) = true ->
  file_fixed name created (step w st).
Proof.
  intros (Hname & Hfirst & (n & Hopens) & Hfile) Htruthy.
  apply truthy_some in Htruthy. destruct Htruthy as (url & Hcur & _).
  destruct (fetch w (iteration st) url) as [f|soup] eqn:Hfetch.
  - rewrite (step_failed w st url f Hcur Hfetch).
    repeat split; cbn; try assumption.
    exists n. now rewrite opens_app, app_nil_r.
  - assert (Hpage : page_name soup st = Some name)
      by (unfold page_name; now rewrite Hfirst).
    destruct (step_page w st url soup name Hcur Hfetch Hpage)
      as (Hn & Hp & _ & Ho & Hf).
    unfold page_mode in Ho, Hf. rewrite Hfirst in Ho, Hf.
    repeat split; try assumption.
    + rewrite Ho, Hopens.
      destruct (negb _ || _).
      * exists (S n). cbn [repeat]. rewrite repeat_cons. reflexivity.
      * exists n. now rewrite app_nil_r.
    + intros Hc. rewrite Hf. destruct (negb _ || _); [|auto].
      apply run_with_open_is_Some. auto.
Qed.

(** C5.  When the fetch of the initial URL gives a document, the name of
    the output file is the sanitized title of that document followed by
    .txt, whatever the paragraphs of the page are, and it stays so for the
    rest of the crawl; the first call to [open] is in mode w and every later
    one is in mode a, all of them on that name; the file exists from then
    on, provided that first call to [open] raised nothing. *)
Theorem output_file_fixed_by_first_page :
  forall fuel w fs (initial_url : str) soup,
    initial_url <> [] ->
    fetch w 0%nat initial_url = Parsed soup ->
    let st := crawl_loop (S fuel) w (initial_state fs initial_url) in
    let name := extract_title_for_filename soup ++ lit ".txt" in
    output_filename st = Some name /\
    (exists n, opens (trace st) = (name, ModeW) :: repeat (name, ModeA) n) /\
    (fault w 0%nat <> OpenFails -> fault w 0%nat <> OpenRaises ->
     is_Some (files st !! name)).
Proof.
  intros fuel w fs initial_url soup Hne Hfetch st name. subst st.
  rewrite crawl_loop_first by assumption.
  enough (H : file_fixed name
                (fault w 0%nat <> OpenFails /\ fault w 0%nat <> OpenRaises)
                (crawl_loop fuel w (step w (initial_state fs initial_url)))).
  { destruct H as (H1 & _ & H3 & H4). auto. }
  apply crawl_loop_invariant; [apply file_fixed_step|].
  destruct (step_page w (initial_state fs initial_url) initial_url soup name
              eq_refl Hfetch eq_refl) as (Hn & Hp & _ & Ho & Hf).
  cbn [page_mode initial_state first_page_processed mode_is_w trace files
         iteration opens omap] in Ho, Hf.
  rewrite orb_true_r in Ho, Hf.
  repeat split; try assumption.
  - exists 0%nat. exact Ho.
  - intros [Hok1 Hok2]. rewrite Hf.
    destruct (run_with_open_files (fault w 0%nat) name ModeW
                (page_writes ModeW (extract_relevant_paragraphs soup)) fs)
      as [[[Hbad | Hbad] _] | (_ & _ & extra & -> & _)];
      [contradiction | contradiction | eauto].
Qed.

(** ** The separator between pages *)

Lemma starts_with_app (prefix a b : str) :
  starts_with prefix a = true -> starts_with prefix (a ++ b) = true.
Proof.
  rewrite !starts_with_spec. intros (rest & ->).
  exists (rest ++ b). now rewrite app_assoc.
Qed.

(** All that is written for a later page is nothing, or begins with the
    separator; the latter when the page has a paragraph. *)
Lemma page_writes_separated (paragraphs : list str) :
  let extra := concat (page_writes ModeA paragraphs) in
  (extra = [] \/ starts_with newlines extra = true) /\
  (paragraphs <> [] -> starts_with newlines extra = true).
Proof.
  rewrite page_writes_spec. destruct paragraphs as [|p ps].
  - split; [now left | congruence].
  - split; [right | intros _]; reflexivity.
Qed.

(** The output file after a turn of a later page holds what it held and
    then something more, or nothing more.  When the loop goes on after the
    turn that is nothing, or something that begins with the separator; it
    begins with the separator when the page has paragraphs and there is no
    fault. *)
Lemma content_step w st url name (old : str) :
  current_url st = Some url ->
  output_filename st = Some name ->
  first_page_processed st = true ->
  files st !! name = Some old ->
  exists extra,
    files (step w st) !! name = Some (old ++ extra) /\
    (truthy (current_url (step w st)) = true ->
     extra = [] \/ starts_with newlines extra = true) /\
    (forall soup,
        fetch w (iteration st) url = Parsed soup ->
        extract_relevant_paragraphs soup <> [] ->
        fault w (iteration st) = NoFault ->
        starts_with newlines extra = true).
Proof.
  intros Hcur Hname Hfirst Hold.
  destruct (fetch w (iteration st) url) as [f|soup] eqn:Hfetch.
  - rewrite (step_failed w st url f Hcur Hfetch). cbn [files].
    exists []. rewrite app_nil_r. split; [assumption|].
    split; [now left | discriminate].
  - assert (Hpage : page_name soup st = Some name)
      by (unfold page_name; now rewrite Hfirst).
    destruct (step_page w st url soup name Hcur Hfetch Hpage)
      as (_ & _ & _ & _ & Hf).
    destruct (written_frame w url soup st name Hpage)
      as (_ & _ & _ & Hc & _ & Hok).
    unfold page_mode in Hf, Hok. rewrite Hfirst in Hf, Hok.
    unfold is_written in Hok.
    cbn [mode_is_w] in Hf, Hok. rewrite orb_false_r in Hf, Hok. rewrite Hf.
    destruct (extract_relevant_paragraphs soup) as [|p ps] eqn:Hps.
    + cbn [is_empty_list negb]. exists []. rewrite app_nil_r.
      split; [assumption|]. split; [now left|].
      intros soup' [= <-]. congruence.
    + cbn [is_empty_list negb] in Hok |- *.
      destruct (run_with_open_files (fault w (iteration st)) name ModeA
                  (page_writes ModeA (p :: ps)) (files st))
        as [[Hbad ->] | (_ & _ & extra & Hextra & Hall)].
      * exists []. rewrite app_nil_r. split; [assumption|]. split.
        -- now left.
        -- intros _ _ _ Hno. rewrite Hno in Hbad.
           destruct Hbad; discriminate.
      * rewrite Hextra, Hold. cbn [default].
        exists extra. split; [reflexivity|].
        destruct (page_writes_separated (p :: ps)) as [_ Hsep].
        cbv zeta in Hsep. split.
        -- intros Htruthy. right.
           rewrite (step_parsed w st url soup Hcur Hfetch) in Htruthy.
           destruct (written w url soup st).2 eqn:Hw.
           ++ destruct (run_with_open (fault w (iteration st)) name ModeA
                          (page_writes ModeA (p :: ps)) (files st)).2 eqn:Hb;
                try discriminate.
              pose proof (run_with_open_done _ _ _ _ _ Hb) as Hdone.
              rewrite Hextra, Hold in Hdone. cbn [default] in Hdone.
              injection Hdone as Hdone. apply app_inv_head in Hdone.
              rewrite Hdone. now apply Hsep.
           ++ rewrite Hc in Htruthy. discriminate.
        -- intros soup' [= <-] _ Hno. rewrite (Hall Hno). now apply Hsep.
Qed.

Lemma content_is_step w name (P : str -> Prop) st :
  (forall c extra, P c -> P (c ++ extra)) ->
  content_is name P st ->
  truthy (current_url st) = true ->
  content_is name P (step w st).
Proof.
  intros HP (Hname & Hfirst & c & Hc & HPc) Htruthy.
  apply truthy_some in Htruthy. destruct Htruthy as (url & Hcur & _).
  destruct (content_step w st url name c Hcur Hname Hfirst Hc)
    as (extra & Hfile & _).
  assert (Hframe : output_filename (step w st) = Some name /\
                   first_page_processed (step w st) = true).
  { destruct (fetch w (iteration st) url) as [f|soup] eqn:Hfetch.
    - rewrite (step_failed w st url f Hcur Hfetch). auto.
    - assert (Hpage : page_name soup st = Some name)
        by (unfold page_name; now rewrite Hfirst).
      destruct (step_page w st url soup name Hcur Hfetch Hpage)
        as (Hn & Hp & _); auto. }
  destruct Hframe as [Hn Hp]. repeat split; try assumption.
  exists (c ++ extra). auto.
Qed.

Lemma separated_app (c extra : str) : separated c -> separated (c ++ extra).
Proof. unfold separated. apply starts_with_app. Qed.

(** While the loop goes on after a first page without paragraphs, the
    output file is empty or begins with the separator. *)
Lemma going_on_step w name st :
  (output_filename st = Some name /\
   first_page_processed st = true /\
   (truthy (current_url st) = true ->
    exists c, files st !! name = Some c /\ empty_or_separated c)) ->
  truthy (current_url st) = true ->
  output_filename (step w st) = Some name /\
  first_page_processed (step w st) = true /\
  (truthy (current_url (step w st)) = true ->
   exists c, files (step w st) !! name = Some c /\ empty_or_separated c).
Proof.
  intros (Hname & Hfirst & Hfile) Htruthy.
  destruct (Hfile Htruthy) as (c & Hc & HPc).
  apply truthy_some in Htruthy. destruct Htruthy as (url & Hcur & _).
  destruct (content_step w st url name c Hcur Hname Hfirst Hc)
    as (extra & Hnew & Hextra & _).
  assert (Hframe : output_filename (step w st) = Some name /\
                   first_page_processed (step w st) = true).
  { destruct (fetch w (iteration st) url) as [f|soup] eqn:Hfetch.
    - rewrite (step_failed w st url f Hcur Hfetch). auto.
    - assert (Hpage : page_name soup st = Some name)
        by (unfold page_name; now rewrite Hfirst).
      destruct (step_page w st url soup name Hcur Hfetch Hpage)
        as (Hn & Hp & _); auto. }
  destruct Hframe as [Hn Hp]. repeat split; try assumption.
  intros Hon. exists (c ++ extra). split; [assumption|].
  unfold empty_or_separated in *.
  destruct HPc as [-> | HPc]; [|right; now apply starts_with_app].
  destruct (Hextra Hon) as [-> | He]; auto.
Qed.

(** C10.  When the first page, fetched and written, has no paragraph, and
    the crawl comes to a later page that has a paragraph and is written
    without a fault, the output file begins with the two-newline separator
    from then on. *)
Theorem separator_after_empty_first_page :
  forall turns w fs (initial_url : str) soup0,
    initial_url <> [] ->
    fetch w 0%nat initial_url = Parsed soup0 ->
    extract_relevant_paragraphs soup0 = [] ->
    let name := extract_title_for_filename soup0 ++ lit ".txt" in
    let st := crawl_loop (S turns) w (initial_state fs initial_url) in
    forall url soup,
      current_url st = Some url ->
      url <> [] ->
      fetch w (iteration st) url = Parsed soup ->
      extract_relevant_paragraphs soup <> [] ->
      fault w (iteration st) = NoFault ->
      forall fuel, content_is name separated (crawl_loop (S fuel) w st).
Proof.
  intros turns w fs initial_url soup0 Hne Hfetch Hps name st
    url soup Hcur Hurl Hsoup Hpars Hflt fuel.
  assert (Htruthy : truthy (current_url st) = true)
    by (rewrite Hcur; now apply truthy_of_some).
  assert (Hst : output_filename st = Some name /\
                first_page_processed st = true /\
                (truthy (current_url st) = true ->
                 exists c, files st !! name = Some c /\ empty_or_separated c)).
  { subst st. rewrite crawl_loop_first by assumption.
    apply (crawl_loop_invariant w
             (fun s => output_filename s = Some name /\
                       first_page_processed s = true /\
                       (truthy (current_url s) = true ->
                        exists c, files s !! name = Some c /\
                                  empty_or_separated c)));
      [apply going_on_step|].
    set (st0 := initial_state fs initial_url).
    destruct (step_page w st0 initial_url soup0 name eq_refl Hfetch eq_refl)
      as (Hn & Hp & _ & _ & Hf).
    destruct (written_frame w initial_url soup0 st0 name eq_refl)
      as (_ & _ & _ & Hc & _ & Hok).
    cbn [page_mode st0 initial_state first_page_processed mode_is_w files
           iteration] in Hf, Hok.
    unfold is_written in Hok. cbn [mode_is_w] in Hok.
    rewrite orb_true_r, Hps in Hf, Hok.
    repeat split; try assumption.
    intros Hon. exists []. split; [|now left].
    rewrite (step_parsed w st0 initial_url soup0 eq_refl Hfetch) in Hon.
    destruct (written w initial_url soup0 st0).2 eqn:Hw.
    - destruct (run_with_open (fault w 0%nat) name ModeW
                  (page_writes ModeW []) fs).2 eqn:Hb; try discriminate.
      rewrite Hf. now rewrite (run_with_open_done _ _ _ _ _ Hb).
    - rewrite Hc in Hon. discriminate. }
  destruct Hst as (Hname & Hfirst & Hfile).
  destruct (Hfile Htruthy) as (c & Hc & HPc).
  cbn [crawl_loop]. rewrite Htruthy.
  apply crawl_loop_invariant.
  { intros s. apply content_is_step. apply separated_app. }
  destruct (content_step w st url name c Hcur Hname Hfirst Hc)
    as (extra & Hnew & _ & Hsep).
  specialize (Hsep soup Hsoup Hpars Hflt).
  destruct (step_page w st url soup name Hcur Hsoup) as (Hn & Hp & _).
  { unfold page_name. now rewrite Hfirst. }
  repeat split; try assumption.
  exists (c ++ extra). split; [assumption|].
  unfold separated. destruct HPc as [-> | HPc];
    [exact Hsep | now apply starts_with_app].
Qed.

(** ** The exception of [urljoin] *)

(** The page of a turn has a file name as soon as the two variables
    [first_page_processed] and [output_filename] agree. *)
Lemma page_name_some soup st :
  (first_page_processed st = true -> is_Some (output_filename st)) ->
  exists name, page_name soup st = Some name.
Proof.
  intros H. unfold page_name. destruct (first_page_processed st); [|eauto].
  destruct (H eq_refl) as [name ->]. eauto.
Qed.

Lemma flags_agree_step w st :
  flags_agree st -> truthy (current_url st) = true ->
  flags_agree (step w st).
Proof.
  intros [H1 H2] Htruthy.
  apply truthy_some in Htruthy. destruct Htruthy as (url & Hcur & _).
  destruct (fetch w (iteration st) url) as [f|soup] eqn:Hfetch.
  - rewrite (step_failed w st url f Hcur Hfetch). split; assumption.
  - destruct (page_name_some soup st H1) as [name Hname].
    destruct (step_page w st url soup name Hcur Hfetch Hname)
      as (Hn & Hp & _).
    split; [rewrite Hn; eauto | congruence].
Qed.

Lemma flags_agree_crawl fuel w fs (initial_url : str) :
  flags_agree (crawl_loop fuel w (initial_state fs initial_url)).
Proof.
  apply crawl_loop_invariant; [apply flags_agree_step|].
  split; [discriminate | reflexivity].
Qed.

Lemma has_crashed_last (tr : list event) (c : crash) :
  last tr = Some (Uncaught c) -> has_crashed tr = true.
Proof.
  intros Hlast. destruct (last_Some tr (Uncaught c)) as [(l & ->) _];
    [exact Hlast|].
  rewrite has_crashed_app. cbn. apply orb_true_r.
Qed.

(** A crawl whose loop has ended on an exception returns the state of the
    loop: the lines after the loop are not run. *)
Lemma crawl_ends_on_crash fuel w fs (initial_url : str) (c : crash) :
  let st := crawl_loop fuel w (initial_state fs initial_url) in
  current_url st = None ->
  last (trace st) = Some (Uncaught c) ->
  crawl_and_save_all_pages fuel w fs initial_url = Some st.
Proof.
  intros st Hcur Hlast. unfold crawl_and_save_all_pages. fold st.
  rewrite Hcur. cbn [truthy].
  now rewrite (has_crashed_last _ c Hlast).
Qed.

(** C2.  The pagination resolver gives no next URL exactly when the
    document has no anchor with id pt_next and class Readpage_up, or the
    first such anchor has no href or one that is blank once stripped, or its
    stripped href equals the sentinel up to case.  In every other case the
    stripped href goes to [urljoin] with the current URL: the resolver
    gives the URL that [urljoin] returns, and gives none when [urljoin]
    raises.  In a crawl the exception of [urljoin] is caught nowhere: the
    run ends on it, right after the page was written, without the closing
    message. *)
Theorem resolve_next_spec (current : str) (soup : list node) :
  (resolve_next current soup = NoNext <->
   Forall (fun e => ~ is_next_link e) (soup_tags soup) \/
   exists a, first_such is_next_link (soup_tags soup) a /\
     (e_attrs a !! lit "href" = None \/
      exists href, e_attrs a !! lit "href" = Some href /\
        (strip href = [] \/ same_ignoring_case (strip href) sentinel_href))) /\
  (forall a href,
      first_such is_next_link (soup_tags soup) a ->
      e_attrs a !! lit "href" = Some href ->
      strip href <> [] ->
      ~ same_ignoring_case (strip href) sentinel_href ->
      resolve_next current soup =
        match urljoin current (strip href) with
        | Some new_url => Next new_url
        | None => ResolutionRaises
        end) /\
  (forall turns w fs initial_url,
      let st := crawl_loop turns w (initial_state fs initial_url) in
      current_url st = Some current ->
      current <> [] ->
      fetch w (iteration st) current = Parsed soup ->
      fault w (iteration st) = NoFault ->
      resolve_next current soup = ResolutionRaises ->
      last (trace (step w st)) = Some (Uncaught UrljoinRaised) /\
      forall more,
        crawl_and_save_all_pages (turns + S more) w fs initial_url =
        Some (step w st)).
Proof.
  split; [|split].
  - unfold resolve_next.
    destruct (find_next_href_cases soup)
      as [[-> Hnone]
         | (a & Ha & [[-> Hh]
                     | (href & Hh & [[-> Hs] | [(-> & Hs & Hc) | (-> & Hs & Hc)]])])].
    + split; [now left | reflexivity].
    + split; [|reflexivity]. intros _. right. exists a. auto.
    + split; [|reflexivity]. intros _. right. exists a.
      split; [assumption|]. right. exists href. auto.
    + split; [|reflexivity]. intros _. right. exists a.
      split; [assumption|]. right. exists href. auto.
    + assert (Hno : ~ (Forall (fun e => ~ is_next_link e) (soup_tags soup) \/
                       exists b, first_such is_next_link (soup_tags soup) b /\
                         (e_attrs b !! lit "href" = None \/
                          exists href', e_attrs b !! lit "href" = Some href' /\
                            (strip href' = [] \/
                             same_ignoring_case (strip href') sentinel_href)))).
      { intros [Hnone | (b & Hb & [Hn | (href' & Hh' & [Hs' | Hc'])])].
        - apply find_next_link_none in Hnone.
          apply find_next_link_some in Ha. congruence.
        - rewrite <- (first_next_link_unique soup a b Ha Hb) in Hn. congruence.
        - rewrite <- (first_next_link_unique soup a b Ha Hb) in Hh'.
          assert (href' = href) by congruence. subst. contradiction.
        - rewrite <- (first_next_link_unique soup a b Ha Hb) in Hh'.
          assert (href' = href) by congruence. subst. contradiction. }
      destruct (urljoin current (strip href)); split;
        try discriminate; intros H; contradiction.
  - intros a href Ha Hh Hs Hc. unfold resolve_next.
    now rewrite (find_next_href_link soup a href Ha Hh Hs Hc).
  - intros turns w fs initial_url st Hcur Hne Hfetch Hfault Hraises.
    destruct (flags_agree_crawl turns w fs initial_url) as [Hflags _].
    fold st in Hflags.
    destruct (page_name_some soup st Hflags) as [name Hname].
    pose proof (written_no_fault w current soup st name Hname Hfault) as Hok.
    assert (Hstep : step w st =
                    follow_next_link current soup (written w current soup st).1)
      by (now rewrite (step_parsed w st current soup Hcur Hfetch), Hok).
    destruct (follow_next_link_crash current soup (written w current soup st).1)
      as [(Hnot & _) | (_ & Hlast & Hnone)]; [contradiction|].
    rewrite <- Hstep in Hlast, Hnone.
    split; [exact Hlast|]. intros more.
    assert (Hloop : crawl_loop (turns + S more) w (initial_state fs initial_url)
                    = step w st).
    { rewrite crawl_loop_app. fold st. cbn [crawl_loop].
      rewrite Hcur, (truthy_of_some current Hne).
      apply crawl_loop_stopped. now rewrite Hnone. }
    pose proof (crawl_ends_on_crash (turns + S more) w fs initial_url
                  UrljoinRaised) as Hend.
    cbv zeta in Hend. rewrite Hloop in Hend. now apply Hend.
Qed.

(** * Further properties *)

(** ** More on sanitize_filename *)

Lemma drop_while_app_all p (pre s : str) :
  Forall (fun c => p c = true) pre ->
  drop_while p (pre ++ s) = drop_while p s.
Proof.
  induction 1 as [|c pre Hc Hpre IH]; simpl; [reflexivity|].
  now rewrite Hc.
Qed.

Lemma drop_while_app_keep p (s post : str) :
  drop_while p s <> [] ->
  drop_while p (s ++ post) = drop_while p s ++ post.
Proof.
  induction s as [|c s IH]; simpl; [congruence|].
  destruct (p c); [exact IH | reflexivity].
Qed.

Lemma rstrip_by_app_all p (s post : str) :
  Forall (fun c => p c = true) post ->
  rstrip_by p (s ++ post) = rstrip_by p s.
Proof.
  intros H. unfold rstrip_by. rewrite rev_app_distr.
  rewrite drop_while_app_all by now apply Forall_rev. reflexivity.
Qed.

(** Whitespace around a string does not change what [strip] gives. *)
Lemma strip_by_margins p (pre s post : str) :
  Forall (fun c => p c = true) pre ->
  Forall (fun c => p c = true) post ->
  strip_by p (pre ++ s ++ post) = strip_by p s.
Proof.
  intros Hpre Hpost. unfold strip_by, lstrip_by.
  rewrite drop_while_app_all by assumption.
  destruct (drop_while p s) as [|c t] eqn:E.
  - apply drop_while_nil in E.
    assert (H : drop_while p (s ++ post) = []).
    { apply drop_while_nil, Forall_app. auto. }
    now rewrite H.
  - rewrite drop_while_app_keep by congruence. rewrite E.
    now apply rstrip_by_app_all.
Qed.

Lemma re_sub_spaces_from_Forall (P : N -> Prop) b (s : str) :
  P 95 -> Forall P s -> Forall P (re_sub_spaces_from b s).
Proof.
  intros H95 H. revert b. induction H as [|c t Hc Ht IH]; intros b; simpl;
    [constructor|].
  destruct (isspace c); [destruct b|]; auto.
Qed.

Lemma sanitize_transform_Forall (P : N -> Prop) (s : str) :
  P 95 -> Forall P s -> Forall P (sanitize_transform s).
Proof.
  intros H95 H. unfold sanitize_transform.
  apply Forall_take, re_sub_forbidden_Forall, re_sub_spaces_from_Forall;
    [assumption|].
  now apply strip_by_Forall.
Qed.

Lemma sanitize_transform_id (s : str) :
  Forall (fun c => isspace c = false) s ->
  Forall (fun c => is_forbidden c = false) s ->
  (length s <= 200)%nat ->
  sanitize_transform s = s.
Proof.
  intros Hsp Hclean Hlen. unfold sanitize_transform, strip, re_sub_spaces.
  rewrite strip_by_id, re_sub_spaces_from_id, re_sub_forbidden_id
    by assumption.
  now apply take_ge.
Qed.

Lemma strip_dots_nil (s : str) :
  strip_chars dot s = [] <-> Forall (fun c => c = 46) s.
Proof.
  unfold strip_chars. rewrite strip_by_nil. apply Forall_iff. intros c.
  rewrite bool_decide_eq_true. unfold dot. change (lit ".") with [46].
  rewrite elem_of_cons, elem_of_nil. tauto.
Qed.

Lemma untitled_shape :
  untitled <> [] /\
  Forall (fun c => isspace c = false) untitled /\
  Forall (fun c => is_forbidden c = false) untitled /\
  ~ Forall (fun c => c = 46) untitled.
Proof.
  split; [discriminate|]. split; [|split].
  - apply (bool_decide_unpack _). vm_compute. exact I.
  - apply (bool_decide_unpack _). vm_compute. exact I.
  - intros H. apply Forall_inv in H. discriminate.
Qed.

(** The shape of every result of [sanitize_filename]. *)
Lemma sanitize_shape (s : str) :
  sanitize_filename s <> [] /\
  Forall (fun c => isspace c = false) (sanitize_filename s) /\
  Forall (fun c => is_forbidden c = false) (sanitize_filename s) /\
  (length (sanitize_filename s) <= 200)%nat /\
  ~ Forall (fun c => c = 46) (sanitize_filename s).
Proof.
  destruct (sanitize_cases s) as [-> | (-> & Hne & Hdots & _)].
  - destruct untitled_shape as (H1 & H2 & H3 & H4).
    repeat split; try assumption. vm_compute. lia.
  - repeat split.
    + assumption.
    + apply sanitize_transform_no_space.
    + apply sanitize_transform_clean.
    + apply sanitize_transform_length.
    + intros H. now apply Hdots, strip_dots_nil.
Qed.

(** X1.  A result of [sanitize_filename] is never empty, holds no
    whitespace, is not made of dots only, and, unless it is [untitled], is
    made of underscores and of characters of the input. *)
Theorem sanitize_filename_wellformed (s : str) :
  sanitize_filename s <> [] /\
  Forall (fun c => isspace c = false) (sanitize_filename s) /\
  ~ Forall (fun c => c = 46) (sanitize_filename s) /\
  (sanitize_filename s = untitled \/
   Forall (fun c => c = 95 \/ c ∈ s) (sanitize_filename s)).
Proof.
  destruct (sanitize_shape s) as (H1 & H2 & _ & _ & H5).
  repeat split; try assumption.
  destruct (sanitize_cases s) as [-> | (-> & _)]; [now left | right].
  apply sanitize_transform_Forall; [now left|].
  apply Forall_forall. auto.
Qed.

(** X2.  [sanitize_filename] gives back its argument exactly when the
    argument is [untitled] or is clean: not empty, without whitespace and
    without removed characters, of at most 200 characters, not made of dots
    only and not [untitled] up to case. *)
Theorem sanitize_filename_fixed_points (s : str) :
  sanitize_filename s = s <-> s = untitled \/ clean s.
Proof.
  split.
  - intros Hfix.
    destruct (sanitize_cases s) as [H | (H & Hne & Hdots & Hlow)].
    + left. congruence.
    + right. rewrite Hfix in H. rewrite <- H in Hne, Hdots, Hlow.
      unfold clean. repeat split.
      * assumption.
      * rewrite H. apply sanitize_transform_no_space.
      * rewrite H. apply sanitize_transform_clean.
      * rewrite H. apply sanitize_transform_length.
      * intros Hall. now apply Hdots, strip_dots_nil.
      * exact Hlow.
  - intros [-> | (Hne & Hsp & Hclean & Hlen & Hdots & Hlow)].
    + apply sanitize_untitled.
    + unfold sanitize_filename.
      rewrite (sanitize_transform_id s Hsp Hclean Hlen).
      apply is_empty_false in Hne. rewrite Hne. cbv zeta. cbn [orb].
      assert (E2 : str_eqb (strip_chars dot s) [] = false).
      { apply str_eqb_neq. intros H. now apply Hdots, strip_dots_nil. }
      assert (E3 : str_eqb (lower s) untitled = false)
        by (apply str_eqb_neq; exact Hlow).
      now rewrite E2, E3.
Qed.

(** X3.  Whitespace before and after a string does not change what
    [sanitize_filename] gives for it. *)
Theorem sanitize_filename_ignores_margins (pre s post : str) :
  Forall (fun c => isspace c = true) pre ->
  Forall (fun c => isspace c = true) post ->
  sanitize_filename (pre ++ s ++ post) = sanitize_filename s.
Proof.
  intros Hpre Hpost.
  rewrite <- (sanitize_strip (pre ++ s ++ post)), <- (sanitize_strip s).
  unfold strip. now rewrite strip_by_margins.
Qed.

(** ** More on extract_relevant_paragraphs *)

Lemma drop_while_suffix p (s : str) :
  exists pre, s = pre ++ drop_while p s.
Proof.
  induction s as [|c s IH]; simpl; [now exists []|].
  destruct (p c); [|now exists []].
  destruct IH as [pre IH]. exists (c :: pre). simpl. now rewrite <- IH.
Qed.

(** What [strip] gives is empty or trimmed. *)
Lemma strip_trimmed (s : str) : strip s <> [] -> trimmed (strip s).
Proof.
  unfold strip, strip_by, rstrip_by, lstrip_by. intros Hne.
  destruct (drop_while isspace (rev (drop_while isspace s))) as [|c t] eqn:E;
    [contradiction|].
  pose proof (drop_while_head _ _ _ _ E) as Hc.
  split.
  - destruct (drop_while_suffix isspace (rev (drop_while isspace s)))
      as [pre Hpre].
    rewrite E in Hpre. apply (f_equal (@rev N)) in Hpre.
    rewrite rev_involutive, rev_app_distr in Hpre.
    destruct (rev (c :: t)) as [|a r] eqn:Er.
    { apply (f_equal (@rev N)) in Er. rewrite rev_involutive in Er.
      discriminate. }
    exists a, r. split; [reflexivity|].
    simpl in Hpre. eapply drop_while_head. exact Hpre.
  - exists (rev t), c. split; [reflexivity | exact Hc].
Qed.

Lemma trimmed_app (a b : str) : trimmed a -> trimmed b -> trimmed (a ++ b).
Proof.
  intros [(c & t & -> & Hc) _] [_ (t' & c' & -> & Hc')]. split.
  - exists c, (t ++ t' ++ [c']). auto.
  - exists ((c :: t) ++ t'), c'. split; [now rewrite app_assoc | exact Hc'].
Qed.

Lemma trimmed_strip (s : str) : trimmed s -> strip s = s.
Proof.
  intros [(c & t & -> & Hc) (t' & c' & Heq & Hc')].
  unfold strip, strip_by, rstrip_by, lstrip_by. simpl drop_while at 2.
  rewrite Hc, Heq, rev_app_distr. simpl. rewrite Hc'.
  change (rev (c' :: rev t') = t' ++ [c']). simpl.
  now rewrite rev_involutive.
Qed.

Lemma trimmed_concat (pieces : list str) :
  Forall trimmed pieces -> pieces <> [] -> trimmed (concat pieces).
Proof.
  induction 1 as [|x rest Hx Hrest IH]; [congruence|]. intros _.
  destruct rest as [|y rest]; simpl.
  - now rewrite app_nil_r.
  - apply trimmed_app; [assumption|]. apply IH. discriminate.
Qed.

Lemma get_text_strip_trimmed (e : element) :
  get_text_strip e <> [] -> trimmed (get_text_strip e).
Proof.
  unfold get_text_strip. intros Hne. apply trimmed_concat.
  - apply List.Forall_forall. intros x Hx. apply filter_In in Hx.
    destruct Hx as [Hin Hx]. apply in_map_iff in Hin.
    destruct Hin as (s & <- & _). apply strip_trimmed.
    apply negb_true_iff in Hx. now apply is_empty_false.
  - intros H. rewrite H in Hne. now apply Hne.
Qed.

(** X4.  Every text that [extract_relevant_paragraphs] returns is trimmed:
    it is not empty, it begins and ends with a character that is not
    whitespace, and [strip] leaves it as it is.  There are at most as many
    texts as the document has [p] tags. *)
Theorem extracted_paragraphs_trimmed (soup : list node) :
  Forall (fun text => trimmed text /\ strip text = text)
         (extract_relevant_paragraphs soup) /\
  (length (extract_relevant_paragraphs soup)
   <= length (find_all (lit "p") soup))%nat.
Proof.
  unfold extract_relevant_paragraphs. rewrite paragraph_loop_spec. simpl.
  split.
  - apply List.Forall_forall. intros text Hin. apply in_map_iff in Hin.
    destruct Hin as (e & <- & He). apply list_elem_of_In in He.
    apply list_elem_of_filter in He. destruct He as [(_ & _ & Hne) _].
    pose proof (get_text_strip_trimmed e Hne) as Ht.
    split; [exact Ht | now apply trimmed_strip].
  - rewrite length_map. apply length_filter.
Qed.

Lemma is_in_excluded_section_app (pre parents : list str) :
  is_in_excluded_section parents = true ->
  is_in_excluded_section (pre ++ parents) = true.
Proof.
  intros H. induction pre as [|name pre IH]; simpl; [exact H|].
  now destruct (bool_decide (name ∈ excluded_sections)).
Qed.

(** The ancestors of a tag found below a node end with the ancestors of
    that node. *)
Lemma tags_under_parents (n : node) :
  forall (parents : list str) (e : element),
    In e (tags_under parents n) ->
    exists pre, e_parents e = pre ++ parents.
Proof.
  revert n. fix IH 1. intros [name cls attrs children|s|s] parents e;
    simpl; [|contradiction|contradiction].
  intros [<- | Hin]; [now exists []|].
  induction children as [|c rest IHrest]; simpl in Hin; [contradiction|].
  apply in_app_or in Hin. destruct Hin as [Hin | Hin].
  - destruct (IH c _ _ Hin) as [pre Hpre]. exists (pre ++ [name]).
    now rewrite <- app_assoc.
  - now apply IHrest.
Qed.

Lemma filter_relevant_none (l : list element) :
  Forall (fun e => ~ relevant e) l -> filter relevant l = [].
Proof.
  induction 1 as [|e l He Hl IH]; [reflexivity|].
  rewrite filter_cons, decide_False by assumption. exact IH.
Qed.

Lemma find_all_app (name : str) (a b : list node) :
  find_all name (a ++ b) = find_all name a ++ find_all name b.
Proof.
  unfold find_all, soup_tags. now rewrite flat_map_app, List.filter_app.
Qed.

(** X5.  The paragraphs of a document made of two runs of nodes are those
    of the first run followed by those of the second.  A tag named header,
    footer, nav or aside at the top level of the document contributes no
    paragraph, whatever it holds, and the document without it has the same
    paragraphs.  Wherever such a tag lies, every tag below it, at any
    depth, is in an excluded section and is not a paragraph that counts. *)
Theorem extract_relevant_paragraphs_compose :
  (forall a b : list node,
      extract_relevant_paragraphs (a ++ b) =
      extract_relevant_paragraphs a ++ extract_relevant_paragraphs b) /\
  (forall name cls attrs children,
      name ∈ excluded_sections ->
      extract_relevant_paragraphs [Tag name cls attrs children] = []) /\
  (forall name cls attrs children (before after : list node),
      name ∈ excluded_sections ->
      extract_relevant_paragraphs
        (before ++ Tag name cls attrs children :: after) =
      extract_relevant_paragraphs (before ++ after)) /\
  (forall name cls attrs children (parents : list str) (e : element),
      name ∈ excluded_sections ->
      In e (tags_under parents (Tag name cls attrs children)) ->
      e <> Element name cls attrs children parents ->
      is_in_excluded_section (e_parents e) = true /\ ~ relevant e).
Proof.
  assert (Happ : forall a b : list node,
             extract_relevant_paragraphs (a ++ b) =
             extract_relevant_paragraphs a ++ extract_relevant_paragraphs b).
  { intros a b. unfold extract_relevant_paragraphs.
    rewrite find_all_app, fold_left_app, !paragraph_loop_spec.
    reflexivity. }
  assert (Hexcl : forall name cls attrs children,
             name ∈ excluded_sections ->
             extract_relevant_paragraphs [Tag name cls attrs children] = []).
  { intros name cls attrs children Hname.
    unfold extract_relevant_paragraphs. rewrite paragraph_loop_spec. simpl.
    replace (filter relevant (find_all (lit "p") [Tag name cls attrs children]))
      with (@nil element); [reflexivity|].
    symmetry. apply filter_relevant_none, List.Forall_forall.
    intros e He (_ & Hpar & _).
    unfold find_all, soup_tags in He. apply filter_In in He.
    destruct He as [He Hp]. simpl in He. rewrite app_nil_r in He.
    destruct He as [<- | He].
    - apply str_eqb_eq in Hp. simpl in Hp. subst name.
      revert Hname. apply (bool_decide_unpack _). vm_compute. exact I.
    - assert (Hin : In e (tags_under [document_name]
                            (Tag name cls attrs children)))
        by (simpl; now right).
      clear He.
      assert (Hch : exists pre, e_parents e = pre ++ [name; document_name]).
      { simpl in Hin. destruct Hin as [<- | Hin].
        - exfalso. apply str_eqb_eq in Hp. simpl in Hp. subst name.
          revert Hname. apply (bool_decide_unpack _). vm_compute. exact I.
        - apply in_flat_map in Hin. destruct Hin as (c & _ & Hc).
          now apply tags_under_parents in Hc. }
      destruct Hch as [pre Hpre].
      apply is_in_excluded_section_false in Hpar.
      rewrite Hpre, is_in_excluded_section_app in Hpar; [discriminate|].
      simpl. now rewrite bool_decide_eq_true_2. }
  split; [exact Happ|]. split; [exact Hexcl|]. split.
  - intros name cls attrs children before after Hname.
    rewrite !Happ.
    change (Tag name cls attrs children :: after)
      with ([Tag name cls attrs children] ++ after).
    now rewrite Happ, Hexcl.
  - intros name cls attrs children parents e Hname Hin Hne.
    assert (Hex : is_in_excluded_section (e_parents e) = true).
    { cbn [tags_under] in Hin. destruct Hin as [<- | Hin]; [contradiction|].
      apply in_flat_map in Hin. destruct Hin as (c & _ & Hc).
      apply tags_under_parents in Hc. destruct Hc as [pre ->].
      apply is_in_excluded_section_app. simpl.
      now rewrite bool_decide_eq_true_2. }
    split; [exact Hex|]. intros (_ & Hpar & _).
    apply is_in_excluded_section_false in Hpar. congruence.
Qed.

(** ** More on extract_title_for_filename *)

Lemma split_once_absent (sep s : str) :
  str_contains sep s = false -> split_once sep s = [s].
Proof.
  induction s as [|c t IH]; cbn [str_contains split_once].
  - rewrite orb_false_r. now intros ->.
  - intros H. apply orb_false_iff in H. destruct H as [Hs Ht].
    rewrite Hs, (IH Ht). reflexivity.
Qed.

(** X6.  Splitting once gives exactly two parts whenever the separator is
    in the text, so the handler of [IndexError] at lines 47 to 50 is never
    entered; it gives the text alone when the separator is not in it; and
    joining the parts with the separator gives the text back. *)
Theorem split_once_parts (sep s : str) :
  (str_contains sep s = true ->
   exists before after,
     split_once sep s = [before; after] /\ s = before ++ sep ++ after) /\
  (str_contains sep s = false -> split_once sep s = [s]) /\
  join sep (split_once sep s) = s.
Proof.
  assert (H1 : str_contains sep s = true ->
               exists before after,
                 split_once sep s = [before; after] /\
                 s = before ++ sep ++ after).
  { intros H. apply str_contains_spec, occurs_first in H.
    destruct H as (before & after & Hfirst).
    exists before, after. split; [now apply split_once_first | apply Hfirst]. }
  split; [exact H1|]. split; [apply split_once_absent|].
  destruct (str_contains sep s) eqn:E.
  - destruct (H1 eq_refl) as (before & after & -> & Hs). now rewrite Hs.
  - now rewrite split_once_absent.
Qed.

(** ** More on the next page link *)

(** X7.  The href that the loop hands to [urljoin] is never empty, has no
    whitespace at either end and is not the sentinel; the href on which it
    reports the last page is the sentinel up to case. *)
Theorem find_next_href_shape (soup : list node) (href : str) :
  (find_next_href soup = NextHref href ->
   trimmed href /\ strip href = href /\
   ~ same_ignoring_case href sentinel_href) /\
  (find_next_href soup = LastPage href ->
   trimmed href /\ same_ignoring_case href sentinel_href).
Proof.
  destruct (find_next_href_cases soup)
    as [[-> _]
       | (a & _ & [[-> _]
                  | (raw & _ & [[-> _] | [(-> & Hne & Hc) | (-> & Hne & Hc)]])])];
    (split; intros Heq; try discriminate; injection Heq as <-).
  - split; [now apply strip_trimmed | exact Hc].
  - split; [now apply strip_trimmed|]. split; [apply strip_twice | exact Hc].
Qed.

(** ** More on the crawl: the variables and the files *)

Lemma calm_named (tr : list event) :
  has_crashed tr = false -> existsb is_open_without_name tr = false.
Proof.
  induction tr as [|e tr IH]; [reflexivity|].
  destruct e as [| | | | |c]; cbn; try exact IH. discriminate.
Qed.

(** The exceptions that escape the [with] block are those of [open] and
    [f.write]. *)
Lemma run_with_open_escapes flt name mode (chunks : list str) fs c :
  (run_with_open flt name mode chunks fs).2 = BlockEscapes c ->
  c = OpenRaised \/ c = WriteRaised.
Proof.
  unfold run_with_open.
  destruct flt as [| | |calls bytes|calls]; cbn [snd]; try discriminate.
  - intros [= <-]. now left.
  - destruct (calls <? length chunks)%nat; cbn [snd]; [|discriminate].
    intros [= <-]. now right.
Qed.

Lemma write_page_named flt url mode (paragraphs : list str) st name :
  output_filename st = Some name ->
  existsb is_open_without_name
    (trace (write_page flt url mode paragraphs st).1) =
  existsb is_open_without_name (trace st).
Proof.
  intros Hname. unfold write_page.
  destruct (negb (is_empty_list paragraphs) || mode_is_w mode).
  - rewrite Hname.
    pose proof (run_with_open_calm flt name mode
                  (page_writes mode paragraphs) (files st)) as Hcalm.
    pose proof (run_with_open_escapes flt name mode
                  (page_writes mode paragraphs) (files st)) as Hesc.
    destruct (run_with_open flt name mode (page_writes mode paragraphs)
                (files st)) as [[calls fs] [| |c]].
    + cbn [fst snd] in Hcalm. apply calm_named in Hcalm.
      destruct paragraphs; [destruct mode|];
        cbn [fst emit set_files trace]; rewrite ?existsb_app, ?Hcalm;
        cbn [existsb is_open_without_name]; now rewrite ?orb_false_r.
    + cbn [fst snd] in Hcalm. apply calm_named in Hcalm.
      cbn [fst emit set_files set_current_url trace].
      rewrite ?existsb_app, ?Hcalm. cbn [existsb is_open_without_name].
      now rewrite ?orb_false_r.
    + cbn [fst snd] in Hcalm. apply calm_named in Hcalm.
      cbn [fst escape emit set_files set_current_url trace].
      rewrite ?existsb_app, ?Hcalm.
      destruct (Hesc c eq_refl) as [-> | ->];
        cbn [existsb is_open_without_name]; now rewrite ?orb_false_r.
  - destruct mode; cbn [fst emit trace]; rewrite ?existsb_app;
      cbn [existsb is_open_without_name]; now rewrite ?orb_false_r.
Qed.

Lemma follow_next_link_named url soup st :
  existsb is_open_without_name (trace (follow_next_link url soup st)) =
  existsb is_open_without_name (trace st).
Proof.
  unfold follow_next_link.
  destruct (find_next_href soup) as [| |href|href];
    try (cbn [emit set_current_url trace]; rewrite ?existsb_app;
         cbn [existsb is_open_without_name]; now rewrite ?orb_false_r).
  cbv zeta. destruct (urljoin url href) as [new_url|].
  - destruct (str_eqb new_url url); [|destruct new_url];
      cbn [emit set_current_url trace current_url truthy];
      rewrite ?existsb_app; cbn [existsb is_open_without_name];
      now rewrite ?orb_false_r.
  - cbn [escape emit set_current_url trace]. rewrite ?existsb_app.
    cbn [existsb is_open_without_name]. now rewrite ?orb_false_r.
Qed.

(** A turn that starts with the two variables in agreement does not call
    [open] without a file name. *)
Lemma step_named w st :
  flags_agree st -> truthy (current_url st) = true ->
  existsb is_open_without_name (trace (step w st)) =
  existsb is_open_without_name (trace st).
Proof.
  intros [H1 _] Htruthy.
  apply truthy_some in Htruthy. destruct Htruthy as (url & Hcur & _).
  destruct (fetch w (iteration st) url) as [f|soup] eqn:Hfetch.
  - rewrite (step_failed w st url f Hcur Hfetch). cbn [trace].
    rewrite existsb_app. cbn. apply orb_false_r.
  - rewrite (step_parsed w st url soup Hcur Hfetch).
    destruct (page_name_some soup st H1) as [name Hname].
    destruct (chosen_frame url soup st) as (_ & _ & _ & _ & Hout & _).
    rewrite Hname in Hout.
    assert (Hw : existsb is_open_without_name
                   (trace (written w url soup st).1) =
                 existsb is_open_without_name (trace st)).
    { unfold written. rewrite (write_page_named _ _ _ _ _ name Hout).
      unfold chosen, choose_file. cbn [fetched first_page_processed].
      destruct (first_page_processed st); unfold fetched;
        cbn [negb fst emit trace]; rewrite ?existsb_app;
        cbn [existsb is_open_without_name]; now rewrite ?orb_false_r. }
    destruct (written w url soup st).2; [|exact Hw].
    now rewrite follow_next_link_named.
Qed.

(** X8.  At every point of a crawl a file name is set exactly when the
    first page has been processed, so [open] is never called without a file
    name: the exception that such a call raises is not in the trace. *)
Theorem crawl_variables_agree fuel w fs (initial_url : str) :
  let st := crawl_loop fuel w (initial_state fs initial_url) in
  (first_page_processed st = true <-> is_Some (output_filename st)) /\
  Forall (fun e => e <> Uncaught OpenWithoutName) (trace st).
Proof.
  intros st.
  assert (H : flags_agree st /\
              existsb is_open_without_name (trace st) = false).
  { apply crawl_loop_invariant.
    - intros s [Hflags Hnamed] Htruthy.
      split; [now apply flags_agree_step|].
      now rewrite step_named.
    - split; [split; [discriminate | reflexivity] | reflexivity]. }
  destruct H as [[H1 H2] Hnamed]. split.
  - split; [exact H1|]. intros [name Hname].
    destruct (first_page_processed st); [reflexivity|].
    rewrite H2 in Hname by reflexivity. discriminate.
  - apply List.Forall_forall. intros e He ->.
    assert (Hex : existsb is_open_without_name (trace st) = true)
      by (apply existsb_exists; eauto).
    congruence.
Qed.

Lemma others_kept_step w fs st :
  others_kept fs st -> truthy (current_url st) = true ->
  others_kept fs (step w st).
Proof.
  intros (Hflags & Hnone & Hsome) Htruthy.
  split; [now apply flags_agree_step|].
  apply truthy_some in Htruthy. destruct Htruthy as (url & Hcur & _).
  destruct (fetch w (iteration st) url) as [f|soup] eqn:Hfetch.
  - rewrite (step_failed w st url f Hcur Hfetch). split; assumption.
  - destruct Hflags as [H1 H2].
    destruct (page_name_some soup st H1) as [name Hname].
    destruct (step_page w st url soup name Hcur Hfetch Hname)
      as (Hn & _ & _ & _ & Hf).
    split; [congruence|].
    intros name' other Hname' Hne. rewrite Hn in Hname'.
    injection Hname' as <-.
    assert (Hold : files st !! other = fs !! other).
    { unfold page_name in Hname.
      destruct (first_page_processed st) eqn:Hfirst.
      - now apply (Hsome name).
      - now rewrite Hnone by auto. }
    rewrite Hf. destruct (negb _ || _); [|exact Hold].
    now rewrite run_with_open_other.
Qed.

(** X9.  A crawl touches one file only: as long as no file name is set the
    files are those it started with, and afterwards every file but the
    output file is as it was at the start. *)
Theorem crawl_touches_one_file fuel w fs (initial_url : str) :
  let st := crawl_loop fuel w (initial_state fs initial_url) in
  (output_filename st = None -> files st = fs) /\
  (forall name other,
      output_filename st = Some name -> other <> name ->
      files st !! other = fs !! other).
Proof.
  intros st.
  enough (H : others_kept fs st) by apply H.
  apply crawl_loop_invariant; [apply others_kept_step|].
  split; [split; [discriminate | reflexivity]|].
  split; [reflexivity | discriminate].
Qed.

Lemma named_by_title_step w st :
  named_by_title st -> truthy (current_url st) = true ->
  named_by_title (step w st).
Proof.
  intros (Hflags & Hname) Htruthy.
  split; [now apply flags_agree_step|].
  apply truthy_some in Htruthy. destruct Htruthy as (url & Hcur & _).
  destruct (fetch w (iteration st) url) as [f|soup] eqn:Hfetch.
  - now rewrite (step_failed w st url f Hcur Hfetch).
  - destruct Hflags as [H1 H2].
    destruct (page_name_some soup st H1) as [name Hpage].
    destruct (step_page w st url soup name Hcur Hfetch Hpage) as (Hn & _).
    intros name' Hname'. rewrite Hn in Hname'. injection Hname' as <-.
    unfold page_name in Hpage.
    destruct (first_page_processed st); [now apply Hname|].
    injection Hpage as <-. now exists soup.
Qed.

Lemma extract_title_is_sanitized soup :
  exists s, extract_title_for_filename soup = sanitize_filename s.
Proof. unfold extract_title_for_filename. eauto. Qed.

(** X10.  The name of the output file is always a sanitized title followed
    by .txt: the part before .txt is not empty, has at most 200 characters,
    no whitespace and none of the removed characters, is not made of dots
    only, and is left as it is by [sanitize_filename]. *)
Theorem output_filename_shape fuel w fs (initial_url : str) (name : str) :
  output_filename (crawl_loop fuel w (initial_state fs initial_url))
  = Some name ->
  exists base,
    name = base ++ lit ".txt" /\
    base <> [] /\
    (length base <= 200)%nat /\
    Forall (fun c => isspace c = false /\ c ∉ forbidden_chars) base /\
    ~ Forall (fun c => c = 46) base /\
    sanitize_filename base = base.
Proof.
  intros Hname.
  assert (H : named_by_title
                (crawl_loop fuel w (initial_state fs initial_url))).
  { apply crawl_loop_invariant; [apply named_by_title_step|].
    split; [split; [discriminate | reflexivity] | discriminate]. }
  destruct H as [_ H]. destruct (H name Hname) as [soup ->].
  destruct (extract_title_is_sanitized soup) as [s ->].
  exists (sanitize_filename s).
  destruct (sanitize_shape s) as (H1 & H2 & H3 & H4 & H5).
  repeat split; try assumption.
  - apply Forall_forall. intros c Hc. split.
    + revert c Hc. now apply Forall_forall.
    + assert (Hf : is_forbidden c = false)
        by (revert c Hc; now apply Forall_forall).
      unfold is_forbidden in Hf. now apply bool_decide_eq_false in Hf.
  - destruct (sanitize_cases s) as [-> | (Heq & Hne & Hdots & Hlow)].
    + apply sanitize_untitled.
    + rewrite Heq. unfold sanitize_filename.
      rewrite sanitize_transform_fixed.
      apply is_empty_false in Hne. apply str_eqb_neq in Hdots, Hlow.
      now rewrite Hne, Hdots, Hlow.
Qed.

(** X11.  The output file is only ever appended to once it exists: what it
    holds at one point of a crawl is the beginning of what it holds at every
    later point. *)
Theorem output_file_grows turns more w fs (initial_url : str) name old :
  let st := crawl_loop turns w (initial_state fs initial_url) in
  output_filename st = Some name ->
  files st !! name = Some old ->
  exists extra,
    files (crawl_loop (turns + more) w (initial_state fs initial_url)) !! name
    = Some (old ++ extra).
Proof.
  intros st Hname Hold. rewrite crawl_loop_app. fold st.
  assert (Hfirst : first_page_processed st = true).
  { destruct (flags_agree_crawl turns w fs initial_url) as [_ H2].
    fold st in H2. destruct (first_page_processed st); [reflexivity|].
    rewrite H2 in Hname by reflexivity. discriminate. }
  enough (H : content_is name (fun c => exists extra, c = old ++ extra)
                (crawl_loop more w st)).
  { destruct H as (_ & _ & c & Hc & extra & ->). eauto. }
  apply crawl_loop_invariant.
  - intros s. apply content_is_step.
    intros c extra [e ->]. exists (e ++ extra). now rewrite app_assoc.
  - repeat split; try assumption. exists old. split; [assumption|].
    exists []. now rewrite app_nil_r.
Qed.

(** ** More on the crawl: the pauses *)

Lemma sleeps_app (a b : list event) : sleeps (a ++ b) = sleeps a ++ sleeps b.
Proof. apply omap_app. Qed.

Lemma rhythm_app (a b : list event) : rhythm (a ++ b) = rhythm a ++ rhythm b.
Proof. apply omap_app. Qed.

Lemma quiet_sleeps :
  quiet (fun e => match e with Sleep => Some tt | _ => None end).
Proof. repeat split. Qed.

Lemma quiet_rhythm :
  quiet (fun e => match e with
                  | Get url => Some (Some url)
                  | Sleep => Some None
                  | _ => None
                  end).
Proof. repeat split. Qed.

(** The loop pauses after a page exactly when it goes on to another. *)
Lemma step_sleeps w st url :
  current_url st = Some url ->
  sleeps (trace (step w st)) =
  sleeps (trace st) ++
  (if truthy (current_url (step w st)) then [tt] else []).
Proof.
  intros Hcur. unfold sleeps.
  rewrite (step_quiet _ w st url quiet_sleeps Hcur).
  f_equal. cbn [omap list_omap app].
  destruct (fetch w (iteration st) url) as [fl|soup]; [reflexivity|].
  destruct (page_name soup st); [destruct (is_written _ _)|]; reflexivity.
Qed.

(** The requests and the pauses of a turn: the request, and then the
    pause when the loop goes on. *)
Lemma step_rhythm w st url :
  current_url st = Some url ->
  rhythm (trace (step w st)) =
  rhythm (trace st) ++ Some url ::
  (if truthy (current_url (step w st)) then [None] else []).
Proof.
  intros Hcur. unfold rhythm.
  rewrite (step_quiet _ w st url quiet_rhythm Hcur).
  f_equal. cbn [omap list_omap app]. f_equal.
  destruct (fetch w (iteration st) url) as [fl|soup]; [reflexivity|].
  destruct (page_name soup st); [destruct (is_written _ _)|]; reflexivity.
Qed.

Lemma paced_step w initial_url st :
  paced initial_url st -> truthy (current_url st) = true ->
  paced initial_url (step w st).
Proof.
  intros [Hgets Hsl] Htruthy. rewrite Htruthy in Hsl.
  apply truthy_some in Htruthy. destruct Htruthy as (url & Hcur & _).
  unfold paced.
  rewrite (step_gets w st url Hcur), (step_sleeps w st url Hcur),
    (step_iteration w st url Hcur), !length_app.
  split; [simpl; lia|].
  destruct (truthy (current_url (step w st))); simpl; [lia | left; lia].
Qed.

Lemma crawl_loop_iteration fuel w st :
  (iteration (crawl_loop fuel w st) <= iteration st + fuel)%nat.
Proof.
  revert st. induction fuel as [|fuel IH]; intros st; simpl; [lia|].
  destruct (truthy (current_url st)) eqn:E; [|lia].
  apply truthy_some in E. destruct E as (url & Hcur & _).
  specialize (IH (step w st)). rewrite (step_iteration w st url Hcur) in IH.
  lia.
Qed.

Lemma all_paused_snoc (urls : list str) (url : str) :
  all_paused (urls ++ [url]) = all_paused urls ++ [Some url; None].
Proof. unfold all_paused. rewrite flat_map_app. cbn. reflexivity. Qed.

Lemma with_pauses_snoc (urls : list str) (url : str) :
  with_pauses (urls ++ [url]) = all_paused urls ++ [Some url].
Proof.
  induction urls as [|u rest IH]; [reflexivity|].
  cbn [app with_pauses all_paused flat_map]. rewrite IH.
  destruct rest; reflexivity.
Qed.

(** While the loop goes on every request so far was followed by a pause;
    once it has ended the pauses are between the requests. *)
Lemma rhythm_crawl fuel w fs (initial_url : str) :
  let st := crawl_loop fuel w (initial_state fs initial_url) in
  rhythm (trace st) =
  if truthy (current_url st) then all_paused (gets (trace st))
  else with_pauses (gets (trace st)).
Proof.
  apply (crawl_loop_invariant w
           (fun st => rhythm (trace st) =
                      if truthy (current_url st)
                      then all_paused (gets (trace st))
                      else with_pauses (gets (trace st)))).
  - intros st Hst Htruthy. rewrite Htruthy in Hst.
    apply truthy_some in Htruthy. destruct Htruthy as (url & Hcur & _).
    rewrite (step_rhythm w st url Hcur), (step_gets w st url Hcur), Hst.
    destruct (truthy (current_url (step w st))).
    + now rewrite all_paused_snoc.
    + now rewrite with_pauses_snoc.
  - destruct initial_url; reflexivity.
Qed.

(** X12.  A crawl that has ended made one request in each turn, at most as
    many as the loop was given turns, and paused once between each two
    requests and never after the last: one pause less than requests, and in
    the trace each request but the last is followed by a pause before the
    next request. *)
Theorem crawl_pauses_between_fetches fuel w fs (initial_url : str) st :
  initial_url <> [] ->
  crawl_and_save_all_pages fuel w fs initial_url = Some st ->
  length (gets (trace st)) = iteration st /\
  (iteration st <= fuel)%nat /\
  S (length (sleeps (trace st))) = length (gets (trace st)) /\
  rhythm (trace st) = with_pauses (gets (trace st)).
Proof.
  intros Hne. unfold crawl_and_save_all_pages.
  pose proof (rhythm_crawl fuel w fs initial_url) as Hrhythm.
  cbv zeta in Hrhythm.
  set (final := crawl_loop fuel w (initial_state fs initial_url)) in *.
  destruct (truthy (current_url final)) eqn:E; [discriminate|].
  assert (H : paced initial_url final).
  { apply crawl_loop_invariant; [apply paced_step|].
    split; [reflexivity|]. cbn.
    destruct initial_url; [contradiction | reflexivity]. }
  destruct H as [Hgets Hsl]. rewrite E in Hsl.
  assert (Hfinal : length (gets (trace final)) = iteration final /\
                   (iteration final <= fuel)%nat /\
                   S (length (sleeps (trace final))) =
                     length (gets (trace final)) /\
                   rhythm (trace final) = with_pauses (gets (trace final))).
  { split; [exact Hgets|]. split.
    - pose proof (crawl_loop_iteration fuel w (initial_state fs initial_url)).
      exact H.
    - split; [|exact Hrhythm].
      destruct Hsl as [Hsl | [Hcur _]]; [exact Hsl|].
      rewrite Hcur in E. destruct initial_url; [contradiction | discriminate]. }
  destruct (has_crashed (trace final)); intros [= <-]; [exact Hfinal|].
  cbn [emit trace iteration].
  rewrite gets_app, sleeps_app, rhythm_app. cbn. rewrite !app_nil_r.
  exact Hfinal.
Qed.

(** ** More on the crawl: failures of the file system *)

(** A turn whose [with] block does not end at its end: the rest of the
    turn is skipped, after the message of the handler when the exception
    is an [IOError], and with no message when it is another one. *)
Lemma step_block_stops w st url soup name :
  current_url st = Some url ->
  fetch w (iteration st) url = Parsed soup ->
  page_name soup st = Some name ->
  let paragraphs := extract_relevant_paragraphs soup in
  let result :=
    (run_with_open (fault w (iteration st)) name (page_mode st)
       (page_writes (page_mode st) paragraphs) (files st)).2 in
  is_written (page_mode st) paragraphs = true ->
  result <> BlockDone ->
  current_url (step w st) = None /\
  last (trace (step w st)) =
    match result with
    | BlockDone => None
    | BlockIOError => Some (Print (MsgWriteError name))
    | BlockEscapes c => Some (Uncaught c)
    end.
Proof.
  intros Hcur Hfetch Hname paragraphs result Hopened Hfail.
  rewrite (step_parsed w st url soup Hcur Hfetch).
  destruct (chosen_frame url soup st) as (_ & Hf & _ & _ & Hout & Hm & _).
  rewrite Hname in Hout.
  destruct (written_frame w url soup st name Hname)
    as (_ & _ & _ & Hc & _ & Hok).
  fold paragraphs in Hok. rewrite Hopened in Hok. fold result in Hok.
  pose proof (write_page_last (fault w (iteration st)) url
                (chosen url soup st).2 paragraphs (chosen url soup st).1
                name Hout) as Hlast.
  fold (written w url soup st) in Hlast.
  rewrite Hm, Hf in Hlast. fold result in Hlast.
  specialize (Hlast Hopened).
  destruct result as [| |c]; [contradiction| |];
    rewrite Hok in *; (split; [exact Hc|]);
    unfold written; rewrite Hm; exact Hlast.
Qed.

(** X13.  When the file of a page is to be written (the page is the first
    or has paragraphs) and [open] raises an [IOError], the turn ends there:
    the cursor is none, no file has changed, the last message is the write
    error, the link of the page is not looked at and the loop makes no
    further turn.  When an [IOError] is raised later in the block, the same
    holds but for the output file, which holds what [open] left in it and
    then the first bytes, as many as reached the file, of the strings
    passed to [f.write] so far.  When [open] or [f.write] raises another
    exception the turn ends too, but without a message: the exception is
    the last event. *)
Theorem io_error_stops w st url soup name :
  current_url st = Some url ->
  fetch w (iteration st) url = Parsed soup ->
  page_name soup st = Some name ->
  let paragraphs := extract_relevant_paragraphs soup in
  let mode := page_mode st in
  let opened :=
    match mode with
    | ModeW => []
    | ModeA => default [] (files st !! name)
    end in
  negb (is_empty_list paragraphs) || mode_is_w mode = true ->
  (fault w (iteration st) = OpenFails ->
   current_url (step w st) = None /\
   files (step w st) = files st /\
   last (trace (step w st)) = Some (Print (MsgWriteError name)) /\
   forall fuel, crawl_loop fuel w (step w st) = step w st) /\
  (forall calls bytes,
      fault w (iteration st) = WriteFails calls bytes ->
      current_url (step w st) = None /\
      files (step w st) !! name =
        Some (opened ++
              cut bytes (concat (take (S calls) (page_writes mode paragraphs))))
      /\
      last (trace (step w st)) = Some (Print (MsgWriteError name)) /\
      forall fuel, crawl_loop fuel w (step w st) = step w st) /\
  (fault w (iteration st) = OpenRaises ->
   current_url (step w st) = None /\
   files (step w st) = files st /\
   last (trace (step w st)) = Some (Uncaught OpenRaised) /\
   forall fuel, crawl_loop fuel w (step w st) = step w st) /\
  (forall calls,
      fault w (iteration st) = WriteRaises calls ->
      (calls < length (page_writes mode paragraphs))%nat ->
      current_url (step w st) = None /\
      files (step w st) !! name =
        Some (opened ++ concat (take calls (page_writes mode paragraphs))) /\
      last (trace (step w st)) = Some (Uncaught WriteRaised) /\
      forall fuel, crawl_loop fuel w (step w st) = step w st).
Proof.
  intros Hcur Hfetch Hname paragraphs mode opened Hopened.
  destruct (step_page w st url soup name Hcur Hfetch Hname)
    as (_ & _ & _ & _ & Hf).
  fold paragraphs mode in Hf. rewrite Hopened in Hf.
  pose proof (step_block_stops w st url soup name Hcur Hfetch Hname Hopened)
    as Hstop.
  cbv zeta in Hstop. fold paragraphs mode in Hstop.
  split; [|split; [|split]].
  - intros Hflt. rewrite Hflt in Hstop, Hf.
    destruct Hstop as [Hc Hl]; [discriminate|].
    repeat split; try assumption.
    intros fuel. apply crawl_loop_stopped. now rewrite Hc.
  - intros calls bytes Hflt. rewrite Hflt in Hstop, Hf.
    destruct Hstop as [Hc Hl]; [discriminate|].
    repeat split; try assumption.
    + rewrite Hf. cbn [run_with_open fst snd]. unfold write_file.
      rewrite open_file_lookup. cbn [default]. apply lookup_insert_eq.
    + intros fuel. apply crawl_loop_stopped. now rewrite Hc.
  - intros Hflt. rewrite Hflt in Hstop, Hf.
    destruct Hstop as [Hc Hl]; [discriminate|].
    repeat split; try assumption.
    intros fuel. apply crawl_loop_stopped. now rewrite Hc.
  - intros calls Hflt Hcalls. rewrite Hflt in Hstop, Hf.
    assert (Hlt : (calls <? length (page_writes mode paragraphs))%nat = true)
      by now apply Nat.ltb_lt.
    unfold run_with_open in Hstop, Hf. rewrite Hlt in Hstop, Hf.
    destruct Hstop as [Hc Hl]; [discriminate|].
    repeat split; try assumption.
    + rewrite Hf. cbn [fst snd].
      erewrite write_file_lookup by apply open_file_lookup. reflexivity.
    + intros fuel. apply crawl_loop_stopped. now rewrite Hc.
Qed.

(** X14.  When the first page is fetched but [open] raises an [IOError] on
    its file, the crawl ends after that one turn with every file as it
    was, and its closing message still names the output file as the place
    where the content was saved.  When [open] raises another exception, the
    run ends on it with every file as it was and prints no closing
    message. *)
Theorem open_failure_on_first_page fuel w fs (initial_url : str) soup :
  initial_url <> [] ->
  fetch w 0%nat initial_url = Parsed soup ->
  let name := extract_title_for_filename soup ++ lit ".txt" in
  (fault w 0%nat = OpenFails ->
   crawl_and_save_all_pages (S fuel) w fs initial_url =
   Some (State None (Some name) true fs 1%nat
           [Print (MsgProcessing initial_url); Get initial_url;
            Print (MsgFilename name); Open name ModeW;
            Print (MsgWriteError name); Print (MsgDone name)])) /\
  (fault w 0%nat = OpenRaises ->
   crawl_and_save_all_pages (S fuel) w fs initial_url =
   Some (State None (Some name) true fs 1%nat
           [Print (MsgProcessing initial_url); Get initial_url;
            Print (MsgFilename name); Open name ModeW;
            Uncaught OpenRaised])).
Proof.
  intros Hne Hfetch name.
  unfold crawl_and_save_all_pages. rewrite crawl_loop_first by assumption.
  split; intros Hflt.
  - assert (Hstep : step w (initial_state fs initial_url) =
                    State None (Some name) true fs 1%nat
                      [Print (MsgProcessing initial_url); Get initial_url;
                       Print (MsgFilename name); Open name ModeW;
                       Print (MsgWriteError name)]).
    { unfold step. cbn [initial_state current_url iteration].
      rewrite Hfetch, Hflt.
      destruct (extract_relevant_paragraphs soup); reflexivity. }
    rewrite Hstep, crawl_loop_stopped by reflexivity.
    cbn [current_url truthy trace]. unfold summary, emit.
    cbn [output_filename].
    subst name. destruct (extract_title_for_filename soup); reflexivity.
  - assert (Hstep : step w (initial_state fs initial_url) =
                    State None (Some name) true fs 1%nat
                      [Print (MsgProcessing initial_url); Get initial_url;
                       Print (MsgFilename name); Open name ModeW;
                       Uncaught OpenRaised]).
    { unfold step. cbn [initial_state current_url iteration].
      rewrite Hfetch, Hflt.
      destruct (extract_relevant_paragraphs soup); reflexivity. }
    rewrite Hstep, crawl_loop_stopped by reflexivity. reflexivity.
Qed.

(** ** More on the crawl: a whole series *)

Lemma write_chunks_insert (name : str) (chunks : list str)
    (fs : gmap str str) (old : str) :
  fs !! name = Some old ->
  fold_left (write_file name) chunks fs = <[name := old ++ concat chunks]> fs.
Proof.
  revert fs old. induction chunks as [|c rest IH]; intros fs old H; simpl.
  - rewrite app_nil_r. symmetry. now apply insert_id.
  - rewrite (IH _ (old ++ c)).
    + unfold write_file. rewrite H. simpl.
      now rewrite insert_insert_eq, <- app_assoc.
    + unfold write_file. rewrite H. simpl. apply lookup_insert_eq.
Qed.

Lemma concat_page_writes (mode : file_mode) (paragraphs : list str) :
  concat (page_writes mode paragraphs) = page_text mode paragraphs.
Proof.
  rewrite page_writes_spec. unfold page_text, later_page_text.
  destruct mode, paragraphs as [|p ps]; try reflexivity;
    cbn [concat]; now rewrite concat_intersperse.
Qed.

(** The files after a [with] block without fault. *)
Lemma run_no_fault (name : str) (mode : file_mode) (chunks : list str)
    (fs : gmap str str) :
  (run_with_open NoFault name mode chunks fs).1.2 =
  <[name := match mode with
            | ModeW => []
            | ModeA => default [] (fs !! name)
            end ++ concat chunks]> fs.
Proof.
  cbn [run_with_open fst snd].
  rewrite (write_chunks_insert name chunks _ _ (open_file_lookup name mode fs)).
  unfold open_file. destruct mode.
  - apply insert_insert_eq.
  - destruct (fs !! name); [reflexivity | apply insert_insert_eq].
Qed.

(** A turn on a page that is fetched and written without fault: the
    cursor and the files after it. *)
Lemma step_no_fault w st url soup name :
  current_url st = Some url ->
  fetch w (iteration st) url = Parsed soup ->
  page_name soup st = Some name ->
  fault w (iteration st) = NoFault ->
  let paragraphs := extract_relevant_paragraphs soup in
  current_url (step w st) =
    match resolve_next url soup with
    | Next new_url => if str_eqb new_url url then None else Some new_url
    | _ => None
    end /\
  files (step w st) =
    if negb (is_empty_list paragraphs) || mode_is_w (page_mode st)
    then <[name := match page_mode st with
                   | ModeW => []
                   | ModeA => default [] (files st !! name)
                   end ++ page_text (page_mode st) paragraphs]> (files st)
    else files st.
Proof.
  intros Hcur Hfetch Hname Hflt paragraphs.
  destruct (step_page w st url soup name Hcur Hfetch Hname)
    as (_ & _ & _ & _ & Hf).
  fold paragraphs in Hf. rewrite Hflt, run_no_fault, concat_page_writes in Hf.
  split; [|exact Hf].
  apply step_cursor_written; [assumption | assumption|].
  now apply (written_no_fault w url soup st name).
Qed.

(** Such a turn adds no exception to the trace unless [urljoin] raises. *)
Lemma step_calm w st url soup name :
  current_url st = Some url ->
  fetch w (iteration st) url = Parsed soup ->
  page_name soup st = Some name ->
  fault w (iteration st) = NoFault ->
  resolve_next url soup <> ResolutionRaises ->
  has_crashed (trace (step w st)) = has_crashed (trace st).
Proof.
  intros Hcur Hfetch Hname Hflt Hres.
  rewrite (step_parsed w st url soup Hcur Hfetch).
  rewrite (written_no_fault w url soup st name Hname Hflt).
  destruct (chosen_frame url soup st) as (_ & _ & _ & _ & Hout & _ & Hk).
  rewrite Hname in Hout.
  assert (Hw : has_crashed (trace (written w url soup st).1) =
               has_crashed (trace st)).
  { unfold written. rewrite Hflt.
    now rewrite (write_page_calm _ _ _ _ name Hout). }
  destruct (follow_next_link_crash url soup (written w url soup st).1)
    as [(_ & Hf) | (Hr & _)]; [congruence | contradiction].
Qed.

(** A later page of a series: the output file gets its text. *)
Lemma step_later_page w st url soup name old :
  current_url st = Some url ->
  fetch w (iteration st) url = Parsed soup ->
  fault w (iteration st) = NoFault ->
  first_page_processed st = true ->
  output_filename st = Some name ->
  files st !! name = Some old ->
  files (step w st) =
  <[name := old ++ later_page_text (extract_relevant_paragraphs soup)]>
    (files st).
Proof.
  intros Hcur Hfetch Hflt Hfirst Hname Hold.
  assert (Hpage : page_name soup st = Some name)
    by (unfold page_name; now rewrite Hfirst).
  destruct (step_no_fault w st url soup name Hcur Hfetch Hpage Hflt)
    as [_ Hf].
  rewrite Hf. unfold page_mode. rewrite Hfirst. cbn [mode_is_w page_text].
  rewrite orb_false_r, Hold. cbn [default].
  destruct (extract_relevant_paragraphs soup); cbn [is_empty_list negb];
    [|reflexivity].
  cbn [later_page_text]. rewrite app_nil_r. symmetry. now apply insert_id.
Qed.

Lemma stops_cursor (url : str) soup :
  url <> [] -> stops url soup ->
  truthy (match resolve_next url soup with
          | Next new_url => if str_eqb new_url url then None else Some new_url
          | _ => None
          end) = false.
Proof.
  unfold stops. intros Hne.
  destruct (resolve_next url soup) as [|next|]; [reflexivity| |reflexivity].
  intros [-> | ->].
  - unfold str_eqb. now rewrite bool_decide_eq_true_2.
  - now destruct (str_eqb [] url).
Qed.

Lemma stops_resolves (url : str) soup :
  stops url soup -> resolve_next url soup <> ResolutionRaises.
Proof. unfold stops. intros H E. now rewrite E in H. Qed.

(** The later pages of a series, from a point of the crawl on. *)
Lemma crawl_later_pages w name (pages : list (str * list node)) :
  forall st old url soup fuel,
    chain w (iteration st) ((url, soup) :: pages) ->
    current_url st = Some url ->
    first_page_processed st = true ->
    output_filename st = Some name ->
    files st !! name = Some old ->
    let st' := crawl_loop (S (length pages) + fuel) w st in
    truthy (current_url st') = false /\
    output_filename st' = Some name /\
    files st' =
      <[name := old ++ later_pages_text ((url, soup) :: pages)]> (files st) /\
    gets (trace st') =
      gets (trace st) ++ url :: List.map fst pages /\
    has_crashed (trace st') = has_crashed (trace st).
Proof.
  induction pages as [|[next soup'] rest IH];
    intros st old url soup fuel (Hne & Hfetch & Hflt & Hlink & Hrest)
           Hcur Hfirst Hname Hold st'; subst st'.
  - assert (Htruthy : truthy (current_url st) = true)
      by (rewrite Hcur; destruct url; [contradiction | reflexivity]).
    assert (Hpage : page_name soup st = Some name)
      by (unfold page_name; now rewrite Hfirst).
    destruct (step_no_fault w st url soup name Hcur Hfetch Hpage Hflt)
      as [Hc _].
    destruct (step_page w st url soup name Hcur Hfetch Hpage)
      as (Hn & _).
    cbn [length plus crawl_loop]. rewrite Htruthy.
    assert (Hstop : truthy (current_url (step w st)) = false)
      by (rewrite Hc; now apply stops_cursor).
    rewrite crawl_loop_stopped by assumption.
    repeat split; try assumption.
    + rewrite (step_later_page w st url soup name old) by assumption.
      unfold later_pages_text. cbn [List.map concat snd].
      now rewrite app_nil_r.
    + now rewrite (step_gets w st url Hcur).
    + apply (step_calm w st url soup name); try assumption.
      now apply stops_resolves.
  - destruct Hlink as [Hnext Hdiff].
    assert (Htruthy : truthy (current_url st) = true)
      by (rewrite Hcur; destruct url; [contradiction | reflexivity]).
    assert (Hpage : page_name soup st = Some name)
      by (unfold page_name; now rewrite Hfirst).
    destruct (step_no_fault w st url soup name Hcur Hfetch Hpage Hflt)
      as [Hc _].
    destruct (step_page w st url soup name Hcur Hfetch Hpage)
      as (Hn & Hp & Hi & _).
    pose proof (step_later_page w st url soup name old Hcur Hfetch Hflt
                  Hfirst Hname Hold) as Hf.
    pose proof Hc as Hc0. rewrite Hnext in Hc.
    assert (E : str_eqb next url = false) by now apply str_eqb_neq.
    rewrite E in Hc.
    change (S (length ((next, soup') :: rest)) + fuel)%nat
      with (S (S (length rest) + fuel)).
    cbn [crawl_loop]. rewrite Htruthy.
    rewrite <- Hi in Hrest.
    destruct (IH (step w st)
                 (old ++ later_page_text (extract_relevant_paragraphs soup))
                 next soup' fuel Hrest Hc Hp Hn)
      as (H1 & H2 & H3 & H4 & H5).
    { rewrite Hf. apply lookup_insert_eq. }
    repeat split; try assumption.
    + rewrite H3, Hf, insert_insert_eq. f_equal.
      unfold later_pages_text. cbn [List.map concat snd].
      now rewrite <- app_assoc.
    + rewrite H4, (step_gets w st url Hcur), <- app_assoc. reflexivity.
    + rewrite H5. apply (step_calm w st url soup name); try assumption.
      rewrite Hnext. discriminate.
Qed.

(** X15.  When the world serves a series of pages without fault, each page
    linking to the next and the last one ending the crawl, the crawl ends
    after one request for each page, in order, and leaves in the output
    file, named after the first page, the paragraphs of the first page
    joined by blank lines followed, for each later page that has
    paragraphs, by a blank line and its paragraphs joined in the same way.
    Every other file is as it was. *)
Theorem crawl_writes_the_series w fs url soup
    (pages : list (str * list node)) fuel :
  chain w 0%nat ((url, soup) :: pages) ->
  let name := extract_title_for_filename soup ++ lit ".txt" in
  exists st,
    crawl_and_save_all_pages (S (length pages) + fuel) w fs url = Some st /\
    output_filename st = Some name /\
    files st = <[name := book_text ((url, soup) :: pages)]> fs /\
    gets (trace st) = url :: List.map fst pages /\
    last (trace st) = Some (Print (MsgDone name)).
Proof.
  intros Hchain name.
  assert (Hfinal :
    let st' := crawl_loop (S (length pages) + fuel) w (initial_state fs url) in
    truthy (current_url st') = false /\
    output_filename st' = Some name /\
    files st' = <[name := book_text ((url, soup) :: pages)]> fs /\
    gets (trace st') = url :: List.map fst pages /\
    has_crashed (trace st') = false).
  { destruct Hchain as (Hne & Hfetch & Hflt & Hlink & Hrest).
    pose (st0 := initial_state fs url).
    assert (Hcur : current_url st0 = Some url) by reflexivity.
    assert (Hpage : page_name soup st0 = Some name) by reflexivity.
    destruct (step_no_fault w st0 url soup name Hcur Hfetch Hpage Hflt)
      as [Hc Hf].
    destruct (step_page w st0 url soup name Hcur Hfetch Hpage)
      as (Hn & Hp & Hi & _).
    cbn [page_mode st0 initial_state first_page_processed mode_is_w
           page_text files] in Hf.
    rewrite orb_true_r in Hf. cbn [app] in Hf.
    pose proof (step_gets w st0 url Hcur) as Hg.
    change (gets (trace (step w st0)) = [url]) in Hg.
    cbv zeta. change (S (length pages) + fuel)%nat
      with (S (length pages + fuel)).
    rewrite crawl_loop_first by assumption.
    change (initial_state fs url) with st0.
    destruct pages as [|[next soup'] rest].
    - assert (Hstop : truthy (current_url (step w st0)) = false)
        by (rewrite Hc; now apply stops_cursor).
      rewrite crawl_loop_stopped by assumption.
      repeat split; try assumption.
      + rewrite Hf. unfold book_text, later_pages_text. cbn [List.map concat].
        now rewrite app_nil_r.
      + rewrite (step_calm w st0 url soup name Hcur Hfetch Hpage Hflt);
          [reflexivity | now apply stops_resolves].
    - destruct Hlink as [Hnext Hdiff].
      assert (Hcalm : has_crashed (trace (step w st0)) = false).
      { rewrite (step_calm w st0 url soup name Hcur Hfetch Hpage Hflt);
          [reflexivity | rewrite Hnext; discriminate]. }
      rewrite Hnext in Hc.
      assert (E : str_eqb next url = false) by now apply str_eqb_neq.
      rewrite E in Hc.
      change (1%nat) with (S (iteration st0)) in Hrest.
      rewrite <- Hi in Hrest.
      destruct (crawl_later_pages w name rest (step w st0)
                  (join newlines (extract_relevant_paragraphs soup))
                  next soup' fuel Hrest Hc Hp Hn)
        as (H1 & H2 & H3 & H4 & H5).
      { rewrite Hf. apply lookup_insert_eq. }
      change (length ((next, soup') :: rest) + fuel)%nat
        with (S (length rest) + fuel)%nat.
      repeat split; try assumption.
      + rewrite H3, Hf, insert_insert_eq. reflexivity.
      + rewrite H4, Hg. reflexivity.
      + now rewrite H5. }
  cbv zeta in Hfinal. unfold crawl_and_save_all_pages.
  set (final := crawl_loop (S (length pages) + fuel) w (initial_state fs url))
    in *.
  destruct Hfinal as (H1 & H2 & H3 & H4 & H5). rewrite H1, H5.
  eexists. split; [reflexivity|].
  cbn [emit output_filename files trace].
  rewrite gets_app, last_snoc.
  change (gets [Print (summary url final)]) with (@nil str).
  rewrite app_nil_r.
  repeat split; try assumption.
  unfold summary. rewrite H2. subst name.
  destruct (extract_title_for_filename soup); reflexivity.
Qed.

(** X16.  The guard of line 168 sees a link of a page to itself only: when
    two pages link to each other and nothing fails, the loop never ends,
    whatever the number of turns it is given. *)
Theorem two_page_cycle_never_ends w fs (a b : str) soup_a soup_b :
  a <> [] -> b <> [] -> a <> b ->
  (forall n, fetch w n a = Parsed soup_a) ->
  (forall n, fetch w n b = Parsed soup_b) ->
  (forall n, fault w n = NoFault) ->
  resolve_next a soup_a = Next b ->
  resolve_next b soup_b = Next a ->
  forall fuel, crawl_and_save_all_pages fuel w fs a = None.
Proof.
  intros Ha Hb Hab Hfa Hfb Hflt Hnext_a Hnext_b fuel.
  set (I := fun st =>
         flags_agree st /\
         (current_url st = Some a \/ current_url st = Some b)).
  assert (HI : I (crawl_loop fuel w (initial_state fs a))).
  { apply crawl_loop_invariant.
    - intros st [Hflags Hcur] Htruthy.
      split; [now apply flags_agree_step|].
      destruct Hflags as [H1 _].
      destruct Hcur as [Hcur | Hcur].
      + destruct (page_name_some soup_a st H1) as [name Hname].
        destruct (step_no_fault w st a soup_a name Hcur (Hfa _) Hname
                    (Hflt _)) as [Hc _].
        rewrite Hnext_a in Hc.
        assert (E : str_eqb b a = false)
          by (apply str_eqb_neq; congruence).
        rewrite E in Hc. now right.
      + destruct (page_name_some soup_b st H1) as [name Hname].
        destruct (step_no_fault w st b soup_b name Hcur (Hfb _) Hname
                    (Hflt _)) as [Hc _].
        rewrite Hnext_b in Hc.
        assert (E : str_eqb a b = false) by now apply str_eqb_neq.
        rewrite E in Hc. now left.
    - split; [split; [discriminate | reflexivity] | now left]. }
  unfold crawl_and_save_all_pages.
  destruct HI as [_ [Hcur | Hcur]]; rewrite Hcur.
  - destruct a; [contradiction | reflexivity].
  - destruct b; [contradiction | reflexivity].
Qed.

(** ** The script *)

Lemma crawl_loop_gets_first fuel w st (url : str) rest :
  gets (trace st) = url :: rest ->
  exists rest', gets (trace (crawl_loop fuel w st)) = url :: rest'.
Proof.
  intros H. revert rest H.
  apply (crawl_loop_invariant w
           (fun s => forall rest, gets (trace st) = url :: rest ->
                      exists rest', gets (trace s) = url :: rest')).
  - intros s Hs Htruthy rest Hrest.
    destruct (Hs rest Hrest) as [rest' Hrest'].
    apply truthy_some in Htruthy. destruct Htruthy as (u & Hcur & _).
    rewrite (step_gets w s u Hcur), Hrest'. now exists (rest' ++ [u]).
  - eauto.
Qed.

(** X17.  The script starts no crawl on a line that is empty or blank, and
    otherwise crawls from the line stripped, which is then trimmed.  A crawl
    that the script started and that has ended made its first request to
    that address and did not end on the message of line 183, that no crawl
    was started. *)
Theorem main_spec fuel w fs (typed : str) :
  (strip typed = [] -> main fuel w fs typed = InvalidUrl) /\
  (strip typed <> [] ->
   trimmed (strip typed) /\
   main fuel w fs typed =
     Crawled (crawl_and_save_all_pages fuel w fs (strip typed))) /\
  (forall st,
      main fuel w fs typed = Crawled (Some st) ->
      (exists rest, gets (trace st) = strip typed :: rest) /\
      last (trace st) <> Some (Print MsgNotStarted)).
Proof.
  assert (Hblank : strip typed = [] -> main fuel w fs typed = InvalidUrl).
  { intros H. unfold main. rewrite H. cbn [is_empty negb].
    now rewrite andb_false_r. }
  assert (Hgo : strip typed <> [] ->
                main fuel w fs typed =
                Crawled (crawl_and_save_all_pages fuel w fs (strip typed))).
  { intros H. unfold main.
    assert (Hne : typed <> []) by (intros ->; now apply H).
    apply is_empty_false in H, Hne. now rewrite H, Hne. }
  split; [exact Hblank|]. split.
  - intros H. split; [now apply strip_trimmed | now apply Hgo].
  - intros st Hmain.
    destruct (strip typed) as [|c t] eqn:Hs.
    { rewrite Hblank in Hmain by reflexivity. discriminate. }
    rewrite Hgo in Hmain by discriminate. injection Hmain as Hcrawl.
    unfold crawl_and_save_all_pages in Hcrawl.
    pose proof (stopped_on_crash_crawl fuel w fs (c :: t)) as Hcrash.
    set (final := crawl_loop fuel w (initial_state fs (c :: t))) in *.
    destruct (truthy (current_url final)) eqn:E; [discriminate|].
    assert (Hgets : exists rest, gets (trace final) = (c :: t) :: rest).
    { subst final. destruct fuel as [|fuel]; [discriminate|].
      rewrite crawl_loop_first by discriminate.
      assert (Hfirst : gets (trace (step w (initial_state fs (c :: t))))
                       = [c :: t])
        by (now rewrite (step_gets w _ (c :: t))).
      exact (crawl_loop_gets_first fuel w _ _ _ Hfirst). }
    destruct (has_crashed (trace final)) eqn:Hk; injection Hcrawl as <-.
    + split; [exact Hgets|].
      destruct (Hcrash Hk) as [[k ->] _]. discriminate.
    + cbn [emit trace]. rewrite gets_app, last_snoc. cbn.
      rewrite app_nil_r. split; [exact Hgets|].
      unfold summary. destruct (output_filename _) as [[|x name]|];
        discriminate.
Qed.

End Runtime.

(** * The properties on the samples *)

Lemma sanitize_filename_safe_witness :
  Forall (fun c => c ∈ forbidden_chars) (lit "/:*") /\
  sanitize_filename sample_lower (lit "/:*") = untitled.
Proof.
  assert (H : Forall (fun c => c ∈ forbidden_chars) (lit "/:*")).
  { apply (bool_decide_unpack _). vm_compute. exact I. }
  split; [exact H|].
  exact (proj1 (proj2 (proj2 (sanitize_filename_safe sample_lower)))
               (lit "/:*") H).
Defined.


Lemma extract_title_for_filename_spec_witness :
  first_such is_title_span (soup_tags page_one) sample_title_span /\
  extract_title_for_filename sample_lower page_one = lit "My_Title".
Proof.
  assert (H : first_such is_title_span (soup_tags page_one) sample_title_span).
  { apply find_title_span_some. reflexivity. }
  split; [exact H|].
  apply (proj2 (proj2 (proj2 (extract_title_for_filename_spec sample_lower
                                page_one) sample_title_span H))).
  reflexivity.
Defined.

(** The link of the first sample page resolves to the second address; the
    link of the broken page makes [urljoin] raise, and the crawl ends on
    that exception after the page was written. *)
Lemma resolve_next_spec_witness :
  (first_such is_next_link (soup_tags page_one) sample_next_link /\
   resolve_next sample_lower sample_urljoin url_one page_one = Next url_two) /\
  (resolve_next sample_lower sample_urljoin url_one page_broken
   = ResolutionRaises /\
   last (trace (step sample_lower sample_urljoin broken_world
                  (initial_state ∅ url_one)))
   = Some (Uncaught UrljoinRaised) /\
   crawl_and_save_all_pages sample_lower sample_urljoin 5 broken_world ∅
     url_one =
   Some (step sample_lower sample_urljoin broken_world
           (initial_state ∅ url_one))).
Proof.
  split.
  - assert (H : first_such is_next_link (soup_tags page_one) sample_next_link).
    { apply find_next_link_some. reflexivity. }
    split; [exact H|].
    apply (proj1 (proj2 (resolve_next_spec sample_lower sample_urljoin
                           url_one page_one))
                 sample_next_link (lit " http://site/2 ") H).
    + reflexivity.
    + vm_compute. discriminate.
    + unfold same_ignoring_case. vm_compute. discriminate.
  - assert (H : resolve_next sample_lower sample_urljoin url_one page_broken
                = ResolutionRaises) by reflexivity.
    split; [exact H|].
    destruct (proj2 (proj2 (resolve_next_spec sample_lower sample_urljoin
                              url_one page_broken))
                    0%nat broken_world ∅ url_one eq_refl)
      as [Hlast Hend].
    + discriminate.
    + reflexivity.
    + reflexivity.
    + exact H.
    + split; [exact Hlast | exact (Hend 4%nat)].
Defined.

(** After the first sample page the cursor is the second address; after
    the page that links to itself it is none. *)
Lemma no_immediate_refetch_witness :
  current_url (step sample_lower sample_urljoin sample_world
                 (initial_state ∅ url_one)) = Some url_two /\
  current_url (step sample_lower sample_urljoin self_world
                 (initial_state ∅ url_one)) = None.
Proof.
  split.
  - refine (proj1 (proj1 (no_immediate_refetch sample_lower sample_urljoin)
                     sample_world (initial_state ∅ url_one) url_one page_one
                     (lit "My_Title.txt") sample_next_link
                     (lit " http://site/2 ") url_two
                     eq_refl eq_refl eq_refl eq_refl _ eq_refl _ _ eq_refl) _).
    + apply find_next_link_some. reflexivity.
    + vm_compute. discriminate.
    + unfold same_ignoring_case. vm_compute. discriminate.
    + discriminate.
  - refine (proj1 (proj2 (proj1 (no_immediate_refetch sample_lower
                                   sample_urljoin)
                     self_world (initial_state ∅ url_one) url_one page_self
                     (lit "untitled.txt")
                     (Element (lit "a") (Some [lit "Readpage_up"])
                              (sample_link_attrs url_one) [] [document_name])
                     url_one url_one
                     eq_refl eq_refl eq_refl eq_refl _ eq_refl _ _ eq_refl)
                     eq_refl)).
    + apply find_next_link_some. reflexivity.
    + vm_compute. discriminate.
    + unfold same_ignoring_case. vm_compute. discriminate.
Defined.

(** A reply with the status 300 is not a failure: the page is written and
    the crawl goes on to the next page. *)
Lemma fetch_failure_stops_counterexample :
  reply choice_world 0%nat url_one = Reply 300 page_one /\
  fetch choice_world 0%nat url_one = Parsed page_one /\
  option_map (fun st => (files st !! lit "My_Title.txt", gets (trace st)))
    (crawl_and_save_all_pages sample_lower sample_urljoin 5 choice_world ∅
       url_one) =
  Some (Some (lit "first" ++ newlines ++ lit "second" ++ newlines
              ++ lit "third"),
        [url_one; url_two]).
Proof. vm_compute. repeat split. Qed.

(** The status 404 is a failure, and a crawl whose first request times out
    ends there without a file. *)
Lemma fetch_failure_stops_witness :
  fetch sample_world 0%nat (lit "http://site/3") = Failed (BadStatus 404) /\
  crawl_and_save_all_pages sample_lower sample_urljoin 5 down_world ∅ url_one =
  Some (State None None false ∅ 1%nat
          [Print (MsgProcessing url_one); Get url_one;
           Print (MsgTimeout url_one); Print MsgNoFile]).
Proof.
  split.
  - apply (proj1 (proj1 (fetch_failure_stops sample_lower sample_urljoin)
                        sample_world 0%nat (lit "http://site/3"))).
    lia.
  - apply (proj2 (proj2 (fetch_failure_stops sample_lower sample_urljoin))
                 4%nat down_world ∅ url_one TimedOut).
    + discriminate.
    + reflexivity.
Defined.

(** The first page is fetched, [open] raises, and no file is created:
    with an [IOError], which the crawl reports, and with another
    exception, on which the run ends. *)
Lemma output_file_fixed_by_first_page_counterexample :
  fetch locked_world 0%nat url_one = Parsed page_one /\
  option_map files
    (crawl_and_save_all_pages sample_lower sample_urljoin 5 locked_world ∅
       url_one) = Some ∅ /\
  fetch jammed_world 0%nat url_one = Parsed page_one /\
  option_map files
    (crawl_and_save_all_pages sample_lower sample_urljoin 5 jammed_world ∅
       url_one) = Some ∅.
Proof. vm_compute. repeat split. Qed.

Lemma output_file_fixed_by_first_page_witness :
  let st := crawl_loop sample_lower sample_urljoin 5 sample_world
              (initial_state ∅ url_one) in
  let name := extract_title_for_filename sample_lower page_one ++ lit ".txt" in
  output_filename st = Some name /\
  (exists n, opens (trace st) = (name, ModeW) :: repeat (name, ModeA) n) /\
  is_Some (files st !! name).
Proof.
  destruct (output_file_fixed_by_first_page sample_lower sample_urljoin
              4%nat sample_world ∅ url_one page_one) as (H1 & H2 & H3).
  - discriminate.
  - reflexivity.
  - split; [exact H1|]. split; [exact H2|]. apply H3; discriminate.
Defined.

Lemma separator_after_empty_first_page_witness :
  content_is (lit "untitled.txt") separated
    (crawl_loop sample_lower sample_urljoin 3
       (blank_world)
       (crawl_loop sample_lower sample_urljoin 1 blank_world
          (initial_state ∅ url_one))).
Proof.
  refine (separator_after_empty_first_page sample_lower sample_urljoin
            0%nat blank_world ∅ url_one page_blank _ _ _
            url_two page_two _ _ _ _ _ 2%nat);
    try reflexivity; discriminate.
Defined.

(** The two-page scenario of the specification: the paragraphs of both
    pages separated by blank lines, and two requests. *)
Example two_page_crawl :
  option_map (fun st => (files st !! lit "My_Title.txt", gets (trace st)))
    (crawl_and_save_all_pages sample_lower sample_urljoin 5 sample_world ∅
       url_one) =
  Some (Some (lit "first" ++ newlines ++ lit "second" ++ newlines
              ++ lit "third"),
        [url_one; url_two]).
Proof. vm_compute. reflexivity. Qed.

(** A single page whose link is its own address: one request, the file is
    created and left empty. *)
Example self_link_crawl :
  option_map (fun st => (files st !! lit "untitled.txt", gets (trace st)))
    (crawl_and_save_all_pages sample_lower sample_urljoin 5 self_world ∅
       url_one) =
  Some (Some [], [url_one]).
Proof. vm_compute. reflexivity. Qed.

(** A disk that is full after three bytes: the file holds the first three
    bytes of the first paragraph, and the crawl stops after that page. *)
Example full_disk_crawl :
  option_map (fun st => (files st !! lit "My_Title.txt", gets (trace st)))
    (crawl_and_save_all_pages sample_lower sample_urljoin 5 full_world ∅
       url_one) =
  Some (Some (lit "fir"), [url_one]).
Proof. vm_compute. reflexivity. Qed.

(** A write that stops in the middle of a character leaves the bytes of
    that character that reached the file; read back, each of them is one
    escaped code point. *)
Example cut_samples :
  cut 3 (lit "first") = lit "fir" /\
  cut 2 [97; 8364] = [97; escaped_byte 226] /\
  cut 9 (lit "first") = lit "first".
Proof. repeat split. Qed.

Example sample_paragraphs :
  extract_relevant_paragraphs page_one = [lit "first"; lit "second"].
Proof. reflexivity. Qed.

Example sanitize_samples :
  sanitize_filename sample_lower (lit "  a  b/c:d  ") = lit "a_bcd" /\
  sanitize_filename sample_lower (lit "UnTiTled") = untitled /\
  sanitize_filename sample_lower (lit "....") = untitled /\
  sanitize_filename sample_lower ([nbsp] ++ lit "x y" ++ [nbsp]) = lit "x_y".
Proof. repeat split. Qed.

(** * The further properties on the samples *)

Lemma sanitize_filename_ignores_margins_witness :
  sanitize_filename sample_lower ([32; 9] ++ lit "a b" ++ [nbsp]) =
  sanitize_filename sample_lower (lit "a b").
Proof.
  apply (sanitize_filename_ignores_margins sample_lower [32; 9] (lit "a b")
           [nbsp]).
  - repeat constructor.
  - repeat constructor.
Defined.

(** A section at the top level has no paragraph, and the paragraph in the
    section of the first sample page, below a [div], is skipped. *)
Lemma extract_relevant_paragraphs_compose_witness :
  extract_relevant_paragraphs
    [Tag (lit "nav") None ∅
       [Tag (lit "div") None ∅
          [Tag (lit "p") None ∅ [NavigableString (lit "menu")]]]] = [] /\
  is_in_excluded_section (e_parents sample_nav_paragraph) = true /\
  ~ relevant sample_nav_paragraph.
Proof.
  split.
  - apply (proj1 (proj2 extract_relevant_paragraphs_compose)).
    apply (bool_decide_unpack _). vm_compute. exact I.
  - apply (proj2 (proj2 (proj2 extract_relevant_paragraphs_compose))
                 (lit "nav") None ∅
                 [Tag (lit "p") None ∅ [NavigableString (lit "menu")]]
                 [lit "div"; document_name] sample_nav_paragraph).
    + apply (bool_decide_unpack _). vm_compute. exact I.
    + right. left. reflexivity.
    + intros H. apply (f_equal e_name) in H. vm_compute in H. discriminate.
Defined.

Lemma split_once_parts_witness :
  exists before after,
    split_once separator sample_title = [before; after] /\
    sample_title = before ++ separator ++ after.
Proof.
  apply (proj1 (split_once_parts separator sample_title)). reflexivity.
Defined.

Lemma find_next_href_shape_witness :
  trimmed url_two /\ strip url_two = url_two /\
  ~ same_ignoring_case sample_lower url_two sentinel_href.
Proof.
  apply (proj1 (find_next_href_shape sample_lower page_one url_two)).
  reflexivity.
Defined.

Lemma crawl_touches_one_file_witness :
  files (crawl_loop sample_lower sample_urljoin 5 sample_world
           (initial_state sample_files url_one)) !! lit "notes.txt"
  = Some (lit "kept").
Proof.
  refine (eq_trans
            (proj2 (crawl_touches_one_file sample_lower sample_urljoin 5
                      sample_world sample_files url_one)
                   (lit "My_Title.txt") (lit "notes.txt") _ _) _).
  - vm_compute. reflexivity.
  - discriminate.
  - reflexivity.
Defined.

Lemma output_filename_shape_witness :
  exists base,
    lit "My_Title.txt" = base ++ lit ".txt" /\
    base <> [] /\
    (length base <= 200)%nat /\
    Forall (fun c => isspace c = false /\ c ∉ forbidden_chars) base /\
    ~ Forall (fun c => c = 46) base /\
    sanitize_filename sample_lower base = base.
Proof.
  apply (output_filename_shape sample_lower sample_urljoin 5 sample_world ∅
           url_one).
  vm_compute. reflexivity.
Defined.

Lemma output_file_grows_witness :
  exists extra,
    files (crawl_loop sample_lower sample_urljoin (1 + 1) sample_world
             (initial_state ∅ url_one)) !! lit "My_Title.txt"
    = Some ((lit "first" ++ newlines ++ lit "second") ++ extra).
Proof.
  apply (output_file_grows sample_lower sample_urljoin 1 1 sample_world ∅
           url_one).
  - vm_compute. reflexivity.
  - vm_compute. reflexivity.
Defined.

(** The two requests of the sample crawl, with the pause between them. *)
Lemma crawl_pauses_between_fetches_witness :
  exists st,
    crawl_and_save_all_pages sample_lower sample_urljoin 5 sample_world ∅
      url_one = Some st /\
    gets (trace st) = [url_one; url_two] /\
    S (length (sleeps (trace st))) = length (gets (trace st)) /\
    rhythm (trace st) = [Some url_one; None; Some url_two].
Proof.
  destruct (crawl_and_save_all_pages sample_lower sample_urljoin 5
              sample_world ∅ url_one) as [st|] eqn:E.
  - exists st. split; [reflexivity|].
    destruct (crawl_pauses_between_fetches sample_lower sample_urljoin 5
                sample_world ∅ url_one st) as (H1 & _ & H3 & H4);
      [discriminate | exact E |].
    assert (Hgets : gets (trace st) = [url_one; url_two])
      by (vm_compute in E; injection E as <-; reflexivity).
    split; [exact Hgets|]. split; [exact H3|].
    rewrite H4, Hgets. reflexivity.
  - vm_compute in E. discriminate.
Defined.

(** [open] raises an [IOError]: nothing is written.  The disk is full
    after three bytes: the file holds these. *)
Lemma io_error_stops_witness :
  (let st := step sample_lower sample_urljoin locked_world
               (initial_state sample_files url_one) in
   current_url st = None /\
   files st = sample_files /\
   last (trace st) = Some (Print (MsgWriteError (lit "My_Title.txt"))) /\
   forall fuel,
     crawl_loop sample_lower sample_urljoin fuel locked_world st = st) /\
  (let st := step sample_lower sample_urljoin full_world
               (initial_state sample_files url_one) in
   current_url st = None /\
   files st !! lit "My_Title.txt" = Some (lit "fir") /\
   last (trace st) = Some (Print (MsgWriteError (lit "My_Title.txt"))) /\
   forall fuel,
     crawl_loop sample_lower sample_urljoin fuel full_world st = st).
Proof.
  split.
  - apply (proj1 (io_error_stops sample_lower sample_urljoin locked_world
                    (initial_state sample_files url_one) url_one page_one
                    (lit "My_Title.txt") eq_refl eq_refl eq_refl eq_refl)).
    reflexivity.
  - apply (proj1 (proj2 (io_error_stops sample_lower sample_urljoin full_world
                           (initial_state sample_files url_one) url_one
                           page_one (lit "My_Title.txt")
                           eq_refl eq_refl eq_refl eq_refl))
                 0%nat 3%nat).
    reflexivity.
Defined.

Lemma open_failure_on_first_page_witness :
  crawl_and_save_all_pages sample_lower sample_urljoin 3 locked_world
    sample_files url_one =
  Some (State None (Some (lit "My_Title.txt")) true sample_files 1%nat
          [Print (MsgProcessing url_one); Get url_one;
           Print (MsgFilename (lit "My_Title.txt"));
           Open (lit "My_Title.txt") ModeW;
           Print (MsgWriteError (lit "My_Title.txt"));
           Print (MsgDone (lit "My_Title.txt"))]) /\
  crawl_and_save_all_pages sample_lower sample_urljoin 3 jammed_world
    sample_files url_one =
  Some (State None (Some (lit "My_Title.txt")) true sample_files 1%nat
          [Print (MsgProcessing url_one); Get url_one;
           Print (MsgFilename (lit "My_Title.txt"));
           Open (lit "My_Title.txt") ModeW;
           Uncaught OpenRaised]).
Proof.
  split.
  - apply (proj1 (open_failure_on_first_page sample_lower sample_urljoin 2%nat
                    locked_world sample_files url_one page_one
                    ltac:(discriminate) eq_refl)).
    reflexivity.
  - apply (proj2 (open_failure_on_first_page sample_lower sample_urljoin 2%nat
                    jammed_world sample_files url_one page_one
                    ltac:(discriminate) eq_refl)).
    reflexivity.
Defined.

Lemma crawl_writes_the_series_witness :
  exists st,
    crawl_and_save_all_pages sample_lower sample_urljoin 5 sample_world
      sample_files url_one = Some st /\
    output_filename st = Some (lit "My_Title.txt") /\
    files st =
      <[lit "My_Title.txt" :=
          lit "first" ++ newlines ++ lit "second" ++ newlines ++ lit "third"]>
        sample_files /\
    gets (trace st) = [url_one; url_two] /\
    last (trace st) = Some (Print (MsgDone (lit "My_Title.txt"))).
Proof.
  apply (crawl_writes_the_series sample_lower sample_urljoin sample_world
           sample_files url_one page_one [(url_two, page_two)] 3%nat).
  repeat split; try reflexivity; try discriminate.
Defined.

Lemma two_page_cycle_never_ends_witness :
  crawl_and_save_all_pages sample_lower sample_urljoin 1000 cycle_world ∅
    url_one = None.
Proof.
  apply (two_page_cycle_never_ends sample_lower sample_urljoin cycle_world ∅
           url_one url_two page_one page_back);
    try discriminate; reflexivity.
Defined.

Lemma main_spec_witness :
  trimmed url_one /\
  main sample_lower sample_urljoin 5 sample_world ∅
       ([32] ++ url_one ++ [10]) =
  Crawled (crawl_and_save_all_pages sample_lower sample_urljoin 5
             sample_world ∅ url_one).
Proof.
  apply (proj1 (proj2 (main_spec sample_lower sample_urljoin 5 sample_world ∅
                         ([32] ++ url_one ++ [10])))).
  discriminate.
Defined.
